(** * jsonflag: a shallow embedding of the reflective value binding engine

    The development follows the Go package [jsonflag]: the kind dispatch of
    [newValue] / [newSliceValue], the [Value] handle with its codec pair,
    the filter chain and the recursive discoverer, and the per-kind codecs.

    Modelling conventions.
    - A Go [reflect.Type] is a finite tree ([type]); a record type that
      refers to itself has no finite tree and is outside the model.  A
      type carries the name of its declaration, if it has one: a defined
      type ([type Duration int64]) and its underlying type are two types,
      and [reflect] assigns a value of one to a place of the other only
      as the rules of assignability allow ([directlyAssignable]).
    - A panic is its message; where the message of Go names the types
      involved, the message here leaves them out.
    - The bound structure is a tree of owned values ([value]): a pointer
      is [VPtr None] (nil) or [VPtr (Some v)]; two pointers of the bound
      structure never share a pointee.
    - A [reflect.Value] is a cursor: its static type and the place it
      designates, either a path into the bound structure ([InStore]) or a
      temporary ([Temp]).  Code that mutates through a cursor is written
      in the state-and-panic monad [M] over the bound structure.
    - Functions of the Go standard library whose results the package only
      passes along (JSON, base64, floating point text) are the fields of
      the class [GoLib]; [strconv]'s integer and boolean functions are
      written out. *)

From Stdlib Require Import ZArith NArith List String Ascii Bool Lia Permutation Sorted.
From stdpp Require Import base list.
Import ListNotations.
Set Warnings "-register-all".
Local Open Scope string_scope.
Local Open Scope Z_scope.
Local Open Scope list_scope.

(** ** Kinds and types (package reflect) *)

Inductive Kind : Set :=
| KInvalid | KBool
| KInt | KInt8 | KInt16 | KInt32 | KInt64
| KUint | KUint8 | KUint16 | KUint32 | KUint64 | KUintptr
| KFloat32 | KFloat64 | KComplex64 | KComplex128
| KArray | KChan | KFunc | KInterface | KMap | KPointer | KSlice
| KString | KStruct | KUnsafePointer.

Definition Kind_eqb (a b : Kind) : bool :=
  match a, b with
  | KInvalid, KInvalid | KBool, KBool | KInt, KInt | KInt8, KInt8
  | KInt16, KInt16 | KInt32, KInt32 | KInt64, KInt64 | KUint, KUint
  | KUint8, KUint8 | KUint16, KUint16 | KUint32, KUint32
  | KUint64, KUint64 | KUintptr, KUintptr | KFloat32, KFloat32
  | KFloat64, KFloat64 | KComplex64, KComplex64
  | KComplex128, KComplex128 | KArray, KArray | KChan, KChan
  | KFunc, KFunc | KInterface, KInterface | KMap, KMap
  | KPointer, KPointer | KSlice, KSlice | KString, KString
  | KStruct, KStruct | KUnsafePointer, KUnsafePointer => true
  | _, _ => false
  end.

(** The kinds of types that have no components the package looks at. *)
Inductive BasicKind : Set :=
| BBool
| BInt | BInt8 | BInt16 | BInt32 | BInt64
| BUint | BUint8 | BUint16 | BUint32 | BUint64 | BUintptr
| BFloat32 | BFloat64 | BComplex64 | BComplex128
| BString | BChan | BFunc | BInterface | BUnsafePointer.

Definition Kind_of_basic (b : BasicKind) : Kind :=
  match b with
  | BBool => KBool
  | BInt => KInt | BInt8 => KInt8 | BInt16 => KInt16
  | BInt32 => KInt32 | BInt64 => KInt64
  | BUint => KUint | BUint8 => KUint8 | BUint16 => KUint16
  | BUint32 => KUint32 | BUint64 => KUint64 | BUintptr => KUintptr
  | BFloat32 => KFloat32 | BFloat64 => KFloat64
  | BComplex64 => KComplex64 | BComplex128 => KComplex128
  | BString => KString | BChan => KChan | BFunc => KFunc
  | BInterface => KInterface | BUnsafePointer => KUnsafePointer
  end.

(** [reflect.StructField]: the name, the package path (empty exactly for
    an exported field), the declared type and the tag. *)
Record StructField_ (T : Type) : Type := mkField {
  Name : string;
  PkgPath : string;
  Type_ : T;
  Tag : string
}.
Arguments mkField {T} _ _ _ _.
Arguments Name {T} _.
Arguments PkgPath {T} _.
Arguments Type_ {T} _.
Arguments Tag {T} _.

(** The name of a defined type ([type Duration int64]); [None] on a type
    literal ([*T], [[]T], [struct{...}]) and, on a basic kind, for the
    predeclared type of that kind ([int64], [string]). *)
Definition tname : Set := option string.

Inductive type : Type :=
| TyBasic (nm : tname) (b : BasicKind)
| TyPointer (nm : tname) (elem : type)
| TySlice (nm : tname) (elem : type)
| TyArray (nm : tname) (len : nat) (elem : type)
| TyMap (nm : tname) (key elem : type)
| TyStruct (nm : tname) (fs : list (StructField_ type)).

Abbreviation StructField := (StructField_ type).

(** The predeclared types and the type literals. *)
Abbreviation TBasic := (TyBasic None).
Abbreviation TPointer := (TyPointer None).
Abbreviation TSlice := (TySlice None).
Abbreviation TArray := (TyArray None).
Abbreviation TMap := (TyMap None).
Abbreviation TStruct := (TyStruct None).

Definition IsExported (f : StructField) : bool :=
  match PkgPath f with EmptyString => true | _ => false end.

(** [t.Kind()] *)
Definition type_Kind (t : type) : Kind :=
  match t with
  | TyBasic _ b => Kind_of_basic b
  | TyPointer _ _ => KPointer
  | TySlice _ _ => KSlice
  | TyArray _ _ _ => KArray
  | TyMap _ _ _ => KMap
  | TyStruct _ _ => KStruct
  end.

(** [t.Elem()]; [None] where Go panics (the type has no element type). *)
Definition type_Elem (t : type) : option type :=
  match t with
  | TyPointer _ e | TySlice _ e | TyArray _ _ e | TyMap _ _ e => Some e
  | _ => None
  end.

(** [elemIfPtrType]: [if t.Kind() != reflect.Pointer { return t }; return t.Elem()] *)
Definition elemIfPtrType (t : type) : type :=
  match t with
  | TyPointer _ e => e
  | _ => t
  end.

(** ** Values of the bound structure *)

Inductive value : Type :=
| VBool (b : bool)
| VInt (n : Z)                 (* a signed integer of the width of its type *)
| VUint (n : Z)                (* an unsigned integer of the width of its type *)
| VFloat (bits : Z)            (* the value as a float64, by its IEEE 754 bits *)
| VComplex (re im : Z)         (* real and imaginary part, each as VFloat *)
| VString (s : string)
| VPtr (p : option value)      (* nil, or the pointee *)
| VSlice (s : option (list value))        (* nil, or the elements *)
| VMap (m : option (list (value * value))) (* nil, or the entries *)
| VStruct (fs : list value)
| VArray (l : list value)
| VNil.                        (* nil chan, func, interface, unsafe pointer *)

(** The zero value of a type ([reflect.Zero], and what [reflect.New]
    points to). *)
Fixpoint zero (t : type) : value :=
  match t with
  | TyBasic _ b =>
      match b with
      | BBool => VBool false
      | BInt | BInt8 | BInt16 | BInt32 | BInt64 => VInt 0
      | BUint | BUint8 | BUint16 | BUint32 | BUint64 | BUintptr => VUint 0
      | BFloat32 | BFloat64 => VFloat 0
      | BComplex64 | BComplex128 => VComplex 0 0
      | BString => VString ""
      | BChan | BFunc | BInterface | BUnsafePointer => VNil
      end
  | TyPointer _ _ => VPtr None
  | TySlice _ _ => VSlice None
  | TyArray _ n e => VArray (repeat (zero e) n)
  | TyMap _ _ _ => VMap None
  | TyStruct _ fs => VStruct (List.map (fun f => zero (Type_ f)) fs)
  end.

(** ** reflect.Value as a cursor *)

Inductive step : Set := Deref | FieldAt (i : nat).

Inductive rloc : Type :=
| NoLoc                         (* the zero reflect.Value *)
| InStore (path : list step)    (* a place of the bound structure *)
| Temp (v : value).             (* a value that is not in the bound structure *)

Record reflect_Value : Type := mkRV {
  rv_type : type;
  rv_loc : rloc;
  rv_addr : bool;   (* flagAddr: CanAddr *)
  rv_ro : bool      (* flagRO: reached through an unexported field *)
}.

Definition rv_IsValid (v : reflect_Value) : bool :=
  match rv_loc v with NoLoc => false | _ => true end.
Definition rv_Kind (v : reflect_Value) : Kind :=
  if rv_IsValid v then type_Kind (rv_type v) else KInvalid.
Definition rv_CanAddr (v : reflect_Value) : bool := rv_addr v.
Definition rv_CanSet (v : reflect_Value) : bool := rv_addr v && negb (rv_ro v).

(** ** The Value handle *)

(** The render functions a handle can be bound to. *)
Inductive StringFn : Set :=
| fn_boolValueString | fn_intValueString | fn_uintValueString
| fn_float32ValueString | fn_float64ValueString
| fn_complex64ValueString | fn_complex128ValueString
| fn_stringValueString | fn_bytesValueString
| fn_mapValueString | fn_structValueString | fn_sliceValueString
| fn_complex64SliceValueString | fn_complex128SliceValueString.

(** The parse-and-install functions a handle can be bound to. *)
Inductive SetFn : Set :=
| fn_boolValueSet
| fn_intValueSet | fn_int8ValueSet | fn_int16ValueSet
| fn_int32ValueSet | fn_int64ValueSet
| fn_uintValueSet | fn_uint8ValueSet | fn_uint16ValueSet
| fn_uint32ValueSet | fn_uint64ValueSet
| fn_float32ValueSet | fn_float64ValueSet
| fn_complex64ValueSet | fn_complex128ValueSet
| fn_stringValueSet | fn_bytesValueSet
| fn_mapValueSet | fn_structValueSet
| fn_boolSliceValueSet
| fn_intSliceValueSet | fn_int8SliceValueSet | fn_int16SliceValueSet
| fn_int32SliceValueSet | fn_int64SliceValueSet
| fn_uintSliceValueSet | fn_uint8SliceValueSet | fn_uint16SliceValueSet
| fn_uint32SliceValueSet | fn_uint64SliceValueSet
| fn_float32SliceValueSet | fn_float64SliceValueSet
| fn_complex64SliceValueSet | fn_complex128SliceValueSet
| fn_stringSliceValueSet | fn_bytesSliceValueSet
| fn_sliceSliceValueSet | fn_mapSliceValueSet | fn_structSliceValueSet.

(** Go's [error]: nil or an error. *)
Inductive error : Set :=
| ErrNil
| ErrSyntax                (* strconv.ErrSyntax *)
| ErrRange                 (* strconv.ErrRange *)
| ErrOther (msg : string).

Definition is_nil_error (e : error) : bool :=
  match e with ErrNil => true | _ => false end.

Record Value : Type := mkValue {
  base : reflect_Value;
  fieldsIndexes : list nat;
  fields : list StructField;
  typeName : string;
  stringFn : option StringFn;
  encodeFn : option (type -> value -> string * error);
  setFn : option SetFn;
  decodeFn : option (string -> type -> value -> value * error);
  isBool : bool
}.

(** The zero [reflect.Value] and the zero [Value]. *)
Definition rv_zero : reflect_Value := mkRV (TBasic BInterface) NoLoc false false.
Definition Value_zero : Value :=
  mkValue rv_zero [] [] "" None None None None false.

(** [&Value{base, fieldsIndexes, fields, typeName, stringFn, setFn}] *)
Definition mk (b : reflect_Value) (ix : list nat) (fs : list StructField)
    (name : string) (sf : StringFn) (st : SetFn) : Value :=
  mkValue b ix fs name (Some sf) None (Some st) None false.

Definition with_isBool (v : Value) : Value :=
  mkValue (base v) (fieldsIndexes v) (fields v) (typeName v)
          (stringFn v) (encodeFn v) (setFn v) (decodeFn v) true.

(** ** Kind dispatch: one constructor per supported kind *)

Section Constructors.
Variables (b : reflect_Value) (ix : list nat) (fs : list StructField).

Definition newBoolValue := mk b ix fs "bool" fn_boolValueString fn_boolValueSet.
Definition newIntValue := mk b ix fs "int" fn_intValueString fn_intValueSet.
Definition newInt8Value := mk b ix fs "int8" fn_intValueString fn_int8ValueSet.
Definition newInt16Value := mk b ix fs "int16" fn_intValueString fn_int16ValueSet.
Definition newInt32Value := mk b ix fs "int32" fn_intValueString fn_int32ValueSet.
Definition newInt64Value := mk b ix fs "int64" fn_intValueString fn_int64ValueSet.
Definition newUintValue := mk b ix fs "uint" fn_uintValueString fn_uintValueSet.
Definition newUint8Value := mk b ix fs "uint8" fn_uintValueString fn_uint8ValueSet.
Definition newUint16Value := mk b ix fs "uint16" fn_uintValueString fn_uint16ValueSet.
Definition newUint32Value := mk b ix fs "uint32" fn_uintValueString fn_uint32ValueSet.
Definition newUint64Value := mk b ix fs "uint64" fn_uintValueString fn_uint64ValueSet.
Definition newFloat32Value :=
    mk b ix fs "float32" fn_float32ValueString fn_float32ValueSet.
Definition newFloat64Value :=
    mk b ix fs "float64" fn_float64ValueString fn_float64ValueSet.
Definition newComplex64Value :=
    mk b ix fs "complex64" fn_complex64ValueString fn_complex64ValueSet.
Definition newComplex128Value :=
    mk b ix fs "complex128" fn_complex128ValueString fn_complex128ValueSet.
Definition newStringValue := mk b ix fs "string" fn_stringValueString fn_stringValueSet.
Definition newBytesValue := mk b ix fs "base64" fn_bytesValueString fn_bytesValueSet.
Definition newMapValue := mk b ix fs "JSON object" fn_mapValueString fn_mapValueSet.
Definition newStructValue :=
    mk b ix fs "JSON object" fn_structValueString fn_structValueSet.

  (** The only constructor whose literal has [isBool: true]. *)
Definition newBoolSliceValue :=
    with_isBool (mk b ix fs "bool (JSON list)" fn_sliceValueString fn_boolSliceValueSet).
Definition newIntSliceValue :=
    mk b ix fs "int (JSON list)" fn_sliceValueString fn_intSliceValueSet.
Definition newInt8SliceValue :=
    mk b ix fs "int8 (JSON list)" fn_sliceValueString fn_int8SliceValueSet.
Definition newInt16SliceValue :=
    mk b ix fs "int16 (JSON list)" fn_sliceValueString fn_int16SliceValueSet.
Definition newInt32SliceValue :=
    mk b ix fs "int32 (JSON list)" fn_sliceValueString fn_int32SliceValueSet.
Definition newInt64SliceValue :=
    mk b ix fs "int64 (JSON list)" fn_sliceValueString fn_int64SliceValueSet.
Definition newUintSliceValue :=
    mk b ix fs "uint (JSON list)" fn_sliceValueString fn_uintSliceValueSet.
Definition newUint8SliceValue :=
    mk b ix fs "uint8 (JSON list)" fn_sliceValueString fn_uint8SliceValueSet.
Definition newUint16SliceValue :=
    mk b ix fs "uint16 (JSON list)" fn_sliceValueString fn_uint16SliceValueSet.
Definition newUint32SliceValue :=
    mk b ix fs "uint32 (JSON list)" fn_sliceValueString fn_uint32SliceValueSet.
Definition newUint64SliceValue :=
    mk b ix fs "uint64 (JSON list)" fn_sliceValueString fn_uint64SliceValueSet.
Definition newFloat32SliceValue :=
    mk b ix fs "float32 (JSON list)" fn_sliceValueString fn_float32SliceValueSet.
Definition newFloat64SliceValue :=
    mk b ix fs "float64 (JSON list)" fn_sliceValueString fn_float64SliceValueSet.
Definition newComplex64SliceValue :=
    mk b ix fs "complex64 (JSON list)"
       fn_complex64SliceValueString fn_complex64SliceValueSet.
Definition newComplex128SliceValue :=
    mk b ix fs "complex128 (JSON list)"
       fn_complex128SliceValueString fn_complex128SliceValueSet.
Definition newStringSliceValue :=
    mk b ix fs "string (JSON list)" fn_sliceValueString fn_stringSliceValueSet.
Definition newBytesSliceValue :=
    mk b ix fs "base64 (JSON list)" fn_sliceValueString fn_bytesSliceValueSet.
Definition newSliceSliceValue :=
    mk b ix fs "JSON list" fn_sliceValueString fn_sliceSliceValueSet.
Definition newMapSliceValue :=
    mk b ix fs "JSON object (JSON list)" fn_sliceValueString fn_mapSliceValueSet.
Definition newStructSliceValue :=
    mk b ix fs "JSON object (JSON list)" fn_sliceValueString fn_structSliceValueSet.

  (** [newSliceValue]; a [*Value] is an [option Value], [None] for nil.
      [typ.Elem()] has a result because [newValue] passes a slice type. *)
Definition newSliceValue (typ : type) : option Value :=
    match type_Elem typ with
    | None => None
    | Some e =>
        let t := elemIfPtrType e in
        match type_Kind t with
        | KBool => Some newBoolSliceValue
        | KInt => Some newIntSliceValue
        | KInt8 => Some newInt8SliceValue
        | KInt16 => Some newInt16SliceValue
        | KInt32 => Some newInt32SliceValue
        | KInt64 => Some newInt64SliceValue
        | KUint => Some newUintSliceValue
        | KUint8 =>
            if Kind_eqb (type_Kind e) KUint8 (* slice of bytes *)
            then Some newBytesValue
            else Some newUint8SliceValue
        | KUint16 => Some newUint16SliceValue
        | KUint32 => Some newUint32SliceValue
        | KUint64 => Some newUint64SliceValue
        | KFloat32 => Some newFloat32SliceValue
        | KFloat64 => Some newFloat64SliceValue
        | KComplex64 => Some newComplex64SliceValue
        | KComplex128 => Some newComplex128SliceValue
        | KString => Some newStringSliceValue
        | KSlice =>
            match type_Elem t with
            | Some e' =>
                if Kind_eqb (type_Kind e') KUint8 (* slice of slices of bytes *)
                then Some newBytesSliceValue
                else Some newSliceSliceValue
            | None => None
            end
        | KMap => Some newMapSliceValue
        | KStruct => Some newStructSliceValue
        | _ => None
        end
    end.

  (** The type of the position: [base.Type()], or the declared type of the
      last field of the path. *)
Definition position_type : type :=
    match last fs with
    | Some f => Type_ f
    | None => rv_type b
    end.

Definition newValue : option Value :=
    let t := elemIfPtrType position_type in
    match type_Kind t with
    | KBool => Some newBoolValue
    | KInt => Some newIntValue
    | KInt8 => Some newInt8Value
    | KInt16 => Some newInt16Value
    | KInt32 => Some newInt32Value
    | KInt64 => Some newInt64Value
    | KUint => Some newUintValue
    | KUint8 => Some newUint8Value
    | KUint16 => Some newUint16Value
    | KUint32 => Some newUint32Value
    | KUint64 => Some newUint64Value
    | KFloat32 => Some newFloat32Value
    | KFloat64 => Some newFloat64Value
    | KComplex64 => Some newComplex64Value
    | KComplex128 => Some newComplex128Value
    | KString => Some newStringValue
    | KSlice => newSliceValue t
    | KMap => Some newMapValue
    | KStruct => Some newStructValue
    | _ => None
    end.
End Constructors.

(** ** Pure methods of Value *)

(** [val != nil && val.base.IsValid()] *)
Definition isInitialized (val : option Value) : bool :=
  match val with
  | None => false
  | Some v => rv_IsValid (base v)
  end.

Definition Value_Path (val : option Value) : list StructField :=
  match val with
  | Some v => if isInitialized val then fields v else []
  | None => []
  end.

Definition Value_Type (val : option Value) : string :=
  match val with
  | Some v => if isInitialized val then typeName v else ""
  | None => ""
  end.

Definition Value_IsBoolFlag (val : option Value) : bool :=
  match val with
  | Some v => if isInitialized val then isBool v else false
  | None => false
  end.

(** [val.typ()] *)
Definition Value_typ (v : Value) : type := position_type (base v) (fields v).

(** ** Roots *)

(** A Go [any]: nil, or a dynamic type with a value of it. *)
Definition any : Type := option (type * value).

(** [reflect.ValueOf(base)] for a non-nil [base]: a cursor on the root of
    the bound structure, neither addressable nor settable. *)
Definition reflect_ValueOf (t : type) : reflect_Value :=
  mkRV t (InStore []) false false.

(** [v.IsNil()] of the root cursor, read off the root value. *)
Definition root_IsNil (x : value) : bool :=
  match x with
  | VPtr None | VSlice None | VMap None | VNil => true
  | _ => false
  end.

(** The test shared by [New] and [Recursive]:
    [!v.CanSet() && (v.Kind() != reflect.Pointer || v.IsNil())] *)
Definition unusable_root (t : type) (x : value) : bool :=
  let v := reflect_ValueOf t in
  negb (rv_CanSet v) && (negb (Kind_eqb (rv_Kind v) KPointer) || root_IsNil x).

Definition New (b : any) : option Value :=
  match b with
  | None => None
  | Some (t, x) =>
      if unusable_root t x then None
      else newValue (reflect_ValueOf t) [] []
  end.

(** ** Filters *)

(** [FilterResult] is a [uint32] bit field; bitwise or of two such values
    needs no wrap-around. *)
Definition FilterResult : Set := N.
Definition IncludeAndDescend : FilterResult := 0%N.
Definition IncludeNoDescend : FilterResult := 1%N.
Definition SkipAndDescend : FilterResult := 2%N.
Definition SkipNoDescend : FilterResult := 3%N.
Definition noDescendMask : FilterResult := 1%N.
Definition skipMask : FilterResult := 2%N.

Definition FilterFunc : Type := option Value -> FilterResult.

(** [Filter]: the named result [r] starts at zero. *)
Definition Filter (val : option Value) (filters : list FilterFunc) : FilterResult :=
  match val with
  | None => SkipNoDescend
  | Some _ => fold_left (fun r cond => N.lor r (cond val)) filters 0%N
  end.

(** ** The recursive discoverer *)

(** The loop [for i := range t.NumField() { field := t.Field(i); ... }],
    with the results of the iterations appended in order. *)
Fixpoint loop_fields {A : Type} (body : nat -> StructField -> list A)
    (rest : list StructField) (i : nat) : list A :=
  match rest with
  | [] => []
  | field :: rest' => body i field ++ loop_fields body rest' (S i)
  end.

(** [recursive], by recursion on the type [t] of the current position;
    the Go function recomputes this type from [base] and [fields] at every
    call ([position_type]; [recursive_unfold] below is the Go function). *)
Fixpoint recursive_at (t : type) (b : reflect_Value) (fieldsIndexes : list nat)
    (fields : list StructField) (filters : list FilterFunc) {struct t}
  : list (option Value) :=
  let val := newValue b fieldsIndexes fields in
  let filterResult := Filter val filters in
  let values :=
    if N.eqb (N.land filterResult skipMask) 0 then [val] else [] in
  if negb (N.eqb (N.land filterResult noDescendMask) 0) then values
  else
    match elemIfPtrType t with
    | TyStruct _ tfs =>
        values ++
        loop_fields
          (fun i field =>
             if negb (IsExported field) then []
             else recursive_at (Type_ field) b (fieldsIndexes ++ [i])
                               (fields ++ [field]) filters)
          tfs 0%nat
    | _ => values
    end.

Definition recursive (b : reflect_Value) (fieldsIndexes : list nat)
    (fields : list StructField) (filters : list FilterFunc) : list (option Value) :=
  recursive_at (position_type b fields) b fieldsIndexes fields filters.

Definition Recursive (b : any) (filters : list FilterFunc) : list (option Value) :=
  match b with
  | None => []
  | Some (t, x) =>
      if unusable_root t x then []
      else recursive (reflect_ValueOf t) [] [] filters
  end.

(** ** The state-and-panic monad over the bound structure *)

Inductive Res (A : Type) : Type :=
| Ok (a : A)
| Panic (msg : string).
Arguments Ok {A} _.
Arguments Panic {A} _.

(** A computation reads and updates the root value of the bound
    structure, and returns or panics. *)
Definition M (A : Type) : Type := value -> Res (A * value).

Definition ret {A : Type} (a : A) : M A := fun s => Ok (a, s).
Definition bind {A B : Type} (m : M A) (k : A -> M B) : M B :=
  fun s => match m s with
           | Ok (a, s') => k a s'
           | Panic msg => Panic msg
           end.
Definition panic {A : Type} (msg : string) : M A := fun _ => Panic msg.

Notation "'let*' x ':=' c 'in' k" := (bind c (fun x => k))
  (at level 10, x name, c at level 100, k at level 200).
Notation "c1 '>>' c2" := (bind c1 (fun _ => c2))
  (at level 80, right associativity).

(** Navigation in the tree of values. *)
Fixpoint load (x : value) (path : list step) : option value :=
  match path with
  | [] => Some x
  | Deref :: p =>
      match x with
      | VPtr (Some w) => load w p
      | _ => None
      end
  | FieldAt i :: p =>
      match x with
      | VStruct vs =>
          match vs !! i with
          | Some w => load w p
          | None => None
          end
      | _ => None
      end
  end.

Fixpoint store (x : value) (path : list step) (new : value) : option value :=
  match path with
  | [] => Some new
  | Deref :: p =>
      match x with
      | VPtr (Some w) =>
          match store w p new with
          | Some w' => Some (VPtr (Some w'))
          | None => None
          end
      | _ => None
      end
  | FieldAt i :: p =>
      match x with
      | VStruct vs =>
          match vs !! i with
          | Some w =>
              match store w p new with
              | Some w' => Some (VStruct (<[i:=w']> vs))
              | None => None
              end
          | None => None
          end
      | _ => None
      end
  end.

Definition name_eqb (a b : tname) : bool :=
  match a, b with
  | None, None => true
  | Some x, Some y => String.eqb x y
  | _, _ => false
  end.

(** Identity of types ([T == V] on [*rtype]): two defined types are
    identical when they are the same declaration, two other types when
    they have the same structure. *)
Fixpoint type_eqb (a b : type) {struct a} : bool :=
  match a, b with
  | TyBasic n x, TyBasic m y =>
      name_eqb n m && Kind_eqb (Kind_of_basic x) (Kind_of_basic y)
  | TyPointer n x, TyPointer m y => name_eqb n m && type_eqb x y
  | TySlice n x, TySlice m y => name_eqb n m && type_eqb x y
  | TyArray n k x, TyArray m l y => name_eqb n m && Nat.eqb k l && type_eqb x y
  | TyMap n k x, TyMap m l y => name_eqb n m && type_eqb k l && type_eqb x y
  | TyStruct n fs, TyStruct m gs =>
      name_eqb n m
      && (fix go (fs gs : list StructField) : bool :=
            match fs, gs with
            | [], [] => true
            | f :: fs', g :: gs' =>
                String.eqb (Name f) (Name g) && String.eqb (PkgPath f) (PkgPath g)
                && type_eqb (Type_ f) (Type_ g) && String.eqb (Tag f) (Tag g)
                && go fs' gs'
            | _, _ => false
            end) fs gs
  | _, _ => false
  end.

(** [t.hasName()]: a defined type or a predeclared one.  The predeclared
    types are those of the boolean, numeric and string kinds and
    [unsafe.Pointer]; a channel, function or interface type without a
    declaration is a type literal. *)
Definition type_hasName (t : type) : bool :=
  match t with
  | TyBasic nm (BChan | BFunc | BInterface)
  | TyPointer nm _ | TySlice nm _ | TyArray nm _ _ | TyMap nm _ _ | TyStruct nm _ =>
      match nm with Some _ => true | None => false end
  | TyBasic _ _ => true
  end.

(** The type without the name of its declaration. *)
Definition unnamed (t : type) : type :=
  match t with
  | TyBasic _ b => TyBasic None b
  | TyPointer _ e => TyPointer None e
  | TySlice _ e => TySlice None e
  | TyArray _ n e => TyArray None n e
  | TyMap _ k e => TyMap None k e
  | TyStruct _ fs => TyStruct None fs
  end.

(** [haveIdenticalUnderlyingType(T, V, true)] for two types of one kind:
    all types of a basic kind have the same underlying type; the
    components of other types have to be identical. *)
Definition haveIdenticalUnderlyingType (T V : type) : bool :=
  match T, V with
  | TyBasic _ x, TyBasic _ y => Kind_eqb (Kind_of_basic x) (Kind_of_basic y)
  | _, _ => type_eqb (unnamed T) (unnamed V)
  end.

(** [directlyAssignable(T, V)]: a value of type [V] can be stored in a
    place of type [T] when the types are identical, or have identical
    underlying types and are not both named. *)
Definition directlyAssignable (T V : type) : bool :=
  type_eqb T V
  || (negb (type_hasName T && type_hasName V)
      && Kind_eqb (type_Kind T) (type_Kind V)
      && haveIdenticalUnderlyingType T V).

(** *** Operations of reflect.Value *)

(** The value a cursor designates. *)
Definition rv_read (v : reflect_Value) : M value :=
  fun s =>
    match rv_loc v with
    | NoLoc => Panic "reflect: call on zero Value"
    | Temp x => Ok (x, s)
    | InStore p =>
        match load s p with
        | Some x => Ok (x, s)
        | None => Panic "reflect: dangling cursor"
        end
    end.

Definition rv_Type (v : reflect_Value) : type := rv_type v.

Definition rv_IsNil (v : reflect_Value) : M bool :=
  let* x := rv_read v in
  match x with
  | VPtr None | VSlice None | VMap None | VNil => ret true
  | VPtr (Some _) | VSlice (Some _) | VMap (Some _) => ret false
  | _ => panic "reflect: call of reflect.Value.IsNil on a value that cannot be nil"
  end.

(** [v.Elem()].  On a nil pointer Go returns the zero Value, and every
    call the package then makes on it panics; the panic is raised here. *)
Definition rv_Elem (v : reflect_Value) : M reflect_Value :=
  match rv_type v with
  | TyPointer _ e =>
      let* x := rv_read v in
      match x with
      | VPtr (Some w) =>
          ret (mkRV e
                 (match rv_loc v with
                  | InStore p => InStore (p ++ [Deref])
                  | _ => Temp w
                  end)
                 true (rv_ro v))
      | _ => panic "reflect: call on zero Value (Elem of a nil pointer)"
      end
  | _ => panic "reflect: call of reflect.Value.Elem on a non-pointer Value"
  end.

(** [v.Field(i)] *)
Definition rv_Field (v : reflect_Value) (i : nat) : M reflect_Value :=
  match rv_type v with
  | TyStruct _ fs =>
      match fs !! i with
      | None => panic "reflect: Field index out of range"
      | Some f =>
          let* x := rv_read v in
          match x with
          | VStruct vs =>
              match vs !! i with
              | Some w =>
                  ret (mkRV (Type_ f)
                         (match rv_loc v with
                          | InStore p => InStore (p ++ [FieldAt i])
                          | _ => Temp w
                          end)
                         (rv_addr v) (rv_ro v || negb (IsExported f)))
              | None => panic "reflect: Field index out of range"
              end
          | _ => panic "reflect: call of reflect.Value.Field on a non-struct Value"
          end
      end
  | _ => panic "reflect: call of reflect.Value.Field on a non-struct Value"
  end.

(** [v.Set(x)]: [v] must be settable, [x] valid, not read-only and
    assignable to the type of [v] ([x.assignTo]; no place of the package
    has an interface type that [x] could implement).  A write through a
    cursor on a temporary is not visible in the bound structure. *)
Definition rv_Set (v x : reflect_Value) : M unit :=
  if negb (rv_CanSet v) then
    panic "reflect: reflect.Value.Set using unaddressable value"
  else if rv_ro x then
    panic "reflect: reflect.Value.Set using value obtained using unexported field"
  else if negb (directlyAssignable (rv_type v) (rv_type x)) then
    panic "reflect.Set: value is not assignable to type"
  else
    let* xv := rv_read x in
    match rv_loc v with
    | InStore p =>
        fun s => match store s p xv with
                 | Some s' => Ok (tt, s')
                 | None => Panic "reflect: dangling cursor"
                 end
    | _ => ret tt
    end.

(** [v.Interface()]: the dynamic type and the value. *)
Definition rv_Interface (v : reflect_Value) : M (type * value) :=
  let* x := rv_read v in ret (rv_type v, x).

(** [v.Len()] for a slice or a map. *)
Definition rv_Len (v : reflect_Value) : M nat :=
  let* x := rv_read v in
  match x with
  | VSlice None | VMap None => ret 0%nat
  | VSlice (Some l) => ret (length l)
  | VMap (Some m) => ret (length m)
  | VString s => ret (String.length s)
  | VArray l => ret (length l)
  | _ => panic "reflect: call of reflect.Value.Len on a value without length"
  end.

Definition rv_Bool (v : reflect_Value) : M bool :=
  let* x := rv_read v in
  match x with VBool b => ret b | _ => panic "reflect: call of reflect.Value.Bool" end.
Definition rv_Int (v : reflect_Value) : M Z :=
  let* x := rv_read v in
  match x with VInt n => ret n | _ => panic "reflect: call of reflect.Value.Int" end.
Definition rv_Uint (v : reflect_Value) : M Z :=
  let* x := rv_read v in
  match x with VUint n => ret n | _ => panic "reflect: call of reflect.Value.Uint" end.
Definition rv_Float (v : reflect_Value) : M Z :=
  let* x := rv_read v in
  match x with VFloat f => ret f | _ => panic "reflect: call of reflect.Value.Float" end.
Definition rv_Complex (v : reflect_Value) : M (Z * Z) :=
  let* x := rv_read v in
  match x with
  | VComplex re im => ret (re, im)
  | _ => panic "reflect: call of reflect.Value.Complex"
  end.
(** [v.String()] of a string kind value. *)
Definition rv_String (v : reflect_Value) : M string :=
  let* x := rv_read v in
  match x with VString s => ret s | _ => panic "reflect: String of a non-string Value" end.

Definition reflect_New (t : type) : reflect_Value :=
  mkRV (TPointer t) (Temp (VPtr (Some (zero t)))) false false.
Definition reflect_Zero (t : type) : reflect_Value :=
  mkRV t (Temp (zero t)) false false.
Definition reflect_MakeMap (t : type) : reflect_Value :=
  mkRV t (Temp (VMap (Some []))) false false.
(** [reflect.MakeSlice(t, 0, 0)] *)
Definition reflect_MakeSlice (t : type) : reflect_Value :=
  mkRV t (Temp (VSlice (Some []))) false false.
(** [reflect.ValueOf(x)] of a value that was just computed. *)
Definition reflect_ValueOf_temp (t : type) (x : value) : reflect_Value :=
  mkRV t (Temp x) false false.

(** [v.Addr()]: the package takes the address of temporaries only (the
    decoder path of [Set] is written out in [Value_Set]). *)
Definition rv_Addr (v : reflect_Value) : M reflect_Value :=
  if negb (rv_CanAddr v) then
    panic "reflect.Value.Addr of unaddressable value"
  else
    match rv_loc v with
    | Temp x => ret (mkRV (TPointer (rv_type v)) (Temp (VPtr (Some x))) false (rv_ro v))
    | _ => panic "address of a place of the bound structure"
    end.

(** [reflect.Append(s, x)]: a new slice value; the old elements and [x],
    which is stored with [Set] and has to be assignable to the element
    type. *)
Definition reflect_Append (s x : reflect_Value) : M reflect_Value :=
  match rv_type s with
  | TySlice _ e =>
      if negb (directlyAssignable e (rv_type x)) then
        panic "reflect.Set: value is not assignable to type"
      else
        let* sv := rv_read s in
        let* xv := rv_read x in
        match sv with
        | VSlice o => ret (mkRV (rv_type s) (Temp (VSlice (Some (default [] o ++ [xv])))) false false)
        | _ => panic "reflect.Append: not a slice"
        end
  | _ => panic "reflect.Append: not a slice"
  end.

(** ** Package strconv: integers and booleans *)

Definition byte_of (c : ascii) : Z := Z.of_N (N_of_ascii c).
Definition ascii_of (b : Z) : ascii := ascii_of_N (Z.to_N b).

(** [lower(c)] is [c | ('x' - 'X')]. *)
Definition lower (c : Z) : Z := Z.lor c 32.

(** [strconv.IntSize] on a 64-bit platform. *)
Definition IntSize : Z := 64.
Definition maxUint64 : Z := 2 ^ 64 - 1.

(** Conversions between integer types wrap around. *)
Definition wrap_unsigned (w x : Z) : Z := x mod 2 ^ w.
Definition wrap_signed (w x : Z) : Z :=
  let r := x mod 2 ^ w in
  if r <? 2 ^ (w - 1) then r else r - 2 ^ w.

(** [underscoreOK]: the loop; [saw] is the class of the last byte seen,
    one of [^], [0], [_] and [!]. *)
Fixpoint underscoreOK_loop (s : string) (hex : bool) (saw : Z) : bool :=
  match s with
  | EmptyString => negb (saw =? 95)
  | String ch rest =>
      let c := byte_of ch in
      if ((48 <=? c) && (c <=? 57))
         || (hex && (97 <=? lower c) && (lower c <=? 102))
      then underscoreOK_loop rest hex 48
      else if c =? 95 then
        if negb (saw =? 48) then false else underscoreOK_loop rest hex 95
      else if saw =? 95 then false
      else underscoreOK_loop rest hex 33
  end.

Definition underscoreOK (s : string) : bool :=
  let s :=
    match s with
    | String c rest =>
        if (byte_of c =? 45) || (byte_of c =? 43) then rest else s
    | EmptyString => s
    end in
  match s with
  | String c0 (String c1 rest) =>
      let l := lower (byte_of c1) in
      if (byte_of c0 =? 48) && ((l =? 98) || (l =? 111) || (l =? 120))
      then underscoreOK_loop rest (l =? 120) 48
      else underscoreOK_loop s false 94
  | _ => underscoreOK_loop s false 94
  end.

(** The digit loop of [ParseUint]: [inl] is an early return, [inr] the
    accumulator and the [underscores] flag at the end of the text. *)
Fixpoint ParseUint_loop (s : string) (base0 : bool) (base cutoff maxVal n : Z)
    (underscores : bool) : (Z * error) + (Z * bool) :=
  match s with
  | EmptyString => inr (n, underscores)
  | String ch rest =>
      let c := byte_of ch in
      if (c =? 95) && base0 then
        ParseUint_loop rest base0 base cutoff maxVal n true
      else
        let d :=
          if (48 <=? c) && (c <=? 57) then Some (c - 48)
          else if (97 <=? lower c) && (lower c <=? 122) then Some (lower c - 97 + 10)
          else None in
        match d with
        | None => inl (0, ErrSyntax)
        | Some d =>
            if d >=? base then inl (0, ErrSyntax)
            else if n >=? cutoff then inl (maxVal, ErrRange)
            else
              let n' := wrap_unsigned 64 (n * base) in
              let n1 := wrap_unsigned 64 (n' + d) in
              if (n1 <? n') || (n1 >? maxVal) then inl (maxVal, ErrRange)
              else ParseUint_loop rest base0 base cutoff maxVal n1 underscores
        end
  end.

(** The base and the digits for [base == 0]: a prefix [0b], [0o] or [0x]
    before at least one more byte, else a leading [0] for octal. *)
Definition base_prefix (s : string) : Z * string :=
  match s with
  | String c0 rest =>
      if byte_of c0 =? 48 then
        match rest with
        | String c1 (String c2 rest2) =>
            let l := lower (byte_of c1) in
            if l =? 98 then (2, String c2 rest2)
            else if l =? 111 then (8, String c2 rest2)
            else if l =? 120 then (16, String c2 rest2)
            else (8, rest)
        | _ => (8, rest)
        end
      else (10, s)
  | EmptyString => (10, s)
  end.

Definition ParseUint (s : string) (base bitSize : Z) : Z * error :=
  match s with
  | EmptyString => (0, ErrSyntax)
  | _ =>
      let base0 := base =? 0 in
      let bs :=
        if (2 <=? base) && (base <=? 36) then Some (base, s)
        else if base =? 0 then Some (base_prefix s)
        else None in
      match bs with
      | None => (0, ErrOther "invalid base")
      | Some (base, digits) =>
          if (bitSize <? 0) || (bitSize >? 64) then (0, ErrOther "invalid bit size")
          else
            let bitSize := if bitSize =? 0 then IntSize else bitSize in
            let cutoff := maxUint64 / base + 1 in
            let maxVal := wrap_unsigned 64 (wrap_unsigned 64 (2 ^ bitSize) - 1) in
            match ParseUint_loop digits base0 base cutoff maxVal 0 false with
            | inl r => r
            | inr (n, underscores) =>
                if underscores && negb (underscoreOK s) then (0, ErrSyntax)
                else (n, ErrNil)
            end
      end
  end.

Definition ParseInt (s : string) (base bitSize : Z) : Z * error :=
  match s with
  | EmptyString => (0, ErrSyntax)
  | String c0 rest =>
      let neg := byte_of c0 =? 45 in
      let s1 := if (byte_of c0 =? 43) || (byte_of c0 =? 45) then rest else s in
      let (un, err) := ParseUint s1 base bitSize in
      match err with
      | ErrSyntax | ErrOther _ => (0, err)
      | ErrNil | ErrRange =>
          let bitSize := if bitSize =? 0 then IntSize else bitSize in
          let cutoff := 2 ^ (bitSize - 1) in
          if negb neg && (un >=? cutoff) then (cutoff - 1, ErrRange)
          else if neg && (un >? cutoff) then (- cutoff, ErrRange)
          else
            let n := wrap_signed 64 un in
            (if neg then wrap_signed 64 (- n) else n, ErrNil)
      end
  end.

(** The decimal digits of [u], written from the last one into a buffer of
    65 bytes; at most 20 are needed for a 64-bit [u]. *)
Fixpoint formatBits_loop (room : nat) (u : Z) (acc : string) : string :=
  match room with
  | O => acc
  | S room' =>
      if u >=? 10 then
        let q := u / 10 in
        formatBits_loop room' q (String (ascii_of (48 + (u - q * 10))) acc)
      else String (ascii_of (48 + u)) acc
  end.

(** [strconv.FormatUint(u, 10)] *)
Definition FormatUint10 (u : Z) : string := formatBits_loop 65 u "".

(** [strconv.FormatInt(i, 10)]: the digits of the magnitude, as a uint64,
    after the sign. *)
Definition FormatInt10 (i : Z) : string :=
  if i <? 0 then String "-" (formatBits_loop 65 (wrap_unsigned 64 (- wrap_unsigned 64 i)) "")
  else formatBits_loop 65 (wrap_unsigned 64 i) "".

Definition ParseBool (str : string) : bool * error :=
  if existsb (String.eqb str) ["1"; "t"; "T"; "TRUE"; "true"; "True"] then (true, ErrNil)
  else if existsb (String.eqb str) ["0"; "f"; "F"; "FALSE"; "false"; "False"]
  then (false, ErrNil)
  else (false, ErrSyntax).

Definition FormatBool (b : bool) : string := if b then "true" else "false".

(** ** parse.go *)

Definition parseInt (s : string) : Z * error :=
  let (v, err) := ParseInt s 0 0 in (wrap_signed IntSize v, err).
Definition parseInt8 (s : string) : Z * error :=
  let (v, err) := ParseInt s 0 8 in (wrap_signed 8 v, err).
Definition parseInt16 (s : string) : Z * error :=
  let (v, err) := ParseInt s 0 16 in (wrap_signed 16 v, err).
Definition parseInt32 (s : string) : Z * error :=
  let (v, err) := ParseInt s 0 32 in (wrap_signed 32 v, err).
Definition parseInt64 (s : string) : Z * error := ParseInt s 0 64.
Definition parseUint (s : string) : Z * error :=
  let (v, err) := ParseUint s 0 0 in (wrap_unsigned IntSize v, err).
Definition parseUint8 (s : string) : Z * error :=
  let (v, err) := ParseUint s 0 8 in (wrap_unsigned 8 v, err).
Definition parseUint16 (s : string) : Z * error :=
  let (v, err) := ParseUint s 0 16 in (wrap_unsigned 16 v, err).
Definition parseUint32 (s : string) : Z * error :=
  let (v, err) := ParseUint s 0 32 in (wrap_unsigned 32 v, err).
Definition parseUint64 (s : string) : Z * error := ParseUint s 0 64.

(** ** Well-typed values *)


(** The values of a basic kind, up to the range of a number (the range
    is [representable] below). *)
Definition basic_has_type (b : BasicKind) (x : value) : bool :=
  match b, x with
  | BBool, VBool _ => true
  | BInt, VInt _ | BInt8, VInt _ | BInt16, VInt _ | BInt32, VInt _
  | BInt64, VInt _ => true
  | BUint, VUint _ | BUint8, VUint _ | BUint16, VUint _ | BUint32, VUint _
  | BUint64, VUint _ | BUintptr, VUint _ => true
  | BFloat32, VFloat _ | BFloat64, VFloat _ => true
  | BComplex64, VComplex _ _ | BComplex128, VComplex _ _ => true
  | BString, VString _ => true
  | BChan, VNil | BFunc, VNil | BInterface, VNil | BUnsafePointer, VNil => true
  | _, _ => false
  end.

(** [has_type t x]: [x] has the shape of a value of the Go type [t]. *)
Fixpoint has_type (t : type) (x : value) {struct t} : bool :=
  match t, x with
  | TyBasic _ b, _ => basic_has_type b x
  | TyPointer _ _, VPtr None => true
  | TyPointer _ e, VPtr (Some w) => has_type e w
  | TySlice _ _, VSlice None => true
  | TySlice _ e, VSlice (Some l) => forallb (has_type e) l
  | TyArray _ n e, VArray l => Nat.eqb (length l) n && forallb (has_type e) l
  | TyMap _ _ _, VMap None => true
  | TyMap _ k e, VMap (Some m) =>
      forallb (fun kv => has_type k (fst kv) && has_type e (snd kv)) m
  | TyStruct _ fs, VStruct vs =>
      (fix go (fs : list StructField) (vs : list value) : bool :=
         match fs, vs with
         | [], [] => true
         | f :: fs', v :: vs' => has_type (Type_ f) v && go fs' vs'
         | _, _ => false
         end) fs vs
  | _, _ => false
  end.


(** ** The rest of the Go standard library *)

(** What the package takes from [encoding/json], [encoding/base64] and
    the floating point half of [strconv].  A float is a float64 given by
    its bits; [ParseFloat] at bit size 32 returns a float64 that converts
    to float32 without changing its value, so the conversions of
    parse.go do not change the result. *)
Class GoLib : Type := {
  (** [json.Marshal(x)] for [x] of the given dynamic type *)
  json_Marshal : type -> value -> string * error;
  (** [json.Unmarshal(data, p)] for [p] a non-nil pointer to a value of the
      given type: the value afterwards, and the error *)
  json_Unmarshal : string -> type -> value -> value * error;
  (** [strconv.ParseFloat(s, bitSize)] *)
  strconv_ParseFloat : string -> Z -> Z * error;
  (** [strconv.FormatFloat(f, 'g', -1, bitSize)] *)
  strconv_FormatFloat : Z -> Z -> string;
  (** [strconv.ParseComplex(s, bitSize)] *)
  strconv_ParseComplex : string -> Z -> (Z * Z) * error;
  (** [strconv.FormatComplex(c, 'g', -1, bitSize)] *)
  strconv_FormatComplex : Z * Z -> Z -> string;
  (** [base64.StdEncoding.EncodeToString] *)
  base64_EncodeToString : list Z -> string;
  (** [base64.StdEncoding.DecodeString] *)
  base64_DecodeString : string -> list Z * error;
  (** Go is typed: what [Unmarshal] leaves behind the pointer is a value
      of the type pointed to. *)
  json_Unmarshal_typed :
    forall (data : string) (t : type) (v : value),
      has_type t v = true -> has_type t (fst (json_Unmarshal data t v)) = true
}.

(** ** Cursor helpers of the package *)

Definition type_Elem_M (t : type) : M type :=
  match type_Elem t with
  | Some e => ret e
  | None => panic "reflect: Elem of invalid type"
  end.

Definition elemIfPtr (v : reflect_Value) : M reflect_Value :=
  if negb (Kind_eqb (rv_Kind v) KPointer) then ret v
  else
    let* n := rv_IsNil v in
    if n then let* e := type_Elem_M (rv_Type v) in ret (reflect_Zero e)
    else rv_Elem v.

(** [addressable]: a value that cannot be addressed is copied into a new
    variable ([ptr := reflect.New(v.Type()); ptr.Elem().Set(v)]) and the
    cursor on that variable is returned. *)
Definition addressable (v : reflect_Value) : M reflect_Value :=
  if negb (rv_CanAddr v) then
    if rv_ro v then
      panic "reflect: reflect.Value.Set using value obtained using unexported field"
    else
      let* x := rv_read v in ret (mkRV (rv_type v) (Temp x) true false)
  else ret v.

Definition reflectValueSet (dst src : reflect_Value) : M unit :=
  let* dst :=
    (if Kind_eqb (rv_Kind dst) KPointer && negb (rv_CanSet dst)
     then rv_Elem dst else ret dst) in
  let* src :=
    (if Kind_eqb (rv_Kind dst) KPointer && negb (Kind_eqb (rv_Kind src) KPointer)
     then let* a := addressable src in rv_Addr a
     else if negb (Kind_eqb (rv_Kind dst) KPointer) && Kind_eqb (rv_Kind src) KPointer
     then rv_Elem src
     else ret src) in
  rv_Set dst src.

Definition reflectValueAppend (slc v : reflect_Value) : M reflect_Value :=
  let* et := type_Elem_M (elemIfPtrType (rv_Type slc)) in
  let* v :=
    (if Kind_eqb (type_Kind et) KPointer && negb (Kind_eqb (rv_Kind v) KPointer)
     then let* a := addressable v in rv_Addr a
     else if negb (Kind_eqb (type_Kind et) KPointer) && Kind_eqb (rv_Kind v) KPointer
     then rv_Elem v
     else ret v) in
  let* s := elemIfPtr slc in
  let* r := reflect_Append s v in
  addressable r.

(** [if v.Kind() == reflect.Pointer && v.IsNil() { v.Set(reflect.New(v.Type().Elem())) }] *)
Definition allocIfNil (v : reflect_Value) : M unit :=
  if Kind_eqb (rv_Kind v) KPointer then
    let* n := rv_IsNil v in
    if n then let* e := type_Elem_M (rv_Type v) in rv_Set v (reflect_New e)
    else ret tt
  else ret tt.

(** The loop of [fieldByIndex] over the indexes. *)
Fixpoint fieldByIndex_loop (v : reflect_Value) (index : list nat) : M reflect_Value :=
  match index with
  | [] => ret v
  | x :: rest =>
      let* v :=
        (if Kind_eqb (rv_Kind v) KPointer
         then let* _ := allocIfNil v in rv_Elem v
         else ret v) in
      let* v := rv_Field v x in
      fieldByIndex_loop v rest
  end.

Definition fieldByIndex (v : reflect_Value) (index : list nat) : M reflect_Value :=
  match index with
  | [] => let* _ := allocIfNil v in ret v
  | _ =>
      if (negb (Kind_eqb (rv_Kind v) KPointer)
          || negb (Kind_eqb (type_Kind (elemIfPtrType (rv_Type v))) KStruct))
         && negb (Kind_eqb (rv_Kind v) KStruct)
      then panic "jsonflag: expected a struct or a pointer to struct"
      else
        let* v := fieldByIndex_loop v index in
        let* _ := allocIfNil v in
        ret v
  end.

(** [val.get()] *)
Definition Value_get (val : Value) : M reflect_Value :=
  fieldByIndex (base val) (fieldsIndexes val).

(** ** Codecs *)

Definition quote : string := String (ascii_of_nat 34) EmptyString.

(** A float64 compares equal to zero when it is plus or minus zero. *)
Definition float_is_zero (bits : Z) : bool := bits mod 2 ^ 63 =? 0.

(** [x.([]byte)] and back. *)
Definition bytes_of_value (x : value) : option (list Z) :=
  match x with
  | VSlice o =>
      foldr (fun e acc =>
               match e, acc with
               | VUint n, Some l => Some (n :: l)
               | _, _ => None
               end) (Some []) (default [] o)
  | _ => None
  end.
Definition value_of_bytes (l : list Z) : value := VSlice (Some (List.map VUint l)).

(** [strings.Join(li, ",")] *)
Fixpoint Join (li : list string) (sep : string) : string :=
  match li with
  | [] => ""
  | [s] => s
  | s :: rest => String.append s (String.append sep (Join rest sep))
  end.

(** The scalar [...ValueSet] functions share one body: parse, return the
    error if there is one, else install the value at [val.get()]. *)
Definition set_parsed (val : Value) (t : type) (r : value * error) : M error :=
  let (v, err) := r in
  if negb (is_nil_error err) then ret err
  else
    let* x := Value_get val in
    let* _ := reflectValueSet x (reflect_ValueOf_temp t v) in
    ret ErrNil.

(** The [...SliceValueSet] functions of scalar elements share one body:
    parse one element, return the error if there is one, else install at
    [x := val.get()] the slice [reflectValueAppend(elemIfPtr(x), v)]. *)
Definition append_value (val : Value) (v : reflect_Value) : M error :=
  let* x := Value_get val in
  let* e := elemIfPtr x in
  let* a := reflectValueAppend e v in
  let* _ := reflectValueSet x a in
  ret ErrNil.

Definition append_parsed (val : Value) (t : type) (r : value * error) : M error :=
  let (v, err) := r in
  if negb (is_nil_error err) then ret err
  else append_value val (reflect_ValueOf_temp t v).

Section Codecs.
Context {lib : GoLib}.

Definition parseFloat32 (s : string) : Z * error := strconv_ParseFloat s 32.
Definition parseFloat64 (s : string) : Z * error := strconv_ParseFloat s 64.
Definition parseComplex64 (s : string) : (Z * Z) * error := strconv_ParseComplex s 64.
Definition parseComplex128 (s : string) : (Z * Z) * error := strconv_ParseComplex s 128.

Definition VInt_of (r : Z * error) : value * error := (VInt (fst r), snd r).
Definition VUint_of (r : Z * error) : value * error := (VUint (fst r), snd r).
Definition VFloat_of (r : Z * error) : value * error := (VFloat (fst r), snd r).
Definition VComplex_of (r : (Z * Z) * error) : value * error :=
  (VComplex (fst (fst r)) (snd (fst r)), snd r).
Definition VBool_of (r : bool * error) : value * error := (VBool (fst r), snd r).
Definition VBytes_of (r : list Z * error) : value * error :=
  (value_of_bytes (fst r), snd r).

Definition boolValueString (val : Value) : M string :=
  let* x := Value_get val in
  let* e := elemIfPtr x in
  let* v := rv_Bool e in
  if negb v then ret "" else ret (FormatBool v).

Definition intValueString (val : Value) : M string :=
  let* x := Value_get val in
  let* e := elemIfPtr x in
  let* v := rv_Int e in
  if v =? 0 then ret "" else ret (FormatInt10 v).

Definition uintValueString (val : Value) : M string :=
  let* x := Value_get val in
  let* e := elemIfPtr x in
  let* v := rv_Uint e in
  if v =? 0 then ret "" else ret (FormatUint10 v).

Definition floatValueString (bitSize : Z) (val : Value) : M string :=
  let* x := Value_get val in
  let* e := elemIfPtr x in
  let* v := rv_Float e in
  if float_is_zero v then ret "" else ret (strconv_FormatFloat v bitSize).
Definition float32ValueString := floatValueString 32.
Definition float64ValueString := floatValueString 64.

Definition complexValueString (bitSize : Z) (val : Value) : M string :=
  let* x := Value_get val in
  let* e := elemIfPtr x in
  let* v := rv_Complex e in
  if float_is_zero (fst v) && float_is_zero (snd v) then ret ""
  else ret (strconv_FormatComplex v bitSize).
Definition complex64ValueString := complexValueString 64.
Definition complex128ValueString := complexValueString 128.

Definition stringValueString (val : Value) : M string :=
  let* x := Value_get val in
  let* e := elemIfPtr x in
  rv_String e.

(** [elemIfPtr(val.get()).Interface().([]byte)]: the type assertion
    holds for the dynamic type [[]uint8] only, and panics on a defined
    type whose underlying type is a slice of bytes. *)
Definition bytesValueString (val : Value) : M string :=
  let* x := Value_get val in
  let* e := elemIfPtr x in
  let* i := rv_Interface e in
  if negb (type_eqb (fst i) (TSlice (TBasic BUint8))) then
    panic "interface conversion: interface {} is not []uint8"
  else
    match bytes_of_value (snd i) with
    | None => panic "interface conversion: interface {} is not []uint8"
    | Some v =>
        if Nat.eqb (length v) 0 then ret "" else ret (base64_EncodeToString v)
    end.

Definition mapValueString (val : Value) : M string :=
  let* x := Value_get val in
  let* v := elemIfPtr x in
  let* n := rv_Len v in
  if Nat.eqb n 0 then ret ""
  else
    let* i := rv_Interface v in
    let (b, err) := json_Marshal (fst i) (snd i) in
    if negb (is_nil_error err) then ret "" else ret b.

Definition structValueString (val : Value) : M string :=
  let* x := Value_get val in
  let* i := rv_Interface x in
  let (b, err) := json_Marshal (fst i) (snd i) in
  if negb (is_nil_error err) then ret ""
  else
    let str := b in
    if String.eqb str "{}" || String.eqb str "[]"
       || String.eqb str (String.append quote quote)
       || String.eqb str "0" || String.eqb str "false"
    then ret ""
    else ret str.

Definition sliceValueString (val : Value) : M string :=
  let* x := Value_get val in
  let* v := elemIfPtr x in
  let* n := rv_Len v in
  if Nat.eqb n 0 then ret ""
  else
    let* i := rv_Interface v in
    let (b, err) := json_Marshal (fst i) (snd i) in
    if negb (is_nil_error err) then ret "" else ret b.

(** The loop [for _, x := range v.Seq2()] of the complex list renderers. *)
Fixpoint complex_items (bitSize : Z) (et : type) (l : list value) : M (list string) :=
  match l with
  | [] => ret []
  | xv :: rest =>
      let* e := elemIfPtr (mkRV et (Temp xv) false false) in
      let* c := rv_Complex e in
      let* li := complex_items bitSize et rest in
      ret (String.append quote (String.append (strconv_FormatComplex c bitSize) quote) :: li)
  end.

Definition complexSliceValueString (bitSize : Z) (val : Value) : M string :=
  let* x := Value_get val in
  let* v := elemIfPtr x in
  let* n := rv_Len v in
  if Nat.eqb n 0 then ret ""
  else
    let* et := type_Elem_M (rv_Type v) in
    let* sv := rv_read v in
    match sv with
    | VSlice o =>
        let* li := complex_items bitSize et (default [] o) in
        ret (String.append "[" (String.append (Join li ",") "]"))
    | _ => panic "reflect: Seq2 of a non-slice Value"
    end.
Definition complex64SliceValueString := complexSliceValueString 64.
Definition complex128SliceValueString := complexSliceValueString 128.

Definition boolValueSet (val : Value) (to : string) : M error :=
  set_parsed val (TBasic BBool) (VBool_of (ParseBool to)).
Definition intValueSet (val : Value) (to : string) : M error :=
  set_parsed val (TBasic BInt) (VInt_of (parseInt to)).
Definition int8ValueSet (val : Value) (to : string) : M error :=
  set_parsed val (TBasic BInt8) (VInt_of (parseInt8 to)).
Definition int16ValueSet (val : Value) (to : string) : M error :=
  set_parsed val (TBasic BInt16) (VInt_of (parseInt16 to)).
Definition int32ValueSet (val : Value) (to : string) : M error :=
  set_parsed val (TBasic BInt32) (VInt_of (parseInt32 to)).
Definition int64ValueSet (val : Value) (to : string) : M error :=
  set_parsed val (TBasic BInt64) (VInt_of (parseInt64 to)).
Definition uintValueSet (val : Value) (to : string) : M error :=
  set_parsed val (TBasic BUint) (VUint_of (parseUint to)).
Definition uint8ValueSet (val : Value) (to : string) : M error :=
  set_parsed val (TBasic BUint8) (VUint_of (parseUint8 to)).
Definition uint16ValueSet (val : Value) (to : string) : M error :=
  set_parsed val (TBasic BUint16) (VUint_of (parseUint16 to)).
Definition uint32ValueSet (val : Value) (to : string) : M error :=
  set_parsed val (TBasic BUint32) (VUint_of (parseUint32 to)).
Definition uint64ValueSet (val : Value) (to : string) : M error :=
  set_parsed val (TBasic BUint64) (VUint_of (parseUint64 to)).
Definition float32ValueSet (val : Value) (to : string) : M error :=
  set_parsed val (TBasic BFloat32) (VFloat_of (parseFloat32 to)).
Definition float64ValueSet (val : Value) (to : string) : M error :=
  set_parsed val (TBasic BFloat64) (VFloat_of (parseFloat64 to)).
Definition complex64ValueSet (val : Value) (to : string) : M error :=
  set_parsed val (TBasic BComplex64) (VComplex_of (parseComplex64 to)).
Definition complex128ValueSet (val : Value) (to : string) : M error :=
  set_parsed val (TBasic BComplex128) (VComplex_of (parseComplex128 to)).
(** [stringValueSet] parses nothing and has no error. *)
Definition stringValueSet (val : Value) (to : string) : M error :=
  set_parsed val (TBasic BString) (VString to, ErrNil).
Definition bytesValueSet (val : Value) (to : string) : M error :=
  set_parsed val (TSlice (TBasic BUint8)) (VBytes_of (base64_DecodeString to)).

(** [json.Unmarshal([]byte(to), v.Interface())] for [v] a pointer to a
    fresh temporary: the cursor on the temporary after decoding. *)
Definition unmarshal_temp (to : string) (v : reflect_Value) : M (reflect_Value * error) :=
  match rv_type v, rv_loc v with
  | TyPointer _ t, Temp (VPtr (Some w)) =>
      let (w', err) := json_Unmarshal to t w in
      ret (mkRV (rv_type v) (Temp (VPtr (Some w'))) (rv_addr v) (rv_ro v), err)
  | _, _ => panic "json: Unmarshal(non-pointer or nil)"
  end.

Definition mapValueSet (val : Value) (to : string) : M error :=
  let t := elemIfPtrType (Value_typ val) in
  let* a := addressable (reflect_MakeMap t) in
  let* v := rv_Addr a in
  let* r := unmarshal_temp to v in
  if negb (is_nil_error (snd r)) then ret (snd r)
  else
    let* x := Value_get val in
    let* _ := reflectValueSet x (fst r) in
    ret ErrNil.

Definition structValueSet (val : Value) (to : string) : M error :=
  let t := elemIfPtrType (Value_typ val) in
  let v := reflect_New t in
  let* r := unmarshal_temp to v in
  if negb (is_nil_error (snd r)) then ret (snd r)
  else
    let* x := Value_get val in
    let* _ := reflectValueSet x (fst r) in
    ret ErrNil.

Definition boolSliceValueSet (val : Value) (to : string) : M error :=
  append_parsed val (TBasic BBool) (VBool_of (ParseBool to)).
Definition intSliceValueSet (val : Value) (to : string) : M error :=
  append_parsed val (TBasic BInt) (VInt_of (parseInt to)).
Definition int8SliceValueSet (val : Value) (to : string) : M error :=
  append_parsed val (TBasic BInt8) (VInt_of (parseInt8 to)).
Definition int16SliceValueSet (val : Value) (to : string) : M error :=
  append_parsed val (TBasic BInt16) (VInt_of (parseInt16 to)).
Definition int32SliceValueSet (val : Value) (to : string) : M error :=
  append_parsed val (TBasic BInt32) (VInt_of (parseInt32 to)).
Definition int64SliceValueSet (val : Value) (to : string) : M error :=
  append_parsed val (TBasic BInt64) (VInt_of (parseInt64 to)).
Definition uintSliceValueSet (val : Value) (to : string) : M error :=
  append_parsed val (TBasic BUint) (VUint_of (parseUint to)).
Definition uint8SliceValueSet (val : Value) (to : string) : M error :=
  append_parsed val (TBasic BUint8) (VUint_of (parseUint8 to)).
Definition uint16SliceValueSet (val : Value) (to : string) : M error :=
  append_parsed val (TBasic BUint16) (VUint_of (parseUint16 to)).
Definition uint32SliceValueSet (val : Value) (to : string) : M error :=
  append_parsed val (TBasic BUint32) (VUint_of (parseUint32 to)).
Definition uint64SliceValueSet (val : Value) (to : string) : M error :=
  append_parsed val (TBasic BUint64) (VUint_of (parseUint64 to)).
Definition float32SliceValueSet (val : Value) (to : string) : M error :=
  append_parsed val (TBasic BFloat32) (VFloat_of (parseFloat32 to)).
Definition float64SliceValueSet (val : Value) (to : string) : M error :=
  append_parsed val (TBasic BFloat64) (VFloat_of (parseFloat64 to)).
Definition complex64SliceValueSet (val : Value) (to : string) : M error :=
  append_parsed val (TBasic BComplex64) (VComplex_of (parseComplex64 to)).
Definition complex128SliceValueSet (val : Value) (to : string) : M error :=
  append_parsed val (TBasic BComplex128) (VComplex_of (parseComplex128 to)).
Definition stringSliceValueSet (val : Value) (to : string) : M error :=
  append_parsed val (TBasic BString) (VString to, ErrNil).
Definition bytesSliceValueSet (val : Value) (to : string) : M error :=
  append_parsed val (TSlice (TBasic BUint8)) (VBytes_of (base64_DecodeString to)).

(** The element type of the list of the node:
    [elemIfPtrType(elemIfPtrType(val.typ()).Elem())] *)
Definition slice_element_type (val : Value) : M type :=
  let sliceType := elemIfPtrType (Value_typ val) in
  let* e := type_Elem_M sliceType in
  ret (elemIfPtrType e).

Definition sliceSliceValueSet (val : Value) (to : string) : M error :=
  let* t := slice_element_type val in
  let* a := addressable (reflect_MakeSlice t) in
  let* v := rv_Addr a in
  let* r := unmarshal_temp to v in
  if negb (is_nil_error (snd r)) then ret (snd r)
  else append_value val (fst r).

Definition mapSliceValueSet (val : Value) (to : string) : M error :=
  let* t := slice_element_type val in
  let* a := addressable (reflect_MakeMap t) in
  let* v := rv_Addr a in
  let* r := unmarshal_temp to v in
  if negb (is_nil_error (snd r)) then ret (snd r)
  else append_value val (fst r).

Definition structSliceValueSet (val : Value) (to : string) : M error :=
  let* t := slice_element_type val in
  let v := reflect_New t in
  let* r := unmarshal_temp to v in
  if negb (is_nil_error (snd r)) then ret (snd r)
  else append_value val (fst r).

(** The calls [val.stringFn(val)] and [val.setFn(val, to)]. *)
Definition call_stringFn (f : StringFn) : Value -> M string :=
  match f with
  | fn_boolValueString => boolValueString
  | fn_intValueString => intValueString
  | fn_uintValueString => uintValueString
  | fn_float32ValueString => float32ValueString
  | fn_float64ValueString => float64ValueString
  | fn_complex64ValueString => complex64ValueString
  | fn_complex128ValueString => complex128ValueString
  | fn_stringValueString => stringValueString
  | fn_bytesValueString => bytesValueString
  | fn_mapValueString => mapValueString
  | fn_structValueString => structValueString
  | fn_sliceValueString => sliceValueString
  | fn_complex64SliceValueString => complex64SliceValueString
  | fn_complex128SliceValueString => complex128SliceValueString
  end.

Definition call_setFn (f : SetFn) : Value -> string -> M error :=
  match f with
  | fn_boolValueSet => boolValueSet
  | fn_intValueSet => intValueSet
  | fn_int8ValueSet => int8ValueSet
  | fn_int16ValueSet => int16ValueSet
  | fn_int32ValueSet => int32ValueSet
  | fn_int64ValueSet => int64ValueSet
  | fn_uintValueSet => uintValueSet
  | fn_uint8ValueSet => uint8ValueSet
  | fn_uint16ValueSet => uint16ValueSet
  | fn_uint32ValueSet => uint32ValueSet
  | fn_uint64ValueSet => uint64ValueSet
  | fn_float32ValueSet => float32ValueSet
  | fn_float64ValueSet => float64ValueSet
  | fn_complex64ValueSet => complex64ValueSet
  | fn_complex128ValueSet => complex128ValueSet
  | fn_stringValueSet => stringValueSet
  | fn_bytesValueSet => bytesValueSet
  | fn_mapValueSet => mapValueSet
  | fn_structValueSet => structValueSet
  | fn_boolSliceValueSet => boolSliceValueSet
  | fn_intSliceValueSet => intSliceValueSet
  | fn_int8SliceValueSet => int8SliceValueSet
  | fn_int16SliceValueSet => int16SliceValueSet
  | fn_int32SliceValueSet => int32SliceValueSet
  | fn_int64SliceValueSet => int64SliceValueSet
  | fn_uintSliceValueSet => uintSliceValueSet
  | fn_uint8SliceValueSet => uint8SliceValueSet
  | fn_uint16SliceValueSet => uint16SliceValueSet
  | fn_uint32SliceValueSet => uint32SliceValueSet
  | fn_uint64SliceValueSet => uint64SliceValueSet
  | fn_float32SliceValueSet => float32SliceValueSet
  | fn_float64SliceValueSet => float64SliceValueSet
  | fn_complex64SliceValueSet => complex64SliceValueSet
  | fn_complex128SliceValueSet => complex128SliceValueSet
  | fn_stringSliceValueSet => stringSliceValueSet
  | fn_bytesSliceValueSet => bytesSliceValueSet
  | fn_sliceSliceValueSet => sliceSliceValueSet
  | fn_mapSliceValueSet => mapSliceValueSet
  | fn_structSliceValueSet => structSliceValueSet
  end.

(** ** The methods of Value that touch the bound structure *)

Definition Value_Get (val : option Value) : M any :=
  match val with
  | None => ret None
  | Some v =>
      if negb (isInitialized val) then ret None
      else
        let* x := Value_get v in
        let* i := rv_Interface x in
        ret (Some i)
  end.

Definition Value_String (val : option Value) : M string :=
  match val with
  | None => ret ""
  | Some v =>
      if negb (isInitialized val) then ret ""
      else
        match encodeFn v with
        | Some enc =>
            let* x := Value_get v in
            let* i := rv_Interface x in
            let (b, err) := enc (fst i) (snd i) in
            if negb (is_nil_error err) then ret "" else ret b
        | None =>
            match stringFn v with
            | Some f => call_stringFn f v
            | None => panic "invalid memory address or nil pointer dereference"
            end
        end
  end.

(** [Set].  With a custom decoder the target is decoded in place: the
    decoder receives [elemIfPtr(val.get()).Addr()], a pointer to the
    place, and what it leaves there is written back. *)
Definition Value_Set (val : option Value) (to : string) : M error :=
  match val with
  | None => ret ErrNil
  | Some v =>
      if negb (isInitialized val) then ret ErrNil
      else
        match decodeFn v with
        | Some dec =>
            let* x := Value_get v in
            let* e := elemIfPtr x in
            if negb (rv_CanAddr e) then
              panic "reflect.Value.Addr of unaddressable value"
            else
              let* cur := rv_read e in
              let (new, err) := dec to (rv_type e) cur in
              match rv_loc e with
              | InStore p =>
                  fun s => match store s p new with
                           | Some s' => Ok (err, s')
                           | None => Panic "reflect: dangling cursor"
                           end
              | _ => ret err
              end
        | None =>
            match setFn v with
            | Some f => call_setFn f v to
            | None => panic "invalid memory address or nil pointer dereference"
            end
        end
  end.

Definition Value_SetEncoder (val : option Value)
    (fn : option (type -> value -> string * error)) : option Value :=
  match val with
  | None => None
  | Some v =>
      if negb (isInitialized val) then val
      else Some (mkValue (base v) (fieldsIndexes v) (fields v) (typeName v)
                         (stringFn v) fn (setFn v) (decodeFn v) (isBool v))
  end.

Definition Value_SetDecoder (val : option Value)
    (fn : option (string -> type -> value -> value * error)) : option Value :=
  match val with
  | None => None
  | Some v =>
      if negb (isInitialized val) then val
      else Some (mkValue (base v) (fieldsIndexes v) (fields v) (typeName v)
                         (stringFn v) (encodeFn v) (setFn v) fn (isBool v))
  end.

(** The element a list node decodes from one text, by the type of the
    elements behind at most one pointer: what the [...SliceValueSet]
    function of that kind parses. *)
Definition parse_scalar (b : BasicKind) (to : string) : option (value * error) :=
  match b with
  | BBool => Some (VBool_of (ParseBool to))
  | BInt => Some (VInt_of (parseInt to))
  | BInt8 => Some (VInt_of (parseInt8 to))
  | BInt16 => Some (VInt_of (parseInt16 to))
  | BInt32 => Some (VInt_of (parseInt32 to))
  | BInt64 => Some (VInt_of (parseInt64 to))
  | BUint => Some (VUint_of (parseUint to))
  | BUint8 => Some (VUint_of (parseUint8 to))
  | BUint16 => Some (VUint_of (parseUint16 to))
  | BUint32 => Some (VUint_of (parseUint32 to))
  | BUint64 => Some (VUint_of (parseUint64 to))
  | BFloat32 => Some (VFloat_of (parseFloat32 to))
  | BFloat64 => Some (VFloat_of (parseFloat64 to))
  | BComplex64 => Some (VComplex_of (parseComplex64 to))
  | BComplex128 => Some (VComplex_of (parseComplex128 to))
  | BString => Some (VString to, ErrNil)
  | _ => None
  end.

Definition parse_element (te : type) (to : string) : option (value * error) :=
  match te with
  | TyBasic _ b => parse_scalar b to
  | TySlice _ (TyBasic _ BUint8) => Some (VBytes_of (base64_DecodeString to))
  | _ => None
  end.

(** The type of the temporary a codec makes from the text it parses, by
    the type [te] of the node or of its elements behind at most one
    pointer: [reflect.ValueOf(v)] for [v] of the predeclared type of the
    kind, [[]byte] for a byte buffer. *)
Definition parsed_type (te : type) : type :=
  match te with
  | TyBasic _ b => TBasic b
  | TySlice _ (TyBasic _ BUint8) => TSlice (TBasic BUint8)
  | _ => te
  end.

(** The scalar kinds: the basic kinds [newValue] has a codec for. *)
Definition is_scalar (b : BasicKind) : bool :=
  match b with
  | BBool | BInt | BInt8 | BInt16 | BInt32 | BInt64
  | BUint | BUint8 | BUint16 | BUint32 | BUint64
  | BFloat32 | BFloat64 | BComplex64 | BComplex128 | BString => true
  | _ => false
  end.

(** The values the [...ValueString] functions render as the empty text:
    those that compare equal to the zero value of their kind. *)
Definition renders_empty (x : value) : bool :=
  match x with
  | VBool b => negb b
  | VInt n | VUint n => n =? 0
  | VFloat f => float_is_zero f
  | VComplex re im => float_is_zero re && float_is_zero im
  | VString s => String.eqb s ""
  | _ => false
  end.

(** The text the [...ValueString] function of a scalar kind returns for
    a value that is not rendered as the empty text. *)
Definition render_scalar (b : BasicKind) (x : value) : string :=
  match b, x with
  | BBool, VBool v => FormatBool v
  | BInt, VInt n | BInt8, VInt n | BInt16, VInt n | BInt32, VInt n
  | BInt64, VInt n => FormatInt10 n
  | BUint, VUint n | BUint8, VUint n | BUint16, VUint n | BUint32, VUint n
  | BUint64, VUint n => FormatUint10 n
  | BFloat32, VFloat f => strconv_FormatFloat f 32
  | BFloat64, VFloat f => strconv_FormatFloat f 64
  | BComplex64, VComplex re im => strconv_FormatComplex (re, im) 64
  | BComplex128, VComplex re im => strconv_FormatComplex (re, im) 128
  | BString, VString s => s
  | _, _ => ""
  end.

(** The scalar kinds whose parser and renderer are written out here:
    all but the floating point and complex kinds, whose texts are made
    and read by the library. *)
Definition is_exact (b : BasicKind) : bool :=
  match b with
  | BFloat32 | BFloat64 | BComplex64 | BComplex128 => false
  | _ => is_scalar b
  end.

(** The fresh temporary the JSON codecs decode into, and what a text
    decodes to there. *)
Definition fresh_temp (te : type) : value :=
  match te with
  | TyMap _ _ _ => VMap (Some [])
  | TySlice _ _ => VSlice (Some [])
  | _ => zero te
  end.
Definition decoded (to : string) (te : type) : value * error :=
  json_Unmarshal to te (fresh_temp te).

End Codecs.

(** ** Field paths and places *)

(** A path of exported fields from a position of type [t] to a position
    of type [t'], through records and pointers to records: the indexes
    and the field descriptors a handle carries. *)
Inductive field_path : type -> list nat -> list StructField -> type -> Prop :=
| field_path_nil (t : type) : field_path t [] [] t
| field_path_cons (t : type) (nm : tname) (tfs : list StructField) (i : nat)
    (f : StructField) (ix : list nat) (fs : list StructField) (t' : type) :
    elemIfPtrType t = TyStruct nm tfs ->
    tfs !! i = Some f ->
    IsExported f = true ->
    field_path (Type_ f) ix fs t' ->
    field_path t (i :: ix) (f :: fs) t'.

(** The type of field [i] of the record behind [t]. *)
Definition field_type (t : type) (i : nat) : option type :=
  match elemIfPtrType t with
  | TyStruct _ tfs => Type_ <$> tfs !! i
  | _ => None
  end.

(** The place [fieldByIndex] ends at, relative to a cursor of type [t]. *)
Fixpoint store_path (t : type) (ix : list nat) : list step :=
  match ix with
  | [] => []
  | i :: rest =>
      (match t with TyPointer _ _ => [Deref] | _ => [] end : list step)
      ++ FieldAt i :: match field_type t i with
                      | Some ft => store_path ft rest
                      | None => []
                      end
  end.

(** [alloc t x]: the value [x] of a position of type [t] once a nil
    pointer there is replaced by a pointer to a zero value. *)
Definition alloc (t : type) (x : value) : value :=
  match t, x with
  | TyPointer _ e, VPtr None => VPtr (Some (zero e))
  | _, _ => x
  end.

(** The value at the end of [ix] below a position of type [t] holding [x],
    where a nil pointer on the way stands for a zero record. *)
Fixpoint view (t : type) (x : value) (ix : list nat) : option value :=
  match ix with
  | [] => Some x
  | i :: rest =>
      let down (s : value) : option value :=
        match s, field_type t i with
        | VStruct vs, Some ft =>
            match vs !! i with
            | Some w => view ft w rest
            | None => None
            end
        | _, _ => None
        end in
      match t, alloc t x with
      | TyPointer _ _, VPtr (Some s) => down s
      | TyPointer _ _, _ => None
      | _, y => down y
      end
  end.

(** The same with the value at the end replaced by [new]. *)
Fixpoint put (t : type) (x : value) (ix : list nat) (new : value) : value :=
  match ix with
  | [] => new
  | i :: rest =>
      let down (s : value) : value :=
        match s, field_type t i with
        | VStruct vs, Some ft =>
            match vs !! i with
            | Some w => VStruct (<[i := put ft w rest new]> vs)
            | None => s
            end
        | _, _ => s
        end in
      match t, alloc t x with
      | TyPointer _ _, VPtr (Some s) => VPtr (Some (down s))
      | TyPointer _ _, y => y
      | _, y => down y
      end
  end.

(** The order of a pre-order walk on index paths: a path is before its
    extensions, and a lower field index before a higher one. *)
Fixpoint path_lt (p q : list nat) : Prop :=
  match p, q with
  | [], [] => False
  | [], _ :: _ => True
  | _ :: _, [] => False
  | i :: p', j :: q' => (i < j)%nat \/ (i = j /\ path_lt p' q')
  end.

Definition Value_fieldsIndexes (val : option Value) : list nat :=
  match val with
  | Some v => fieldsIndexes v
  | None => []
  end.

(** The steps from a cursor of type [t] to the record behind it, and a
    record seen from a position of type [t]. *)
Definition deref_steps (t : type) : list step :=
  match t with TyPointer _ _ => [Deref] | _ => [] end.
Definition behind (t : type) (s : value) : value :=
  match t with TyPointer _ _ => VPtr (Some s) | _ => s end.

(** The handle of the root: the only place [val.get()] reaches that is
    not settable itself. *)
Definition at_root (v : Value) : bool :=
  match fieldsIndexes v with [] => true | _ :: _ => false end.

(** What [dst.Set(src)] tests at the end of [reflectValueSet], for a
    place of type [t] and a temporary of type [ty], or a pointer to one:
    a pointer place that is settable takes the address of the temporary,
    one that is not (the root) is written behind the pointer. *)
Definition installable (t : type) (addr : bool) (ty : type) : bool :=
  match t with
  | TyPointer _ te =>
      if addr then directlyAssignable t (TPointer ty) else directlyAssignable te ty
  | _ => directlyAssignable t ty
  end.

(** What [reflect.Append] tests in [reflectValueAppend], for a list of
    elements of type [el] and a temporary of type [ty], or a pointer to
    one: a list of pointers takes the address of the temporary. *)
Definition appendable (el ty : type) : bool :=
  match el with
  | TyPointer _ _ => directlyAssignable el (TPointer ty)
  | _ => directlyAssignable el ty
  end.

(** A cursor on a place of the bound structure, not read-only. *)
Definition cursor (t : type) (p : list step) (addr : bool) : reflect_Value :=
  mkRV t (InStore p) addr false.

(** A root that [New] and [Recursive] accept, with the bound structure:
    a non-nil pointer of type [T]. *)
Definition bound (T : type) (s : value) : Prop :=
  has_type T s = true /\ exists w, s = VPtr (Some w).

(** The value behind a position: the pointee of a pointer, the value
    itself otherwise. *)
Definition pointee (t : type) (x : value) : value :=
  match t, x with
  | TyPointer _ _, VPtr (Some w) => w
  | _, _ => x
  end.

(** What a codec reads at a position of type [t] that holds [y]: the
    value behind it, after the allocation done by [val.get()]. *)
Definition target (t : type) (y : value) : value := pointee t (alloc t y).

(** A handle the discoverer or [New] builds from a root of type [T]. *)
Definition node_of (T : type) (v : Value) : Prop :=
  newValue (reflect_ValueOf T) (fieldsIndexes v) (fields v) = Some v
  /\ field_path T (fieldsIndexes v) (fields v) (Value_typ v).

(** The degenerate literals of [structValueString]: [{}], [[]], the empty
    JSON string, [0] and [false]. *)
Definition degenerate_literals : list string :=
  ["{}"; "[]"; String.append quote quote; "0"; "false"].
Definition degenerate (str : string) : bool :=
  existsb (String.eqb str) degenerate_literals.

(** Either the text is rejected and nothing changes, or a decoded value
    is installed at the place of the handle, or [reflect.Set] refuses the
    type of the decoded value. *)
Definition Set_outcome (T : type) (s : value) (v : Value)
    (r : Res (error * value)) : Prop :=
  r = Panic "reflect.Set: value is not assignable to type"
  \/ exists (err : error) (s' : value),
       r = Ok (err, s')
       /\ ((err <> ErrNil /\ s' = s)
           \/ (err = ErrNil
               /\ exists n, has_type (elemIfPtrType (Value_typ v)) n = true
                            /\ s' = put T s (fieldsIndexes v) (behind (Value_typ v) n))).

(** ** What the renderers compute *)

Section Rendering.
Context {lib : GoLib}.

(** [json.Marshal] as the renderers use it: the text, or the empty text
    when there is an error. *)
Definition json_text (t : type) (x : value) : string :=
  let (b, err) := json_Marshal t x in
  if negb (is_nil_error err) then "" else b.

(** The items of the complex list renderers: the formatted element, a
    nil pointer standing for zero, between quotes. *)
Definition complex_texts (bitSize : Z) (et : type) (l : list value) : list string :=
  List.map
    (fun xv =>
       match target et xv with
       | VComplex re im =>
           String.append quote
             (String.append (strconv_FormatComplex (re, im) bitSize) quote)
       | _ => ""
       end) l.

(** The elements of a list value. *)
Definition elements (x : value) : list value :=
  match x with VSlice o => default [] o | _ => [] end.

(** The text [String()] returns at a position of type [t] whose value,
    behind at most one pointer, is [x]. *)
Definition render_target (t : type) (x : value) : string :=
  match elemIfPtrType t with
  | TyBasic _ b => if renders_empty x then "" else render_scalar b x
  | TySlice _ el =>
      if Nat.eqb (length (elements x)) 0 then ""
      else
        match el, elemIfPtrType el with
        | TyBasic _ BUint8, _ =>
            match bytes_of_value x with
            | Some l => base64_EncodeToString l
            | None => ""
            end
        | _, TyBasic _ BComplex64 =>
            String.append "[" (String.append (Join (complex_texts 64 el (elements x)) ",") "]")
        | _, TyBasic _ BComplex128 =>
            String.append "[" (String.append (Join (complex_texts 128 el (elements x)) ",") "]")
        | _, _ => json_text (elemIfPtrType t) x
        end
  | TyMap _ _ _ =>
      match x with
      | VMap m =>
          if Nat.eqb (length (default [] m)) 0 then ""
          else json_text (elemIfPtrType t) x
      | _ => ""
      end
  | TyStruct _ _ =>
      let str := json_text t (behind t x) in
      if degenerate str then "" else str
  | _ => ""
  end.

End Rendering.

(** The handles on which [String()] panics: the byte buffers whose type
    is not [[]byte] itself, which the type assertion of
    [bytesValueString] refuses. *)
Definition string_faults (t : type) : bool :=
  match elemIfPtrType t with
  | TySlice _ (TyBasic _ BUint8) =>
      negb (type_eqb (elemIfPtrType t) (TSlice (TBasic BUint8)))
  | _ => false
  end.


(** ** Invariants of the discoverer *)

(** The votes that let the discoverer reach and keep the handle of the
    path [ix ++ jx]: no skip bit on the handle, no no-descend bit on the
    handles of the positions from [ix] down to its parent. *)
Definition admitted_below (b : reflect_Value) (filters : list FilterFunc)
    (ix : list nat) (fs : list StructField) (jx : list nat)
    (gs : list StructField) : Prop :=
  N.land (Filter (newValue b (ix ++ jx) (fs ++ gs)) filters) skipMask = 0%N
  /\ forall k : nat, (k < length jx)%nat ->
       N.land (Filter (newValue b (ix ++ take k jx) (fs ++ take k gs)) filters)
              noDescendMask = 0%N.


(** The paths of the handles found below a position, relative to the path
    of the position, in the order of the result. *)
Definition sorted_below (t : type) : Prop :=
  forall (b : reflect_Value) (ix : list nat) (fs : list StructField)
         (filters : list FilterFunc),
  exists sufs : list (list nat),
    List.map Value_fieldsIndexes (recursive_at t b ix fs filters)
    = List.map (app ix) sufs
    /\ StronglySorted path_lt sufs.

(** What is known of a handle found from a root cursor [b]. *)
Definition found_from (b : reflect_Value) (n : option Value) : Prop :=
  exists v : Value,
    n = Some v
    /\ newValue b (fieldsIndexes v) (fields v) = Some v
    /\ field_path (rv_type b) (fieldsIndexes v) (fields v)
                  (position_type b (fields v)).

Definition found_below (t : type) : Prop :=
  forall (b : reflect_Value) (ix : list nat) (fs : list StructField)
         (filters : list FilterFunc),
    field_path (rv_type b) ix fs t -> position_type b fs = t ->
    forall n, In n (recursive_at t b ix fs filters) -> found_from b n.

(** ** A sample structure

    The record [sampleT] with a nested record behind a pointer, bound
    through a pointer to its zero value, and a library for it: JSON that
    accepts only the empty object, which leaves a fresh value as it is.
    The theorems below are instantiated on them. *)

#[export] Instance sampleLib : GoLib := {|
  json_Marshal := fun _ x =>
    match x with
    | VMap (Some (_ :: _)) => ("{...}", ErrNil)
    | VStruct (_ :: _) | VPtr (Some (VStruct (_ :: _))) => ("{...}", ErrNil)
    | _ => ("{}", ErrNil)
    end;
  json_Unmarshal := fun data _ x =>
    (x, if String.eqb data "{}" then ErrNil else ErrOther "invalid character");
  strconv_ParseFloat := fun _ _ => (0, ErrSyntax);
  strconv_FormatFloat := fun _ _ => "NaN";
  strconv_ParseComplex := fun _ _ => ((0, 0), ErrSyntax);
  strconv_FormatComplex := fun _ _ => "(NaN+NaNi)";
  base64_EncodeToString := fun _ => "";
  base64_DecodeString := fun _ => ([], ErrOther "illegal base64 data");
  json_Unmarshal_typed := fun _ _ _ H => H
|}.

Definition exported (name : string) (t : type) : StructField := mkField name "" t "".
Definition unexported (name : string) (t : type) : StructField :=
  mkField name "jsonflag_test" t "".

Definition sampleInner : type :=
  TStruct [exported "A" (TBasic BInt8);
           exported "B" (TPointer (TBasic BBool));
           exported "L" (TSlice (TPointer (TBasic BString)));
           unexported "u" (TBasic BInt)].

Definition sampleT : type :=
  TStruct [exported "Foo" (TBasic BString);
           exported "P" (TPointer sampleInner);
           exported "M" (TMap (TBasic BString) (TBasic BString));
           exported "R" (TStruct []);
           exported "Q" (TPointer (TBasic BInt8))].

Definition sampleRoot : type := TPointer sampleT.
Definition sampleStore : value := VPtr (Some (zero sampleT)).

(** The handles of [P.A], [P.L], [M], [R] and [Q]. *)
Definition node_PA : Value :=
  newInt8Value (reflect_ValueOf sampleRoot) [1; 0]%nat
    [exported "P" (TPointer sampleInner); exported "A" (TBasic BInt8)].
Definition node_PL : Value :=
  newStringSliceValue (reflect_ValueOf sampleRoot) [1; 2]%nat
    [exported "P" (TPointer sampleInner);
     exported "L" (TSlice (TPointer (TBasic BString)))].
Definition node_M : Value :=
  newMapValue (reflect_ValueOf sampleRoot) [2]%nat
    [exported "M" (TMap (TBasic BString) (TBasic BString))].
Definition node_R : Value :=
  newStructValue (reflect_ValueOf sampleRoot) [3]%nat [exported "R" (TStruct [])].
Definition node_Q : Value :=
  newInt8Value (reflect_ValueOf sampleRoot) [4]%nat
    [exported "Q" (TPointer (TBasic BInt8))].


(** A second structure, with defined types: [Duration] is declared as
    [type Duration int64] and [IP] as [type IP []byte]; the record behind
    the pointer [N] holds a pointer [X] to another record. *)
Definition Duration : type := TyBasic (Some "time.Duration") BInt64.
Definition IP : type := TySlice (Some "net.IP") (TBasic BUint8).
Definition sampleLeaf : type :=
  TyStruct (Some "Leaf") [exported "Y" (TBasic BInt8); exported "Z" (TBasic BString)].
Definition sampleMid : type :=
  TyStruct (Some "Mid") [exported "W" (TBasic BBool); exported "X" (TPointer sampleLeaf)].
Definition sampleConfig : type :=
  TyStruct (Some "Config")
    [exported "Timeout" Duration;
     exported "Delays" (TSlice Duration);
     exported "N" (TPointer sampleMid);
     exported "Addr" IP].

Definition sampleConfigRoot : type := TPointer sampleConfig.
Definition sampleConfigStore : value := VPtr (Some (zero sampleConfig)).

Definition node_NXY : Value :=
  newInt8Value (reflect_ValueOf sampleConfigRoot) [2; 1; 0]%nat
    [exported "N" (TPointer sampleMid); exported "X" (TPointer sampleLeaf);
     exported "Y" (TBasic BInt8)].

Definition sampleConfigSet : value :=
  VPtr (Some (VStruct
    [VInt 0; VSlice None;
     VPtr (Some (VStruct [VBool false; VPtr (Some (VStruct [VInt 7; VString ""]))]));
     VSlice None])).


(** * Properties *)

(** ** Kind dispatch *)

Lemma newSliceValue_fields (b : reflect_Value) (ix : list nat)
    (fs : list StructField) (typ : type) (v : Value) :
  newSliceValue b ix fs typ = Some v ->
  base v = b /\ fieldsIndexes v = ix /\ fields v = fs
  /\ encodeFn v = None /\ decodeFn v = None.
Proof.
  unfold newSliceValue. intros H.
  repeat case_match; try discriminate; injection H as <-; cbn; auto.
Qed.

Lemma newValue_fields (b : reflect_Value) (ix : list nat)
    (fs : list StructField) (v : Value) :
  newValue b ix fs = Some v ->
  base v = b /\ fieldsIndexes v = ix /\ fields v = fs
  /\ encodeFn v = None /\ decodeFn v = None.
Proof.
  unfold newValue. intros H.
  destruct (type_Kind (elemIfPtrType (position_type b fs)));
    try discriminate;
    try (injection H as <-; cbn; auto; fail).
  eapply newSliceValue_fields; eassumption.
Qed.

(** The handles whose [isBool] is set are exactly those bound to
    [boolSliceValueSet]. *)
Lemma newValue_isBool (b : reflect_Value) (ix : list nat)
    (fs : list StructField) (v : Value) :
  newValue b ix fs = Some v ->
  isBool v = true <-> setFn v = Some fn_boolSliceValueSet.
Proof.
  unfold newValue, newSliceValue. intros H.
  repeat case_match; try discriminate; injection H as <-; cbn;
    split; intros E; try discriminate; reflexivity.
Qed.

(** C1 (what the code does, at the inputs where it departs from the
    claim): the handle of a pointer to a [bool] answers [IsBoolFlag()]
    with false, and the handle of a pointer to a [[]bool] answers with
    true. *)
Theorem C1_IsBoolFlag_bool_and_bool_list :
  Value_IsBoolFlag (New (Some (TPointer (TBasic BBool), VPtr (Some (VBool false)))))
  = false
  /\ Value_Type (New (Some (TPointer (TBasic BBool), VPtr (Some (VBool false)))))
     = "bool"
  /\ Value_IsBoolFlag
       (New (Some (TPointer (TSlice (TBasic BBool)), VPtr (Some (VSlice None)))))
     = true
  /\ Value_Type
       (New (Some (TPointer (TSlice (TBasic BBool)), VPtr (Some (VSlice None)))))
     = "bool (JSON list)".
Proof. repeat split; reflexivity. Qed.

(** ** Roots that cannot be bound *)

(** C9: for a nil root, a root that is not a pointer, and a nil pointer
    root, [Recursive] returns the empty list and [New] returns nil; both
    are total functions of the root, so there is nothing that can fault. *)
Theorem C9_unusable_root_yields_nothing (b : any) (filters : list FilterFunc) :
  (b = None
   \/ exists (t : type) (x : value),
        b = Some (t, x) /\ (type_Kind t <> KPointer \/ x = VPtr None)) ->
  Recursive b filters = [] /\ New b = None.
Proof.
  intros [-> | (t & x & -> & H)]; [split; reflexivity|].
  unfold Recursive, New, unusable_root, rv_Kind. cbn.
  destruct H as [H | ->].
  - destruct (type_Kind t); try congruence; split; reflexivity.
  - rewrite orb_true_r. split; reflexivity.
Qed.

Lemma C9_unusable_root_witness :
  Recursive (Some (TBasic BString, VString "")) [] = []
  /\ New (Some (TBasic BString, VString "")) = None.
Proof.
  apply (C9_unusable_root_yields_nothing (Some (TBasic BString, VString "")) []).
  right. exists (TBasic BString), (VString ""). split; [reflexivity|].
  left. cbn. discriminate.
Defined.

(** ** Induction on types *)

Lemma type_ind' (P : type -> Prop) :
  (forall nm b, P (TyBasic nm b)) ->
  (forall nm e, P e -> P (TyPointer nm e)) ->
  (forall nm e, P e -> P (TySlice nm e)) ->
  (forall nm n e, P e -> P (TyArray nm n e)) ->
  (forall nm k e, P k -> P e -> P (TyMap nm k e)) ->
  (forall nm fs, Forall (fun f => P (Type_ f)) fs -> P (TyStruct nm fs)) ->
  forall t, P t.
Proof.
  intros Hb Hp Hs Ha Hm Hst.
  fix IH 1. intros [nm b | nm e | nm e | nm n e | nm k e | nm fs].
  - apply Hb.
  - apply Hp, IH.
  - apply Hs, IH.
  - apply Ha, IH.
  - apply Hm; apply IH.
  - apply Hst. induction fs as [| f fs IHfs]; constructor; [apply IH | exact IHfs].
Qed.

(** Induction along the descent of the discoverer: from a position to the
    fields of the record behind it. *)
Lemma position_ind (P : type -> Prop) :
  (forall t,
      (forall nm tfs f, elemIfPtrType t = TyStruct nm tfs -> In f tfs -> P (Type_ f)) ->
      P t) ->
  forall t, P t.
Proof.
  intros step t.
  enough (H : P t /\ (forall nm tfs f, t = TyStruct nm tfs -> In f tfs -> P (Type_ f)))
    by apply H.
  induction t as [nm b | nm e [_ IHe] | nm e _ | nm n e _ | nm k e _ _ | nm fs IHfs]
    using type_ind'.
  - split; [apply step; cbn|]; intros; discriminate.
  - split; [apply step; cbn; intros nm' tfs f -> Hin; eapply IHe; eauto
           | intros; discriminate].
  - split; [apply step; cbn|]; intros; discriminate.
  - split; [apply step; cbn|]; intros; discriminate.
  - split; [apply step; cbn|]; intros; discriminate.
  - assert (Hf : forall f, In f fs -> P (Type_ f)).
    { intros f Hin. rewrite Forall_forall in IHfs.
      apply IHfs. apply list_elem_of_In, Hin. }
    split.
    + apply step. cbn. intros nm' tfs f [= <- <-]. apply Hf.
    + intros nm' tfs f [= <- <-]. apply Hf.
Qed.

(** ** Filters *)

Lemma Filter_nil_node (filters : list FilterFunc) :
  Filter None filters = SkipNoDescend.
Proof. reflexivity. Qed.

Lemma fold_lor_testbit (val : option Value) (filters : list FilterFunc)
    (r : N) (n : N) :
  N.testbit (fold_left (fun r cond => N.lor r (cond val)) filters r) n
  = N.testbit r n || existsb (fun cond : FilterFunc => N.testbit (cond val) n) filters.
Proof.
  revert r. induction filters as [| f fs IH]; intros r; cbn.
  - now rewrite orb_false_r.
  - rewrite IH, N.lor_spec, orb_assoc. reflexivity.
Qed.

Lemma fold_lor_perm (val : option Value) (fs fs' : list FilterFunc) :
  Permutation fs fs' ->
  forall r : N,
    fold_left (fun r cond => N.lor r (cond val)) fs r
    = fold_left (fun r cond => N.lor r (cond val)) fs' r.
Proof.
  induction 1 as [| f l l' _ IH | f g l | l l' l'' _ IH1 _ IH2]; intros r; cbn.
  - reflexivity.
  - apply IH.
  - f_equal. rewrite <- !N.lor_assoc. f_equal. apply N.lor_comm.
  - now rewrite IH1.
Qed.

Lemma Filter_bit (v : Value) (filters : list FilterFunc) (n : N) :
  N.testbit (Filter (Some v) filters) n
  = existsb (fun cond : FilterFunc => N.testbit (cond (Some v)) n) filters.
Proof. unfold Filter. now rewrite fold_lor_testbit. Qed.

(** A mask of one bit. *)
Lemma land_skipMask (r : N) :
  N.eqb (N.land r skipMask) 0 = negb (N.testbit r 1%N).
Proof.
  destruct (N.testbit r 1%N) eqn:E; cbn.
  - apply N.eqb_neq. intros H.
    assert (B : N.testbit (N.land r skipMask) 1%N = true)
      by (rewrite N.land_spec, E; reflexivity).
    rewrite H in B. discriminate.
  - apply N.eqb_eq. apply N.bits_inj. intros k.
    rewrite N.land_spec, N.bits_0.
    destruct (N.eq_dec k 1%N) as [-> | Hk]; [now rewrite E|].
    replace (N.testbit skipMask k) with false; [apply andb_false_r|].
    unfold skipMask. change 2%N with (2 ^ 1)%N.
    symmetry. apply N.pow2_bits_false. congruence.
Qed.

Lemma land_noDescendMask (r : N) :
  N.eqb (N.land r noDescendMask) 0 = negb (N.testbit r 0%N).
Proof.
  destruct (N.testbit r 0%N) eqn:E; cbn.
  - apply N.eqb_neq. intros H.
    assert (B : N.testbit (N.land r noDescendMask) 0%N = true)
      by (rewrite N.land_spec, E; reflexivity).
    rewrite H in B. discriminate.
  - apply N.eqb_eq. apply N.bits_inj. intros k.
    rewrite N.land_spec, N.bits_0.
    destruct (N.eq_dec k 0%N) as [-> | Hk]; [now rewrite E|].
    replace (N.testbit noDescendMask k) with false; [apply andb_false_r|].
    unfold noDescendMask. change 1%N with (2 ^ 0)%N.
    symmetry. apply N.pow2_bits_false. congruence.
Qed.

(** One vote with the bit set is enough. *)
Lemma Filter_vote (v : Value) (filters : list FilterFunc) (f : FilterFunc) (n : N) :
  In f filters -> N.testbit (f (Some v)) n = true ->
  N.testbit (Filter (Some v) filters) n = true.
Proof.
  intros Hin Hbit. rewrite Filter_bit. apply existsb_exists. eauto.
Qed.

(** ** The discoverer *)

Lemma recursive_at_eq (t : type) (b : reflect_Value) (ix : list nat)
    (fs : list StructField) (filters : list FilterFunc) :
  recursive_at t b ix fs filters
  = let val := newValue b ix fs in
    let filterResult := Filter val filters in
    let values := if N.eqb (N.land filterResult skipMask) 0 then [val] else [] in
    if negb (N.eqb (N.land filterResult noDescendMask) 0) then values
    else
      match elemIfPtrType t with
      | TyStruct _ tfs =>
          values ++
          loop_fields
            (fun i field =>
               if negb (IsExported field) then []
               else recursive_at (Type_ field) b (ix ++ [i]) (fs ++ [field]) filters)
            tfs 0%nat
      | _ => values
      end.
Proof. destruct t; reflexivity. Qed.

Lemma loop_fields_ext {A : Type} (f g : nat -> StructField -> list A)
    (rest : list StructField) (i : nat) :
  (forall j x, f j x = g j x) -> loop_fields f rest i = loop_fields g rest i.
Proof.
  intros E. revert i. induction rest as [| x rest IH]; intros i; cbn;
    [reflexivity | now rewrite E, IH].
Qed.

Lemma position_type_snoc (b : reflect_Value) (fs : list StructField)
    (f : StructField) :
  position_type b (fs ++ [f]) = Type_ f.
Proof. unfold position_type. now rewrite last_snoc. Qed.

(** [recursive] satisfies the equation that is the body of the Go
    function: the type of the position is recomputed from [base] and
    [fields] at every call. *)
Lemma recursive_unfold (b : reflect_Value) (ix : list nat)
    (fs : list StructField) (filters : list FilterFunc) :
  recursive b ix fs filters
  = let val := newValue b ix fs in
    let filterResult := Filter val filters in
    let values := if N.eqb (N.land filterResult skipMask) 0 then [val] else [] in
    if negb (N.eqb (N.land filterResult noDescendMask) 0) then values
    else
      match elemIfPtrType (position_type b fs) with
      | TyStruct _ tfs =>
          values ++
          loop_fields
            (fun i field =>
               if negb (IsExported field) then []
               else recursive b (ix ++ [i]) (fs ++ [field]) filters)
            tfs 0%nat
      | _ => values
      end.
Proof.
  unfold recursive. rewrite recursive_at_eq. cbn zeta.
  destruct (negb _); [reflexivity|].
  destruct (elemIfPtrType _); try reflexivity.
  f_equal. apply loop_fields_ext. intros j x.
  now rewrite position_type_snoc.
Qed.

(** The node of the position is in the result only if it is not nil, and
    then its path is the path of the position. *)
Lemma own_node_paths (b : reflect_Value) (ix : list nat)
    (fs : list StructField) (filters : list FilterFunc) :
  exists sufs : list (list nat),
    List.map Value_fieldsIndexes
      (if N.eqb (N.land (Filter (newValue b ix fs) filters) skipMask) 0
       then [newValue b ix fs] else [])
    = List.map (app ix) sufs
    /\ (sufs = [] \/ sufs = [[]]).
Proof.
  destruct (newValue b ix fs) as [v |] eqn:E.
  - destruct (N.eqb _ _).
    + exists [[]]. cbn. apply newValue_fields in E as (_ & -> & _).
      rewrite app_nil_r. auto.
    + exists []. auto.
  - exists []. auto.
Qed.

Lemma path_lt_app (ix p q : list nat) :
  path_lt p q -> path_lt (ix ++ p) (ix ++ q).
Proof. intros H. induction ix as [| i ix IH]; cbn; auto. Qed.

Lemma path_lt_irrefl (p : list nat) : ~ path_lt p p.
Proof. induction p as [| i p IH]; cbn; [tauto | intros [H | [_ H]]; [lia | auto]]. Qed.

Lemma path_lt_trans (p q r : list nat) :
  path_lt p q -> path_lt q r -> path_lt p r.
Proof.
  revert q r. induction p as [| i p IH]; intros [| j q] [| k r]; cbn; try tauto.
  intros [H1 | [-> H1]] [H2 | [-> H2]]; eauto; left; lia.
Qed.

Lemma StronglySorted_append {A : Type} (R : A -> A -> Prop) (l1 l2 : list A) :
  StronglySorted R l1 -> StronglySorted R l2 ->
  (forall x y, In x l1 -> In y l2 -> R x y) ->
  StronglySorted R (l1 ++ l2).
Proof.
  intros H1 H2 H. induction H1 as [| a l1 H1 IH Ha]; cbn; [exact H2|].
  constructor.
  - apply IH. intros x y Hx Hy. apply H; [right|]; assumption.
  - apply Forall_app. split; [exact Ha|].
    apply Forall_forall. intros y Hy. apply H; [left; reflexivity|].
    apply list_elem_of_In, Hy.
Qed.

Lemma StronglySorted_cons_paths (i : nat) (sufs : list (list nat)) :
  StronglySorted path_lt sufs -> StronglySorted path_lt (List.map (cons i) sufs).
Proof.
  induction 1 as [| a l _ IH Ha]; cbn; constructor; [exact IH|].
  rewrite Forall_forall in Ha |- *. intros y Hy.
  apply list_elem_of_In, in_map_iff in Hy as (s & <- & Hs).
  cbn. right. split; [reflexivity|]. apply Ha, list_elem_of_In, Hs.
Qed.

Lemma loop_fields_sorted (b : reflect_Value) (ix : list nat)
    (fs : list StructField) (filters : list FilterFunc) (rest : list StructField) :
  (forall f, In f rest -> sorted_below (Type_ f)) ->
  forall i : nat,
  exists sufs : list (list nat),
    List.map Value_fieldsIndexes
      (loop_fields
         (fun i field =>
            if negb (IsExported field) then []
            else recursive_at (Type_ field) b (ix ++ [i]) (fs ++ [field]) filters)
         rest i)
    = List.map (app ix) sufs
    /\ StronglySorted path_lt sufs
    /\ Forall (fun s => exists j s', s = j :: s' /\ (i <= j)%nat) sufs.
Proof.
  induction rest as [| f rest IH]; intros Hrest i; cbn.
  - exists []. repeat split; constructor.
  - assert (Hrest' : forall g, In g rest -> sorted_below (Type_ g))
      by (intros g Hg; apply Hrest; right; exact Hg).
    destruct (IH Hrest' (S i)) as (sufs2 & E2 & S2 & B2).
    assert (B2' : Forall (fun s => exists j s', s = j :: s' /\ (i <= j)%nat) sufs2).
    { eapply Forall_impl; [exact B2|]. cbn. intros s (j & s' & -> & Hj).
      exists j, s'. split; [reflexivity | lia]. }
    destruct (negb (IsExported f)).
    + exists sufs2. cbn. auto.
    + assert (Hf : sorted_below (Type_ f)) by (apply Hrest; left; reflexivity).
      destruct (Hf b (ix ++ [i]) (fs ++ [f]) filters) as (sufs1 & E1 & S1).
      exists (List.map (cons i) sufs1 ++ sufs2).
      rewrite !List.map_app, E1, E2, List.map_map. repeat split.
      * f_equal. apply List.map_ext. intros s. now rewrite <- app_assoc.
      * apply StronglySorted_append;
          [apply StronglySorted_cons_paths, S1 | exact S2 |].
        intros x y Hx Hy. apply in_map_iff in Hx as (s & <- & _).
        rewrite Forall_forall in B2.
        apply list_elem_of_In, B2 in Hy as (j & s' & -> & Hj).
        cbn. left. lia.
      * apply Forall_app. split; [|exact B2'].
        apply Forall_forall. intros x Hx.
        apply list_elem_of_In, in_map_iff in Hx as (s & <- & _).
        exists i, s. split; [reflexivity | lia].
Qed.

Lemma recursive_at_sorted (t : type) : sorted_below t.
Proof.
  induction t as [t IH] using position_ind.
  intros b ix fs filters. rewrite recursive_at_eq. cbn zeta.
  destruct (own_node_paths b ix fs filters) as (sufs0 & E0 & H0).
  assert (S0 : StronglySorted path_lt sufs0).
  { destruct H0 as [-> | ->]; repeat constructor. }
  destruct (negb _); [exists sufs0; auto|].
  destruct (elemIfPtrType t) as [| | | | | ? tfs] eqn:Et; try (exists sufs0; auto; fail).
  assert (Hfs : forall f, In f tfs -> sorted_below (Type_ f))
    by (intros f Hf; eapply IH; eauto).
  destruct (loop_fields_sorted b ix fs filters tfs Hfs 0%nat) as (sufs & E & S & B).
  exists (sufs0 ++ sufs). rewrite !List.map_app, E0, E. repeat split.
  apply StronglySorted_append; [exact S0 | exact S |].
  intros x y Hx Hy. rewrite Forall_forall in B.
  apply list_elem_of_In, B in Hy as (j & s' & -> & _).
  destruct H0 as [-> | ->]; [destruct Hx|].
  destruct Hx as [<- | []]. exact I.
Qed.

Lemma field_path_snoc {snm : tname} (T t : type) (ix : list nat)
    (fs tfs : list StructField) (i : nat) (f : StructField) :
  field_path T ix fs t ->
  elemIfPtrType t = TyStruct snm tfs -> tfs !! i = Some f -> IsExported f = true ->
  field_path T (ix ++ [i]) (fs ++ [f]) (Type_ f).
Proof.
  induction 1 as [t | t0 nm0 tfs0 i0 f0 ix fs t' E0 L0 X0 _ IH]; intros E L X; cbn.
  - econstructor; eauto. constructor.
  - econstructor; eauto.
Qed.

Lemma field_path_exported (T t : type) (ix : list nat) (fs : list StructField) :
  field_path T ix fs t -> Forall (fun f => IsExported f = true) fs.
Proof. induction 1; constructor; auto. Qed.

Lemma field_path_length (T t : type) (ix : list nat) (fs : list StructField) :
  field_path T ix fs t -> length ix = length fs.
Proof. induction 1; cbn; auto. Qed.

Lemma own_node_found (b : reflect_Value) (ix : list nat)
    (fs : list StructField) (filters : list FilterFunc) (n : option Value) :
  field_path (rv_type b) ix fs (position_type b fs) ->
  In n (if N.eqb (N.land (Filter (newValue b ix fs) filters) skipMask) 0
        then [newValue b ix fs] else []) ->
  found_from b n.
Proof.
  intros Hp Hin. destruct (newValue b ix fs) as [v |] eqn:E.
  - destruct (N.eqb _ _); [|destruct Hin]. destruct Hin as [<- | []].
    exists v. destruct (newValue_fields _ _ _ _ E) as (_ & -> & -> & _). auto.
  - cbn in Hin. destruct Hin.
Qed.

Lemma loop_fields_found {snm : tname} (b : reflect_Value) (ix : list nat)
    (fs tfs : list StructField) (filters : list FilterFunc) (t : type) :
  field_path (rv_type b) ix fs t -> elemIfPtrType t = TyStruct snm tfs ->
  forall (rest : list StructField) (i : nat),
    (forall j f, rest !! j = Some f -> tfs !! (i + j)%nat = Some f) ->
    (forall f, In f rest -> found_below (Type_ f)) ->
    forall n,
      In n (loop_fields
              (fun i field =>
                 if negb (IsExported field) then []
                 else recursive_at (Type_ field) b (ix ++ [i]) (fs ++ [field]) filters)
              rest i) ->
      found_from b n.
Proof.
  intros Hp Et. induction rest as [| f rest IH]; intros i Hidx Hrest n Hin; cbn in Hin.
  - destruct Hin.
  - apply in_app_or in Hin as [Hin | Hin].
    + destruct (IsExported f) eqn:X; cbn in Hin; [|destruct Hin].
      eapply (Hrest f (or_introl eq_refl)); [| |exact Hin].
      * eapply field_path_snoc; eauto.
        specialize (Hidx 0%nat f eq_refl). now rewrite Nat.add_0_r in Hidx.
      * apply position_type_snoc.
    + eapply (IH (S i)); [| |exact Hin].
      * intros j g Hj. specialize (Hidx (S j) g Hj).
        now rewrite Nat.add_succ_r in Hidx.
      * intros g Hg. apply Hrest. right. exact Hg.
Qed.

Lemma recursive_at_found (t : type) : found_below t.
Proof.
  induction t as [t IH] using position_ind.
  intros b ix fs filters Hp Ht n Hin. rewrite recursive_at_eq in Hin. cbn zeta in Hin.
  assert (Hown : forall n,
             In n (if N.eqb (N.land (Filter (newValue b ix fs) filters) skipMask) 0
                   then [newValue b ix fs] else []) -> found_from b n).
  { intros m. apply own_node_found. now rewrite Ht. }
  destruct (negb _); [auto|].
  destruct (elemIfPtrType t) as [| | | | | ? tfs] eqn:Et; auto.
  apply in_app_or in Hin as [Hin | Hin]; [auto|].
  eapply (loop_fields_found b ix fs tfs filters t Hp Et tfs 0%nat); [| |exact Hin].
  - intros j f Hj. exact Hj.
  - intros f Hf. eapply IH; eauto.
Qed.

(** [path_lt] is the order of a pre-order walk in declaration order. *)
Lemma path_lt_extension (p s : list nat) (i : nat) : path_lt p (p ++ i :: s).
Proof.
  rewrite <- (app_nil_r p) at 1. apply path_lt_app. exact I.
Qed.

Lemma path_lt_sibling (p s s' : list nat) (i j : nat) :
  (i < j)%nat -> path_lt (p ++ i :: s) (p ++ j :: s').
Proof. intros H. apply path_lt_app. cbn. auto. Qed.

(** C4: the decision of a filter chain is the bitwise or of the votes.
    It does not depend on the order of the filters; each bit of the
    decision is set exactly when some filter sets it; a nil node gets
    [SkipNoDescend]; in the discoverer a single vote with the skip bit
    keeps the node of the position out of the result, and a single vote
    with the no-descend bit leaves nothing in the result but, at most,
    the node of the position. *)
Theorem C4_filter_votes_are_ored :
  (forall (val : option Value) (fs fs' : list FilterFunc),
      Permutation fs fs' -> Filter val fs = Filter val fs')
  /\ (forall (v : Value) (fs : list FilterFunc) (n : N),
        N.testbit (Filter (Some v) fs) n
        = existsb (fun f : FilterFunc => N.testbit (f (Some v)) n) fs)
  /\ (forall fs : list FilterFunc, Filter None fs = SkipNoDescend)
  /\ (forall (b : reflect_Value) (ix : list nat) (flds : list StructField)
             (filters : list FilterFunc) (f : FilterFunc),
        In f filters ->
        N.land (f (newValue b ix flds)) skipMask <> 0%N ->
        ~ In (newValue b ix flds) (recursive b ix flds filters))
  /\ (forall (b : reflect_Value) (ix : list nat) (flds : list StructField)
             (filters : list FilterFunc) (f : FilterFunc),
        In f filters ->
        N.land (f (newValue b ix flds)) noDescendMask <> 0%N ->
        forall n, In n (recursive b ix flds filters) -> n = newValue b ix flds).
Proof.
  split; [|split; [|split; [|split]]].
  - intros [v |] fs fs' Hp; cbn; [now apply fold_lor_perm | reflexivity].
  - apply Filter_bit.
  - reflexivity.
  - intros b ix flds filters f Hf Hvote Hin.
    unfold recursive in Hin. rewrite recursive_at_eq in Hin. cbn zeta in Hin.
    assert (Hskip : N.eqb (N.land (Filter (newValue b ix flds) filters) skipMask) 0
                    = false).
    { destruct (newValue b ix flds) as [v |]; [|reflexivity].
      rewrite land_skipMask.
      erewrite Filter_vote; [reflexivity | exact Hf |].
      apply N.eqb_neq in Hvote. rewrite land_skipMask in Hvote.
      now destruct (N.testbit _ _). }
    rewrite Hskip in Hin. cbn [app] in Hin.
    destruct (negb _); [destruct Hin|].
    destruct (elemIfPtrType _) as [| | | | | ? tfs] eqn:Et; try (destruct Hin; fail).
    assert (Hfs : forall g, In g tfs -> sorted_below (Type_ g))
      by (intros; apply recursive_at_sorted).
    destruct (loop_fields_sorted b ix flds filters tfs Hfs 0%nat) as (sufs & E & _ & B).
    apply (in_map Value_fieldsIndexes) in Hin. rewrite E in Hin.
    apply in_map_iff in Hin as (s & Hs & Hin).
    rewrite Forall_forall in B.
    apply list_elem_of_In, B in Hin as (j & s' & -> & _).
    destruct (newValue b ix flds) as [v |] eqn:Ev; cbn in Hs.
    + apply newValue_fields in Ev as (_ & Eix & _). rewrite Eix in Hs.
      rewrite <- (app_nil_r ix) in Hs at 2. apply app_inv_head in Hs. discriminate.
    + destruct ix; discriminate.
  - intros b ix flds filters f Hf Hvote n Hin.
    unfold recursive in Hin. rewrite recursive_at_eq in Hin. cbn zeta in Hin.
    assert (Hnd : negb (N.eqb (N.land (Filter (newValue b ix flds) filters)
                                      noDescendMask) 0) = true).
    { destruct (newValue b ix flds) as [v |]; [|reflexivity].
      rewrite land_noDescendMask, negb_involutive.
      eapply Filter_vote; [exact Hf|].
      apply N.eqb_neq in Hvote. rewrite land_noDescendMask in Hvote.
      now destruct (N.testbit _ _). }
    rewrite Hnd in Hin. destruct (N.eqb _ _); [|destruct Hin].
    destruct Hin as [<- | []]. reflexivity.
Qed.

(** ** Places of the bound structure *)

Lemma load_app (x : value) (p q : list step) :
  load x (p ++ q) = match load x p with Some y => load y q | None => None end.
Proof.
  revert x. induction p as [| [| i] p IH]; intros x; cbn; [reflexivity | |].
  - destruct x as [| | | | | | [w |] | | | | |]; auto.
  - destruct x as [| | | | | | | | | vs | |]; auto. destruct (vs !! i); auto.
Qed.

Lemma store_app (x : value) (p q : list step) (n : value) :
  store x (p ++ q) n
  = match load x p with
    | Some y => match store y q n with
                | Some y' => store x p y'
                | None => None
                end
    | None => None
    end.
Proof.
  revert x. induction p as [| [| i] p IH]; intros x; cbn.
  - destruct (store x q n); reflexivity.
  - destruct x as [| | | | | | [w |] | | | | |]; auto.
    rewrite IH. destruct (load w p); auto. destruct (store _ q n); auto.
  - destruct x as [| | | | | | | | | vs | |]; auto.
    destruct (vs !! i) as [w |]; auto.
    rewrite IH. destruct (load w p); auto. destruct (store _ q n); auto.
Qed.

Lemma load_store (x x' : value) (p : list step) (n : value) :
  store x p n = Some x' -> load x' p = Some n.
Proof.
  revert x x'. induction p as [| [| i] p IH]; intros x x'; cbn.
  - congruence.
  - destruct x as [| | | | | | [w |] | | | | |]; try discriminate.
    destruct (store w p n) as [w' |] eqn:E; [|discriminate].
    intros [= <-]. eauto.
  - destruct x as [| | | | | | | | | vs | |]; try discriminate.
    destruct (vs !! i) as [w |] eqn:L; [|discriminate].
    destruct (store w p n) as [w' |] eqn:E; [|discriminate].
    intros [= <-]. rewrite list_lookup_insert_eq by (eapply lookup_lt_Some; eauto).
    eauto.
Qed.

Lemma store_defined (x y : value) (p : list step) (n : value) :
  load x p = Some y -> exists x', store x p n = Some x'.
Proof.
  revert x. induction p as [| [| i] p IH]; intros x; cbn.
  - eauto.
  - destruct x as [| | | | | | [w |] | | | | |]; try discriminate.
    intros H. destruct (IH _ H) as (w' & ->). eauto.
  - destruct x as [| | | | | | | | | vs | |]; try discriminate.
    destruct (vs !! i) as [w |]; [|discriminate].
    intros H. destruct (IH _ H) as (w' & ->). eauto.
Qed.

Lemma store_store (x x1 : value) (p : list step) (n m : value) :
  store x p n = Some x1 -> store x1 p m = store x p m.
Proof.
  revert x x1. induction p as [| [| i] p IH]; intros x x1; cbn.
  - reflexivity.
  - destruct x as [| | | | | | [w |] | | | | |]; try discriminate.
    destruct (store w p n) as [w' |] eqn:E; [|discriminate].
    intros [= <-]. now rewrite (IH _ _ E).
  - destruct x as [| | | | | | | | | vs | |]; try discriminate.
    destruct (vs !! i) as [w |] eqn:L; [|discriminate].
    destruct (store w p n) as [w' |] eqn:E; [|discriminate].
    intros [= <-].
    rewrite list_lookup_insert_eq by (eapply lookup_lt_Some; eauto).
    rewrite (IH _ _ E). destruct (store w p m); [|reflexivity].
    now rewrite list_insert_insert_eq.
Qed.

(** ** Typing *)

Lemma Kind_eqb_refl (k : Kind) : Kind_eqb k k = true.
Proof. destruct k; reflexivity. Qed.

Lemma Kind_eqb_eq (a b : Kind) : Kind_eqb a b = true <-> a = b.
Proof. split; [destruct a, b; cbn; congruence | intros ->; apply Kind_eqb_refl]. Qed.

Lemma name_eqb_refl (n : tname) : name_eqb n n = true.
Proof. destruct n; [apply String.eqb_refl | reflexivity]. Qed.

Lemma type_eqb_refl (t : type) : type_eqb t t = true.
Proof.
  induction t as [? b | ? e IH | ? e IH | ? n e IH | ? k e IHk IHe | ? fs IH]
    using type_ind'; cbn; rewrite name_eqb_refl; cbn [andb].
  - apply Kind_eqb_refl.
  - exact IH.
  - exact IH.
  - now rewrite Nat.eqb_refl, IH.
  - now rewrite IHk, IHe.
  - induction IH as [| f fs Hf _ IHfs]; [reflexivity|].
    now rewrite !String.eqb_refl, Hf, IHfs.
Qed.

(** A value of a type can be stored in a place of that type, and a
    pointer to it in a place of a pointer type to it, defined or not. *)
Lemma directlyAssignable_refl (t : type) : directlyAssignable t t = true.
Proof. unfold directlyAssignable. now rewrite type_eqb_refl. Qed.

Lemma directlyAssignable_pointer (nm : tname) (e : type) :
  directlyAssignable (TyPointer nm e) (TPointer e) = true.
Proof.
  unfold directlyAssignable, haveIdenticalUnderlyingType, unnamed.
  destruct nm; cbn [type_eqb name_eqb type_hasName type_Kind andb negb Kind_eqb];
    rewrite type_eqb_refl; reflexivity.
Qed.

Lemma has_type_struct {nm : tname} (fs : list StructField) (vs : list value) :
  has_type (TyStruct nm fs) (VStruct vs) = true
  <-> Forall2 (fun f v => has_type (Type_ f) v = true) fs vs.
Proof.
  cbn. revert vs. induction fs as [| f fs IH]; intros [| v vs]; split; intros H;
    try discriminate; try (inversion H; fail).
  - constructor.
  - reflexivity.
  - apply andb_true_iff in H as [H1 H2]. constructor; [exact H1 | now apply IH].
  - inversion H; subst. apply andb_true_iff. split; [assumption | now apply IH].
Qed.

Lemma has_type_struct_inv {nm : tname} (fs : list StructField) (x : value) :
  has_type (TyStruct nm fs) x = true ->
  exists vs, x = VStruct vs /\ Forall2 (fun f v => has_type (Type_ f) v = true) fs vs.
Proof.
  destruct x; try discriminate. intros H. eexists; split; [reflexivity|].
  now apply (has_type_struct (nm := nm)).
Qed.

Lemma has_type_zero (t : type) : has_type t (zero t) = true.
Proof.
  induction t as [? b | ? e IH | ? e IH | ? n e IH | ? k e IHk IHe | nm fs IH]
    using type_ind'.
  - destruct b; reflexivity.
  - reflexivity.
  - reflexivity.
  - cbn. rewrite repeat_length, Nat.eqb_refl. cbn.
    apply forallb_forall. intros x Hx. apply repeat_spec in Hx. now subst.
  - reflexivity.
  - change (zero (TyStruct nm fs))
      with (VStruct (List.map (fun f => zero (Type_ f)) fs)).
    apply has_type_struct.
    induction IH as [| f fs Hf _ IHfs]; cbn; constructor; assumption.
Qed.

Lemma has_type_pointer_inv {nm : tname} (e : type) (x : value) :
  has_type (TyPointer nm e) x = true ->
  x = VPtr None \/ exists w, x = VPtr (Some w) /\ has_type e w = true.
Proof.
  destruct x as [| | | | | | [w |] | | | | |]; try discriminate; eauto.
Qed.

Lemma has_type_alloc (t : type) (x : value) :
  has_type t x = true -> has_type t (alloc t x) = true.
Proof.
  intros H. destruct t; try exact H.
  destruct x as [| | | | | | [w |] | | | | |]; try exact H.
  cbn. apply has_type_zero.
Qed.

(** ** Field paths in the bound structure *)

(** The record behind a well-typed position from which a path goes on,
    after allocation. *)
Lemma record_behind {snm : tname} (t : type) (tfs : list StructField) (i : nat)
    (f : StructField) (x : value) :
  elemIfPtrType t = TyStruct snm tfs -> tfs !! i = Some f -> has_type t x = true ->
  exists (vs : list value) (w : value),
    alloc t x = behind t (VStruct vs)
    /\ (t = TyStruct snm tfs \/ exists pnm, t = TyPointer pnm (TyStruct snm tfs))
    /\ vs !! i = Some w /\ has_type (Type_ f) w = true
    /\ field_type t i = Some (Type_ f).
Proof.
  intros Et Li Hx.
  assert (Hft : field_type t i = Some (Type_ f))
    by (unfold field_type; rewrite Et, Li; reflexivity).
  assert (Hrec : forall s, has_type (TyStruct snm tfs) s = true ->
                 exists vs w, s = VStruct vs /\ vs !! i = Some w
                              /\ has_type (Type_ f) w = true).
  { intros s Hs. apply has_type_struct_inv in Hs as (vs & -> & F).
    destruct (Forall2_lookup_l _ _ _ _ _ F Li) as (w & Lw & Hw). eauto. }
  destruct t as [| pnm e | | | |]; try discriminate; cbn in Et; subst.
  - apply has_type_pointer_inv in Hx as [-> | (s & -> & Hs)].
    + destruct (Hrec _ (has_type_zero (TyStruct snm tfs))) as (vs & w & E & Lw & Hw).
      exists vs, w. cbn [alloc behind]. rewrite E. eauto 10.
    + destruct (Hrec _ Hs) as (vs & w & -> & Lw & Hw).
      exists vs, w. cbn. eauto 10.
  - injection Et as -> ->. destruct (Hrec _ Hx) as (vs & w & -> & Lw & Hw).
    exists vs, w. cbn. auto 10.
Qed.

Lemma put_cons (t : type) (x : value) (i : nat) (rest : list nat) (n : value)
    (vs : list value) (w : value) (ft : type) :
  alloc t x = behind t (VStruct vs) -> vs !! i = Some w -> field_type t i = Some ft ->
  put t x (i :: rest) n = behind t (VStruct (<[i := put ft w rest n]> vs)).
Proof.
  intros Ea Lw Hft. cbn [put]. rewrite Hft.
  destruct t; cbn [behind] in *; rewrite Ea, ?Lw; reflexivity.
Qed.

Lemma view_cons (t : type) (x : value) (i : nat) (rest : list nat)
    (vs : list value) (w : value) (ft : type) :
  alloc t x = behind t (VStruct vs) -> vs !! i = Some w -> field_type t i = Some ft ->
  view t x (i :: rest) = view ft w rest.
Proof.
  intros Ea Lw Hft. cbn [view]. rewrite Hft.
  destruct t; cbn [behind] in *; rewrite Ea, ?Lw; reflexivity.
Qed.

Lemma store_path_cons (t : type) (i : nat) (rest : list nat) (ft : type) :
  field_type t i = Some ft ->
  store_path t (i :: rest) = deref_steps t ++ FieldAt i :: store_path ft rest.
Proof. intros Hft. cbn [store_path]. rewrite Hft. destruct t; reflexivity. Qed.

Lemma alloc_behind (t : type) (s : value) :
  (exists nm e, t = TyPointer nm e) \/ (exists vs, s = VStruct vs) ->
  alloc t (behind t s) = behind t s.
Proof.
  intros [(nm & e & ->) | (vs & ->)]; [reflexivity|]. destruct t; reflexivity.
Qed.

Lemma load_behind (t : type) (vs : list value) (i : nat) (w : value) :
  vs !! i = Some w ->
  load (behind t (VStruct vs)) (deref_steps t ++ [FieldAt i]) = Some w.
Proof. intros L. destruct t; cbn; now rewrite L. Qed.

Lemma store_behind (t : type) (vs : list value) (i : nat) (w n : value) :
  vs !! i = Some w ->
  store (behind t (VStruct vs)) (deref_steps t ++ [FieldAt i]) n
  = Some (behind t (VStruct (<[i := n]> vs))).
Proof. intros L. destruct t; cbn; now rewrite L. Qed.

Lemma view_typed (t t' : type) (ix : list nat) (fs : list StructField) :
  field_path t ix fs t' ->
  forall x, has_type t x = true ->
  exists y, view t x ix = Some y /\ has_type t' y = true.
Proof.
  induction 1 as [t | t snm tfs i f ix fs t' Et Li X _ IH]; intros x Hx; [eauto|].
  destruct (record_behind _ _ _ _ _ Et Li Hx) as (vs & w & Ea & _ & Lw & Hw & Hft).
  rewrite (view_cons _ _ _ _ _ _ _ Ea Lw Hft). auto.
Qed.

Lemma has_type_behind_insert {snm : tname} (t : type) (tfs : list StructField)
    (vs : list value) (i : nat) (f : StructField) (n : value) :
  t = TyStruct snm tfs \/ (exists pnm, t = TyPointer pnm (TyStruct snm tfs)) ->
  has_type t (behind t (VStruct vs)) = true ->
  tfs !! i = Some f -> has_type (Type_ f) n = true ->
  has_type t (behind t (VStruct (<[i := n]> vs))) = true.
Proof.
  intros Ht Hs Li Hn.
  assert (H : has_type (TyStruct snm tfs) (VStruct vs) = true)
    by (destruct Ht as [-> | (pnm & ->)]; exact Hs).
  assert (H' : has_type (TyStruct snm tfs) (VStruct (<[i := n]> vs)) = true).
  { apply has_type_struct. apply has_type_struct in H.
    rewrite <- (list_insert_id tfs i f Li). now apply Forall2_insert. }
  destruct Ht as [-> | (pnm & ->)]; exact H'.
Qed.

Lemma has_type_put (t t' : type) (ix : list nat) (fs : list StructField) :
  field_path t ix fs t' ->
  forall x n, has_type t x = true -> has_type t' n = true ->
  has_type t (put t x ix n) = true.
Proof.
  induction 1 as [t | t snm tfs i f ix fs t' Et Li X _ IH]; intros x n Hx Hn; [exact Hn|].
  destruct (record_behind _ _ _ _ _ Et Li Hx) as (vs & w & Ea & Ht & Lw & Hw & Hft).
  rewrite (put_cons _ _ _ _ _ _ _ _ Ea Lw Hft).
  eapply has_type_behind_insert; eauto.
  rewrite <- Ea. now apply has_type_alloc.
Qed.

Lemma load_put (t t' : type) (ix : list nat) (fs : list StructField) :
  field_path t ix fs t' ->
  forall x n, has_type t x = true ->
  load (put t x ix n) (store_path t ix) = Some n.
Proof.
  induction 1 as [t | t snm tfs i f ix fs t' Et Li X _ IH]; intros x n Hx; [reflexivity|].
  destruct (record_behind _ _ _ _ _ Et Li Hx) as (vs & w & Ea & Ht & Lw & Hw & Hft).
  rewrite (put_cons _ _ _ _ _ _ _ _ Ea Lw Hft), (store_path_cons _ _ _ _ Hft).
  change (FieldAt i :: store_path (Type_ f) ix)
    with ([FieldAt i] ++ store_path (Type_ f) ix).
  rewrite app_assoc, load_app.
  erewrite load_behind
    by (apply list_lookup_insert_eq; eapply lookup_lt_Some; eauto).
  auto.
Qed.

Lemma store_put (t t' : type) (ix : list nat) (fs : list StructField) :
  field_path t ix fs t' ->
  forall x n m, has_type t x = true ->
  store (put t x ix n) (store_path t ix) m = Some (put t x ix m).
Proof.
  induction 1 as [t | t snm tfs i f ix fs t' Et Li X _ IH]; intros x n m Hx; [reflexivity|].
  destruct (record_behind _ _ _ _ _ Et Li Hx) as (vs & w & Ea & Ht & Lw & Hw & Hft).
  rewrite !(put_cons _ _ _ _ _ _ _ _ Ea Lw Hft), (store_path_cons _ _ _ _ Hft).
  change (FieldAt i :: store_path (Type_ f) ix)
    with ([FieldAt i] ++ store_path (Type_ f) ix).
  assert (Li' : (<[i := put (Type_ f) w ix n]> vs) !! i = Some (put (Type_ f) w ix n))
    by (apply list_lookup_insert_eq; eapply lookup_lt_Some; eauto).
  rewrite app_assoc, store_app, (load_behind _ _ _ _ Li'), (IH _ n m Hw).
  rewrite (store_behind _ _ _ _ _ Li'). now rewrite list_insert_insert_eq.
Qed.

Lemma put_put (t t' : type) (ix : list nat) (fs : list StructField) :
  field_path t ix fs t' ->
  forall x n m, has_type t x = true ->
  put t (put t x ix n) ix m = put t x ix m.
Proof.
  induction 1 as [t | t snm tfs i f ix fs t' Et Li X _ IH]; intros x n m Hx; [reflexivity|].
  destruct (record_behind _ _ _ _ _ Et Li Hx) as (vs & w & Ea & Ht & Lw & Hw & Hft).
  rewrite !(put_cons _ _ _ _ _ _ _ _ Ea Lw Hft).
  assert (Li' : (<[i := put (Type_ f) w ix n]> vs) !! i = Some (put (Type_ f) w ix n))
    by (apply list_lookup_insert_eq; eapply lookup_lt_Some; eauto).
  erewrite put_cons; [| apply alloc_behind; right; eauto | exact Li' | exact Hft].
  now rewrite IH, list_insert_insert_eq.
Qed.

Lemma view_put (t t' : type) (ix : list nat) (fs : list StructField) :
  field_path t ix fs t' ->
  forall x n, has_type t x = true ->
  view t (put t x ix n) ix = Some n.
Proof.
  induction 1 as [t | t snm tfs i f ix fs t' Et Li X _ IH]; intros x n Hx; [reflexivity|].
  destruct (record_behind _ _ _ _ _ Et Li Hx) as (vs & w & Ea & Ht & Lw & Hw & Hft).
  rewrite !(put_cons _ _ _ _ _ _ _ _ Ea Lw Hft).
  assert (Li' : (<[i := put (Type_ f) w ix n]> vs) !! i = Some (put (Type_ f) w ix n))
    by (apply list_lookup_insert_eq; eapply lookup_lt_Some; eauto).
  erewrite view_cons; [| apply alloc_behind; right; eauto | exact Li' | exact Hft].
  auto.
Qed.

(** ** Cursors *)

Lemma bind_Ok {A B : Type} (m : M A) (k : A -> M B) (s s' : value) (a : A) :
  m s = Ok (a, s') -> bind m k s = k a s'.
Proof. unfold bind. now intros ->. Qed.

Lemma store_load_id (x y : value) (p : list step) :
  load x p = Some y -> store x p y = Some x.
Proof.
  revert x. induction p as [| [| i] p IH]; intros x; cbn.
  - congruence.
  - destruct x as [| | | | | | [w |] | | | | |]; try discriminate.
    intros H. now rewrite (IH _ H).
  - destruct x as [| | | | | | | | | vs | |]; try discriminate.
    destruct (vs !! i) as [w |] eqn:L; [|discriminate].
    intros H. rewrite (IH _ H). now rewrite list_insert_id.
Qed.

Lemma rv_read_cursor (t : type) (p : list step) (addr : bool) (s x : value) :
  load s p = Some x -> rv_read (cursor t p addr) s = Ok (x, s).
Proof. unfold rv_read. cbn. now intros ->. Qed.

Lemma not_pointer_kind (t : type) :
  (forall nm e, t <> TyPointer nm e) -> Kind_eqb (type_Kind t) KPointer = false.
Proof.
  intros H. destruct t as [? b | pnm e | | | |]; try reflexivity.
  - destruct b; reflexivity.
  - now destruct (H pnm e).
Qed.

Lemma allocIfNil_spec (t : type) (p : list step) (addr : bool) (s x : value) :
  load s p = Some x -> has_type t x = true ->
  (addr = true \/ exists w, x = VPtr (Some w)) ->
  exists s1, allocIfNil (cursor t p addr) s = Ok (tt, s1)
             /\ store s p (alloc t x) = Some s1.
Proof.
  intros L Hx Hset.
  destruct t as [? b | ? e | ? e | ? n e | ? k e | ? fs];
    try (unfold allocIfNil, rv_Kind; cbn [cursor rv_IsValid rv_loc rv_type];
         rewrite not_pointer_kind by discriminate; exists s; split;
         [reflexivity | now apply store_load_id]).
  unfold allocIfNil, rv_Kind, rv_IsNil, bind, rv_read. cbn. rewrite L.
  apply has_type_pointer_inv in Hx as [-> | (w & -> & Hw)].
  - destruct Hset as [-> | (w & [=])].
    destruct (store_defined s _ p (VPtr (Some (zero e))) L) as (s1 & E1).
    exists s1. split; [|exact E1].
    unfold ret, rv_Set, rv_CanSet, bind, rv_read.
    cbn [rv_type rv_loc rv_addr rv_ro cursor reflect_New type_Elem_M type_Elem
         rv_Type andb negb].
    rewrite directlyAssignable_pointer. cbn. now rewrite E1.
  - exists s. split; [reflexivity | now apply store_load_id].
Qed.

(** One iteration of the loop of [fieldByIndex]. *)
Lemma descend_spec {snm : tname} (t : type) (tfs : list StructField) (i : nat)
    (f : StructField) (p : list step) (addr : bool) (s x : value) :
  elemIfPtrType t = TyStruct snm tfs -> tfs !! i = Some f -> IsExported f = true ->
  load s p = Some x -> has_type t x = true ->
  (addr = true \/ exists w, x = VPtr (Some w)) ->
  exists (s1 : value) (vs : list value) (w : value),
    (let* v := (if Kind_eqb (rv_Kind (cursor t p addr)) KPointer
                then let* _ := allocIfNil (cursor t p addr) in rv_Elem (cursor t p addr)
                else ret (cursor t p addr)) in
     rv_Field v i) s
    = Ok (cursor (Type_ f) (p ++ deref_steps t ++ [FieldAt i]) true, s1)
    /\ store s p (alloc t x) = Some s1
    /\ alloc t x = behind t (VStruct vs)
    /\ vs !! i = Some w /\ has_type (Type_ f) w = true
    /\ field_type t i = Some (Type_ f).
Proof.
  intros Et Li X L Hx Hset.
  destruct (record_behind _ _ _ _ _ Et Li Hx) as (vs & w & Ea & Ht & Lw & Hw & Hft).
  destruct (allocIfNil_spec _ _ _ _ _ L Hx Hset) as (s1 & Ealloc & Est).
  exists s1, vs, w. repeat split; auto.
  pose proof (load_store _ _ _ _ Est) as L1. rewrite Ea in L1.
  destruct Ht as [-> | (pnm & ->)].
  - (* a record *)
    destruct Hset as [-> | (w' & ->)]; [|discriminate].
    cbn in Ea. subst x. cbn in Est. rewrite (store_load_id _ _ _ L) in Est.
    injection Est as <-.
    unfold rv_Kind, bind, ret, rv_Field, rv_read. cbn.
    rewrite Li. unfold bind, ret. rewrite L, Lw, X. reflexivity.
  - (* a pointer to a record *)
    unfold rv_Kind. cbn [cursor rv_IsValid rv_loc rv_type type_Kind Kind_eqb].
    unfold bind at 1. unfold bind at 1. rewrite Ealloc.
    unfold rv_Elem, bind, ret, rv_Field, rv_read. cbn in L1 |- *.
    rewrite L1. cbn. rewrite Li. unfold bind, ret. rewrite load_app, L1. cbn.
    rewrite Lw, X. cbn. unfold cursor.
    now rewrite <- app_assoc.
Qed.

(** The cursor [fieldByIndex] arrives at, and what it leaves in the bound
    structure: the value of the start position with the pointers on the
    way, and the one at the end, allocated. *)
Lemma fieldByIndex_loop_spec (t t' : type) (ix : list nat) (fs : list StructField) :
  field_path t ix fs t' ->
  forall (p : list step) (addr : bool) (s x : value),
    load s p = Some x -> has_type t x = true ->
    (addr = true \/ exists w, x = VPtr (Some w)) ->
    exists (y s' : value) (addr' : bool),
      view t x ix = Some y
      /\ (let* v := fieldByIndex_loop (cursor t p addr) ix in
          let* _ := allocIfNil v in ret v) s
         = Ok (cursor t' (p ++ store_path t ix) addr', s')
      /\ store s p (put t x ix (alloc t' y)) = Some s'
      /\ (ix <> [] -> addr' = true) /\ (ix = [] -> addr' = addr).
Proof.
  induction 1 as [t | t snm tfs i f ix fs t' Et Li X _ IH]; intros p addr s x L Hx Hset.
  - destruct (allocIfNil_spec _ _ _ _ _ L Hx Hset) as (s1 & Ealloc & Est).
    exists x, s1, addr.
    split; [reflexivity|]. split; [|split; [exact Est | split; congruence]].
    cbn [fieldByIndex_loop store_path]. rewrite app_nil_r.
    unfold bind at 1. unfold ret at 1. unfold bind. now rewrite Ealloc.
  - destruct (descend_spec _ _ _ _ p addr s x Et Li X L Hx Hset)
      as (s1 & vs & w & Estep & Est & Ea & Lw & Hw & Hft).
    assert (L1 : load s1 (p ++ deref_steps t ++ [FieldAt i]) = Some w).
    { rewrite load_app, (load_store _ _ _ _ Est), Ea. now apply load_behind. }
    destruct (IH _ true s1 w L1 Hw (or_introl eq_refl))
      as (y & s' & addr' & Ev & Erun & Est' & Hne & Hnil).
    assert (addr' = true) as ->
      by (destruct ix; [now apply Hnil | now apply Hne]).
    exists y, s', true.
    split; [|split; [|split; [|split; [reflexivity | discriminate]]]].
    + now rewrite (view_cons _ _ _ _ _ _ _ Ea Lw Hft).
    + cbn [fieldByIndex_loop].
      rewrite (store_path_cons _ _ _ _ Hft).
      change (FieldAt i :: store_path (Type_ f) ix)
        with ([FieldAt i] ++ store_path (Type_ f) ix).
      rewrite !app_assoc. rewrite <- (app_assoc p).
      unfold bind in Erun, Estep |- *.
      match type of Estep with
      | match ?a with _ => _ end = _ =>
          destruct a as [[v0 s0] |] eqn:EA; [|discriminate]
      end.
      rewrite Estep. exact Erun.
    + rewrite (put_cons _ _ _ _ _ _ _ _ Ea Lw Hft).
      rewrite store_app, (load_store _ _ _ _ Est), Ea in Est'.
      rewrite (store_behind _ _ _ _ _ Lw) in Est'.
      rewrite <- Est'. symmetry. eapply store_store. exact Est.
Qed.

(** ** Handles on a bound structure *)

Lemma bound_pointer (T : type) (s : value) :
  bound T s ->
  exists pnm T0 w, T = TyPointer pnm T0 /\ s = VPtr (Some w) /\ has_type T0 w = true.
Proof.
  intros [H (w & ->)]. destruct T as [? b | ? e | | | |]; try discriminate.
  - destruct b; discriminate.
  - eauto 10.
Qed.

Lemma node_of_base (T : type) (v : Value) :
  node_of T v ->
  base v = reflect_ValueOf T /\ encodeFn v = None /\ decodeFn v = None.
Proof. intros [H _]. apply newValue_fields in H. tauto. Qed.

Lemma found_from_node_of (T : type) (n : option Value) :
  found_from (reflect_ValueOf T) n -> exists v, n = Some v /\ node_of T v.
Proof.
  intros (v & -> & Hn & Hp). exists v. split; [reflexivity|]. split; [exact Hn|].
  unfold Value_typ. apply newValue_fields in Hn as (-> & _). exact Hp.
Qed.

(** ** What the discoverer finds *)

Lemma In_loop_fields {A : Type} (body : nat -> StructField -> list A)
    (rest : list StructField) (i j : nat) (f : StructField) (x : A) :
  rest !! j = Some f -> In x (body (i + j)%nat f) -> In x (loop_fields body rest i).
Proof.
  revert i j. induction rest as [| g rest IH]; intros i j L Hin; [discriminate|].
  cbn [loop_fields]. apply in_or_app. destruct j as [| j].
  - injection L as ->. rewrite Nat.add_0_r in Hin. now left.
  - right. apply (IH (S i) j L). now rewrite Nat.add_succ_comm.
Qed.

Lemma In_loop_fields_inv {A : Type} (body : nat -> StructField -> list A)
    (rest : list StructField) (i : nat) (x : A) :
  In x (loop_fields body rest i) ->
  exists j f, rest !! j = Some f /\ In x (body (i + j)%nat f).
Proof.
  revert i. induction rest as [| g rest IH]; intros i Hin; [destruct Hin|].
  cbn [loop_fields] in Hin. apply in_app_or in Hin as [Hin | Hin].
  - exists 0%nat, g. rewrite Nat.add_0_r. auto.
  - destruct (IH _ Hin) as (j & f & L & Hj). exists (S j), f.
    rewrite <- Nat.add_succ_comm. auto.
Qed.

(** Every handle on a path of exported fields that the votes admit is in
    the result. *)
Lemma recursive_at_complete (b : reflect_Value) (filters : list FilterFunc)
    (v : Value) (t t' : type) (jx : list nat) (gs : list StructField) :
  field_path t jx gs t' ->
  forall (ix : list nat) (fs : list StructField),
    newValue b (ix ++ jx) (fs ++ gs) = Some v ->
    admitted_below b filters ix fs jx gs ->
    In (Some v) (recursive_at t b ix fs filters).
Proof.
  induction 1 as [t | t snm tfs j f jx gs t' Et Lj X _ IH];
    intros ix fs Hnew [Hskip Hdesc]; rewrite recursive_at_eq; cbn zeta.
  - rewrite !app_nil_r in Hnew, Hskip. rewrite Hnew in Hskip |- *.
    rewrite Hskip. cbn [N.eqb].
    destruct (negb _); [now left|].
    destruct (elemIfPtrType t); now left.
  - pose proof (Hdesc 0%nat ltac:(cbn; lia)) as H0. cbn [take] in H0.
    rewrite !app_nil_r in H0. rewrite H0. cbn [N.eqb negb]. rewrite Et.
    apply in_or_app. right.
    eapply (In_loop_fields _ tfs 0 j f); [exact Lj|]. cbn [Nat.add].
    rewrite X. cbn [negb].
    apply IH.
    + now rewrite <- !app_assoc.
    + split; [now rewrite <- !app_assoc|].
      intros k Hk. rewrite <- !app_assoc. cbn [app].
      apply (Hdesc (S k)). cbn. lia.
Qed.

(** Every handle in the result was admitted by the votes. *)
Lemma recursive_at_admitted (t : type) :
  forall (b : reflect_Value) (ix : list nat) (fs : list StructField)
         (filters : list FilterFunc) (v : Value),
    In (Some v) (recursive_at t b ix fs filters) ->
    exists (jx : list nat) (gs : list StructField),
      fieldsIndexes v = ix ++ jx /\ fields v = fs ++ gs
      /\ length jx = length gs
      /\ admitted_below b filters ix fs jx gs.
Proof.
  induction t as [t IH] using position_ind.
  intros b ix fs filters v Hin0. pose proof Hin0 as Hin.
  rewrite recursive_at_eq in Hin. cbn zeta in Hin.
  assert (Hown : In (Some v)
                    (if N.eqb (N.land (Filter (newValue b ix fs) filters) skipMask) 0
                     then [newValue b ix fs] else []) ->
                 exists jx gs, fieldsIndexes v = ix ++ jx /\ fields v = fs ++ gs
                               /\ length jx = length gs
                               /\ admitted_below b filters ix fs jx gs).
  { clear Hin. intros H.
    destruct (N.eqb (N.land (Filter (newValue b ix fs) filters) skipMask) 0) eqn:E;
      [|destruct H].
    destruct H as [H | []]. apply N.eqb_eq in E.
    destruct (newValue_fields _ _ _ _ H) as (_ & Ei & Ef & _).
    exists [], []. rewrite !app_nil_r. split; [exact Ei|]. split; [exact Ef|].
    split; [reflexivity|]. split; [now rewrite !app_nil_r | cbn; intros; lia]. }
  destruct (N.eqb (N.land (Filter (newValue b ix fs) filters) noDescendMask) 0) eqn:Ed;
    cbn [negb] in Hin; [|auto].
  apply N.eqb_eq in Ed.
  destruct (elemIfPtrType t) as [| | | | | snm tfs] eqn:Et; auto.
  apply in_app_or in Hin as [Hin | Hin]; [auto|].
  apply In_loop_fields_inv in Hin as (j & f & Lj & Hin). cbn [Nat.add] in Hin.
  destruct (IsExported f); cbn [negb] in Hin; [|destruct Hin].
  assert (Hf : In f tfs) by (apply list_elem_of_In; eapply list_elem_of_lookup_2; eauto).
  destruct (IH snm tfs f eq_refl Hf _ _ _ _ _ Hin)
    as (jx & gs & Ei & Ef & Len & Hskip & Hdesc).
  exists (j :: jx), (f :: gs).
  rewrite <- (app_assoc ix) in Ei, Hskip. rewrite <- (app_assoc fs) in Ef, Hskip.
  cbn [app] in Ei, Ef, Hskip.
  split; [exact Ei|]. split; [exact Ef|]. split; [cbn; now rewrite Len|].
  split; [exact Hskip|].
  intros [| k] Hk; cbn [take].
  - now rewrite !app_nil_r.
  - specialize (Hdesc k ltac:(cbn in Hk; lia)).
    rewrite <- (app_assoc ix), <- (app_assoc fs) in Hdesc. exact Hdesc.
Qed.

(** The positions on a path of records have a handle. *)
Lemma newValue_on_path (T t' : type) (ix : list nat) (fs : list StructField) :
  field_path T ix fs t' ->
  forall k : nat, (k < length ix)%nat ->
    exists w, newValue (reflect_ValueOf T) (take k ix) (take k fs) = Some w.
Proof.
  intros Hp k Hk.
  assert (Hpre : forall (T0 t0 : type) (ix0 : list nat) (fs0 : list StructField),
             field_path T0 ix0 fs0 t0 ->
             forall k, (k < length ix0)%nat ->
             exists snm tfs,
               elemIfPtrType (match last (take k fs0) with
                              | Some f => Type_ f
                              | None => T0
                              end) = TyStruct snm tfs).
  { clear. induction 1 as [t | t snm tfs i f ix fs t' Et Li X Hrest IH]; intros k Hk;
      [cbn in Hk; lia|].
    destruct k as [| k]; [exists snm, tfs; exact Et|].
    cbn [take]. cbn in Hk. destruct (IH k ltac:(lia)) as (snm' & tfs' & E).
    exists snm', tfs'. destruct (take k fs) as [| g l] eqn:Etk.
    - cbn in E |- *. destruct k as [| k].
      + cbn in E. inversion Hrest; subst; [cbn in Hk; lia|]. exact E.
      + destruct fs; [inversion Hrest; subst; cbn in Hk; lia | discriminate].
    - rewrite last_cons. rewrite <- Etk in E |- *.
      destruct (last (take k fs)) eqn:El; [exact E|].
      rewrite Etk in El. apply last_None in El. discriminate. }
  destruct (Hpre _ _ _ _ Hp k Hk) as (snm & tfs & E).
  unfold newValue, position_type. cbn [rv_type reflect_ValueOf].
  rewrite E. cbn. eauto.
Qed.

Lemma Recursive_eq (T : type) (s : value) (filters : list FilterFunc) :
  unusable_root T s = false ->
  Recursive (Some (T, s)) filters
  = recursive_at T (reflect_ValueOf T) [] [] filters.
Proof. intros H. unfold Recursive. rewrite H. reflexivity. Qed.

(** What is in the result of [Recursive]: the handles of the positions
    on a path of exported fields from the root that have a codec and
    that the votes admit; with no filter, all of them. *)
Lemma Recursive_membership (T : type) (s : value) (v : Value) :
  unusable_root T s = false ->
  (forall filters : list FilterFunc,
      In (Some v) (Recursive (Some (T, s)) filters)
      <-> node_of T v
          /\ admitted_below (reflect_ValueOf T) filters [] []
                            (fieldsIndexes v) (fields v))
  /\ (In (Some v) (Recursive (Some (T, s)) []) <-> node_of T v).
Proof.
  intros Hroot.
  assert (Hmem : forall filters : list FilterFunc,
             In (Some v) (Recursive (Some (T, s)) filters)
             <-> node_of T v
                 /\ admitted_below (reflect_ValueOf T) filters [] []
                                   (fieldsIndexes v) (fields v)).
  { intros filters. rewrite (Recursive_eq _ _ _ Hroot). split.
    - intros Hin. split.
      + pose proof (recursive_at_found T (reflect_ValueOf T) [] [] filters
                      (field_path_nil T) eq_refl _ Hin) as F.
        apply found_from_node_of in F as (v' & [= <-] & Hn). exact Hn.
      + destruct (recursive_at_admitted T _ _ _ _ _ Hin)
          as (jx & gs & Ei & Ef & _ & Ha).
        cbn [app] in Ei, Ef. rewrite Ei, Ef. exact Ha.
    - intros [[Hnew Hp] Ha].
      eapply recursive_at_complete; [exact Hp | exact Hnew | exact Ha]. }
  split; [exact Hmem|].
  rewrite Hmem. split; [intros [Hn _]; exact Hn|].
  intros Hn. split; [exact Hn|]. destruct Hn as [Hnew Hp].
  split; cbn [app].
  - rewrite Hnew. reflexivity.
  - intros k Hk. destruct (newValue_on_path _ _ _ _ Hp k Hk) as (w & ->).
    reflexivity.
Qed.

(** C7: the result of [Recursive] is in pre-order, and it is complete.
    The index paths of the handles are strictly increasing in the order
    in which a path precedes its extensions (a record before its
    descendants) and, below the same record, the subtree of a field
    precedes the subtree of every field declared after it.  Every handle
    in the result is non-nil, is the one the dispatch builds for its
    path, and its path leads from the root through exported fields only,
    whatever the filters.  On a root that [Recursive] accepts, a handle is
    in the result exactly when it is the handle of a position on a path
    of exported fields that the votes admit: no vote has the skip bit on
    it and none has the no-descend bit on a position above it; with no
    filter the result holds the handle of every such position. *)
Theorem C7_Recursive_preorder (t : type) (x : value) (filters : list FilterFunc) :
  StronglySorted path_lt
    (List.map Value_fieldsIndexes (Recursive (Some (t, x)) filters))
  /\ (forall n, In n (Recursive (Some (t, x)) filters) ->
      exists v : Value,
        n = Some v
        /\ newValue (reflect_ValueOf t) (fieldsIndexes v) (fields v) = Some v
        /\ field_path t (fieldsIndexes v) (fields v)
                      (position_type (reflect_ValueOf t) (fields v))
        /\ Forall (fun f => IsExported f = true) (fields v))
  /\ (unusable_root t x = false ->
      forall v : Value,
        (In (Some v) (Recursive (Some (t, x)) filters)
         <-> node_of t v
             /\ admitted_below (reflect_ValueOf t) filters [] []
                               (fieldsIndexes v) (fields v))
        /\ (In (Some v) (Recursive (Some (t, x)) []) <-> node_of t v))
  /\ (forall (p s : list nat) (i : nat), path_lt p (p ++ i :: s))
  /\ (forall (p s s' : list nat) (i j : nat),
        (i < j)%nat -> path_lt (p ++ i :: s) (p ++ j :: s')).
Proof.
  split; [|split; [|split; [|split; [apply path_lt_extension | apply path_lt_sibling]]]].
  - unfold Recursive. destruct (unusable_root t x); [constructor|].
    unfold recursive.
    destruct (recursive_at_sorted (position_type (reflect_ValueOf t) [])
                (reflect_ValueOf t) [] [] filters) as (sufs & E & S).
    rewrite E. cbn. now rewrite List.map_id.
  - intros n Hin. unfold Recursive in Hin.
    destruct (unusable_root t x); [destruct Hin|].
    unfold recursive in Hin.
    apply recursive_at_found in Hin as (v & -> & Hv & Hp);
      [| constructor | reflexivity].
    exists v. repeat split; auto.
    eapply field_path_exported, Hp.
  - intros Hroot v.
    destruct (Recursive_membership t x v Hroot) as [Hmem Hall].
    split; [apply Hmem | exact Hall].
Qed.

(** [val.get()] never panics on a bound structure: it returns the cursor
    on the place of the handle, and leaves the pointers on the way to it,
    and the one at it, allocated. *)
Lemma Value_get_spec (T : type) (s : value) (v : Value) :
  bound T s -> node_of T v ->
  exists (y : value) (addr : bool),
    view T s (fieldsIndexes v) = Some y
    /\ has_type (Value_typ v) y = true
    /\ Value_get v s
       = Ok (cursor (Value_typ v) (store_path T (fieldsIndexes v)) addr,
             put T s (fieldsIndexes v) (alloc (Value_typ v) y))
    /\ (addr = true \/ (fieldsIndexes v = [] /\ Value_typ v = T))
    /\ addr = negb (at_root v).
Proof.
  intros Hb Hn. destruct (node_of_base _ _ Hn) as (Eb & _).
  destruct Hn as [Hnew Hp].
  destruct Hb as [Ht (w0 & ->)].
  destruct (fieldByIndex_loop_spec _ _ _ _ Hp [] false _ _ eq_refl Ht
              (or_intror (ex_intro _ w0 eq_refl)))
    as (y & s' & addr & Ev & Erun & Est & Hne & Hnil).
  destruct (view_typed _ _ _ _ Hp _ Ht) as (y' & Ev' & Hy).
  rewrite Ev in Ev'. injection Ev' as <-.
  cbn [store] in Est. injection Est as <-.
  exists y, addr. split; [exact Ev|]. split; [exact Hy|]. split; [|split].
  - unfold Value_get. rewrite Eb.
    change (reflect_ValueOf T) with (cursor T [] false).
    unfold fieldByIndex.
    destruct (fieldsIndexes v) as [| i ix] eqn:Eix.
    + exact Erun.
    + inversion Hp as [| ? ? tfs ? f ? ? ? Et Li X Hrest]; subst.
      assert (ET : exists pnm T0, T = TyPointer pnm T0).
      { destruct T as [? b | ? e | | | |]; try discriminate; eauto. }
      destruct ET as (pnm & T0 & ->). cbn in Et. subst T0.
      exact Erun.
  - destruct (fieldsIndexes v) as [| i ix] eqn:Eix.
    + right. split; [reflexivity|].
      inversion Hp; subst. reflexivity.
    + left. apply Hne. discriminate.
  - unfold at_root. destruct (fieldsIndexes v) as [| i ix] eqn:Eix.
    + now apply Hnil.
    + apply Hne. discriminate.
Qed.

(** Running a computation: unfold the monad and the primitive operations
    of a cursor, then rewrite with what is known of the store. *)
Ltac munfold :=
  unfold bind, ret, panic, rv_read, rv_Kind, rv_CanSet, rv_CanAddr, rv_IsNil,
    rv_Elem, rv_Set, rv_Interface, rv_Len, rv_Addr, rv_Type, type_Elem_M,
    addressable, cursor.
Ltac mrun tac := repeat first [progress tac | progress munfold | progress cbn].

#[local] Arguments type_eqb : simpl never.
#[local] Arguments directlyAssignable : simpl never.
#[local] Arguments Kind_eqb : simpl nomatch.

Lemma alloc_nonnil {nm : tname} (e : type) (y : value) :
  has_type (TyPointer nm e) y = true ->
  exists w, alloc (TyPointer nm e) y = VPtr (Some w) /\ has_type e w = true.
Proof.
  intros H. apply has_type_pointer_inv in H as [-> | (w & -> & Hw)]; cbn; eauto.
  eexists; split; [reflexivity | apply has_type_zero].
Qed.

(** [elemIfPtr] of a cursor on a place that holds no nil pointer. *)
Lemma elemIfPtr_cursor (t : type) (p : list step) (addr : bool) (s y : value) :
  load s p = Some y ->
  (forall nm e, t = TyPointer nm e -> exists w, y = VPtr (Some w)) ->
  elemIfPtr (cursor t p addr) s
  = Ok (cursor (elemIfPtrType t) (p ++ deref_steps t)
               (match t with TyPointer _ _ => true | _ => addr end), s)
  /\ load s (p ++ deref_steps t) = Some (pointee t y).
Proof.
  intros L Hnn. destruct t as [? b | ? e | ? e | ? n e | ? k e | ? fs];
    try (unfold elemIfPtr, rv_Kind; cbn [cursor rv_IsValid rv_loc rv_type];
         rewrite not_pointer_kind by discriminate; cbn; rewrite app_nil_r;
         split; [reflexivity | exact L]).
  destruct (Hnn _ e eq_refl) as (w & ->).
  unfold elemIfPtr. mrun ltac:(rewrite L).
  split; [reflexivity|]. rewrite load_app, L. reflexivity.
Qed.

(** [reflectValueSet] on a cursor that is settable or a pointer, from a
    temporary that holds the new value or a pointer to it: when the type
    of the temporary is assignable, the place afterwards holds the new
    value, behind a pointer if it is one; when it is not, [reflect.Set]
    panics. *)
Lemma reflectValueSet_gen (t ty : type) (p : list step) (addr : bool)
    (s y n : value) (src : reflect_Value) :
  (forall nm e, elemIfPtrType t <> TyPointer nm e) ->
  (forall nm e, ty <> TyPointer nm e) ->
  load s p = Some y ->
  (forall nm e, t = TyPointer nm e -> exists w, y = VPtr (Some w)) ->
  (addr = true \/ exists nm e, t = TyPointer nm e) ->
  (exists a, src = mkRV ty (Temp n) a false
             \/ src = mkRV (TPointer ty) (Temp (VPtr (Some n))) a false) ->
  exists s', store s p (behind t n) = Some s'
    /\ reflectValueSet (cursor t p addr) src s
       = if installable t addr ty then Ok (tt, s')
         else Panic "reflect.Set: value is not assignable to type".
Proof.
  intros Hte Hty L Hnn Hset (a & Hsrc).
  assert (Kte : Kind_eqb (type_Kind (elemIfPtrType t)) KPointer = false)
    by (apply not_pointer_kind, Hte).
  assert (Kty : Kind_eqb (type_Kind ty) KPointer = false)
    by (apply not_pointer_kind, Hty).
  destruct (store_defined s y p (behind t n) L) as (s' & Es).
  exists s'. split; [exact Es|].
  destruct t as [? b | ? e | ? e | ? k e | ? k e | ? fs];
    cbn [elemIfPtrType behind type_Kind installable] in *.
  all: try (destruct Hset as [-> | (nm' & e' & [=])];
            destruct Hsrc as [-> | ->];
            unfold reflectValueSet;
            mrun ltac:(rewrite ?Kte, ?Kty, ?Kind_eqb_refl, ?Es);
            destruct (directlyAssignable _ _);
            mrun ltac:(rewrite ?Es); reflexivity).
  destruct (Hnn _ e eq_refl) as (w & ->).
  assert (Es' : store s (p ++ [Deref]) n = Some s')
    by (rewrite store_app, L; cbn; exact Es).
  destruct addr, a; destruct Hsrc as [-> | ->]; unfold reflectValueSet;
    mrun ltac:(rewrite ?Kte, ?Kty, ?Kind_eqb_refl, ?L, ?Es, ?Es');
    destruct (directlyAssignable _ _);
    mrun ltac:(rewrite ?L, ?Es, ?Es'); reflexivity.
Qed.

Lemma installable_same (t : type) (addr : bool) :
  installable t addr (elemIfPtrType t) = true.
Proof.
  destruct t; cbn [installable elemIfPtrType];
    try apply directlyAssignable_refl.
  destruct addr; [apply directlyAssignable_pointer | apply directlyAssignable_refl].
Qed.

Lemma reflectValueSet_spec (t : type) (p : list step) (addr : bool) (s y n : value)
    (src : reflect_Value) :
  (forall nm e, elemIfPtrType t <> TyPointer nm e) ->
  load s p = Some y ->
  (forall nm e, t = TyPointer nm e -> exists w, y = VPtr (Some w)) ->
  (addr = true \/ exists nm e, t = TyPointer nm e) ->
  (exists a, src = mkRV (elemIfPtrType t) (Temp n) a false
             \/ src = mkRV (TPointer (elemIfPtrType t)) (Temp (VPtr (Some n))) a false) ->
  exists s', reflectValueSet (cursor t p addr) src s = Ok (tt, s')
             /\ store s p (behind t n) = Some s'.
Proof.
  intros Hte L Hnn Hset Hsrc.
  destruct (reflectValueSet_gen t (elemIfPtrType t) p addr s y n src
              Hte Hte L Hnn Hset Hsrc) as (s' & Es & E).
  rewrite installable_same in E. eauto.
Qed.


Lemma has_type_behind (t : type) (m : value) :
  has_type (elemIfPtrType t) m = true -> has_type t (behind t m) = true.
Proof. destruct t; auto. Qed.


Lemma bound_put (T t' : type) (s n : value) (ix : list nat) (fs : list StructField) :
  bound T s -> field_path T ix fs t' -> has_type t' n = true ->
  (ix = [] -> exists w, n = VPtr (Some w)) ->
  bound T (put T s ix n).
Proof.
  intros Hb Hp Hn Hnil. pose proof Hb as [Ht _].
  split; [eapply has_type_put; eauto|].
  destruct (bound_pointer _ _ Hb) as (pnm0 & T0 & w & -> & -> & Hw).
  inversion Hp as [| ? ? tfs i f ix' fs' ? Et Li X Hrest]; subst.
  - cbn. auto.
  - destruct (record_behind _ _ _ _ _ Et Li Ht) as (vs & w' & Ea & _ & Lw & _ & Hft).
    rewrite (put_cons _ _ _ _ _ _ _ _ Ea Lw Hft). cbn. eauto.
Qed.

(** The state after [val.get()], and what the place then holds. *)
Lemma after_get (T : type) (s : value) (v : Value) (y : value) :
  bound T s -> node_of T v -> view T s (fieldsIndexes v) = Some y ->
  has_type (Value_typ v) y = true ->
  load (put T s (fieldsIndexes v) (alloc (Value_typ v) y))
       (store_path T (fieldsIndexes v))
  = Some (alloc (Value_typ v) y)
  /\ (forall nm e, Value_typ v = TyPointer nm e ->
      exists w, alloc (Value_typ v) y = VPtr (Some w))
  /\ bound T (put T s (fieldsIndexes v) (alloc (Value_typ v) y)).
Proof.
  intros Hb [Hnew Hp] Ev Hy. pose proof Hb as [Ht _].
  split; [eapply load_put; eauto|].
  assert (Hnn : forall nm e, Value_typ v = TyPointer nm e ->
                exists w, alloc (Value_typ v) y = VPtr (Some w)).
  { intros nm e E. rewrite E in Hy |- *.
    destruct (alloc_nonnil _ _ Hy) as (w & -> & _). eauto. }
  split; [exact Hnn|].
  eapply bound_put; eauto; [now apply has_type_alloc|].
  intros Eix. rewrite Eix in Hp. inversion Hp; subst.
  destruct (bound_pointer _ _ Hb) as (pnm0 & T0 & w & E & _). eauto.
Qed.

(** Reading through a handle: [elemIfPtr(val.get())] is a cursor on the
    value behind the place, which is the [target] of the handle. *)
Lemma node_read (T : type) (s : value) (v : Value) :
  bound T s -> node_of T v ->
  exists (y : value) (addr : bool),
    view T s (fieldsIndexes v) = Some y
    /\ has_type (Value_typ v) y = true
    /\ (forall (B : Type) (k : reflect_Value -> M B),
          (let* x := Value_get v in let* e := elemIfPtr x in k e) s
          = k (cursor (elemIfPtrType (Value_typ v))
                      (store_path T (fieldsIndexes v) ++ deref_steps (Value_typ v))
                      addr)
              (put T s (fieldsIndexes v) (alloc (Value_typ v) y)))
    /\ load (put T s (fieldsIndexes v) (alloc (Value_typ v) y))
            (store_path T (fieldsIndexes v) ++ deref_steps (Value_typ v))
       = Some (target (Value_typ v) y).
Proof.
  intros Hb Hn.
  destruct (Value_get_spec _ _ _ Hb Hn) as (y & addr & Ev & Hy & Eget & _).
  destruct (after_get _ _ _ _ Hb Hn Ev Hy) as (L & Hnn & _).
  destruct (elemIfPtr_cursor _ _ addr _ _ L Hnn) as (Ee & Lt).
  exists y. eexists. split; [exact Ev|]. split; [exact Hy|]. split; [|exact Lt].
  intros B k. unfold bind. rewrite Eget, Ee. reflexivity.
Qed.

(** Writing through a handle: [reflectValueSet(val.get(), src)] for a
    temporary [src] that holds [n], or a pointer to it, leaves [n] at the
    place of the handle, behind a pointer if the place is one. *)
Lemma node_install_gen (T : type) (s n : value) (v : Value) (ty : type)
    (src : reflect_Value) :
  bound T s -> node_of T v ->
  (forall nm e, elemIfPtrType (Value_typ v) <> TyPointer nm e) ->
  (forall nm e, ty <> TyPointer nm e) ->
  (exists a, src = mkRV ty (Temp n) a false
             \/ src = mkRV (TPointer ty) (Temp (VPtr (Some n))) a false) ->
  (let* x := Value_get v in reflectValueSet x src) s
  = if installable (Value_typ v) (negb (at_root v)) ty
    then Ok (tt, put T s (fieldsIndexes v) (behind (Value_typ v) n))
    else Panic "reflect.Set: value is not assignable to type".
Proof.
  intros Hb Hn Hte Hty Hsrc.
  destruct (Value_get_spec _ _ _ Hb Hn) as (y & addr & Ev & Hy & Eget & Haddr & Eaddr).
  destruct (after_get _ _ _ _ Hb Hn Ev Hy) as (L & Hnn & _).
  assert (Hset : addr = true \/ exists nm e, Value_typ v = TyPointer nm e).
  { destruct Haddr as [-> | [_ E]]; [auto|]. right.
    destruct (bound_pointer _ _ Hb) as (pnm0 & T0 & w & -> & _). eauto. }
  destruct (reflectValueSet_gen _ ty _ addr _ _ n src Hte Hty L Hnn Hset Hsrc)
    as (s' & Est & Eset).
  unfold bind. rewrite Eget, Eset, <- Eaddr.
  destruct (installable _ _ _); [|reflexivity]. f_equal. f_equal.
  destruct Hn as [_ Hp]. destruct Hb as [Ht _].
  rewrite (store_put _ _ _ _ Hp _ _ _ Ht) in Est. congruence.
Qed.

Lemma node_install (T : type) (s n : value) (v : Value) (src : reflect_Value) :
  bound T s -> node_of T v ->
  (forall nm e, elemIfPtrType (Value_typ v) <> TyPointer nm e) ->
  (exists a, src = mkRV (elemIfPtrType (Value_typ v)) (Temp n) a false
             \/ src = mkRV (TPointer (elemIfPtrType (Value_typ v)))
                           (Temp (VPtr (Some n))) a false) ->
  (let* x := Value_get v in reflectValueSet x src) s
  = Ok (tt, put T s (fieldsIndexes v) (behind (Value_typ v) n)).
Proof.
  intros Hb Hn Hte Hsrc.
  rewrite (node_install_gen T s n v _ src Hb Hn Hte Hte Hsrc).
  now rewrite installable_same.
Qed.

(** ** Calls through a handle *)

Lemma node_position (T : type) (v : Value) :
  node_of T v -> position_type (reflect_ValueOf T) (fields v) = Value_typ v.
Proof.
  intros Hn. destruct (node_of_base _ _ Hn) as (Eb & _).
  unfold Value_typ. now rewrite Eb.
Qed.

Section Calls.
Context {lib : GoLib}.

Lemma Value_String_node (T : type) (v : Value) (f : StringFn) :
  node_of T v -> stringFn v = Some f ->
  Value_String (Some v) = call_stringFn f v.
Proof.
  intros Hn Hf. destruct (node_of_base _ _ Hn) as (Eb & Ee & _).
  unfold Value_String, isInitialized. now rewrite Eb, Ee, Hf.
Qed.

Lemma Value_Set_node (T : type) (v : Value) (f : SetFn) (to : string) :
  node_of T v -> setFn v = Some f ->
  Value_Set (Some v) to = call_setFn f v to.
Proof.
  intros Hn Hf. destruct (node_of_base _ _ Hn) as (Eb & _ & Ed).
  unfold Value_Set, isInitialized. now rewrite Eb, Ed, Hf.
Qed.

Lemma Value_Get_node (T : type) (s : value) (v : Value) :
  bound T s -> node_of T v ->
  exists y,
    view T s (fieldsIndexes v) = Some y
    /\ has_type (Value_typ v) y = true
    /\ Value_Get (Some v) s
       = Ok (Some (Value_typ v, alloc (Value_typ v) y),
             put T s (fieldsIndexes v) (alloc (Value_typ v) y)).
Proof.
  intros Hb Hn. destruct (node_of_base _ _ Hn) as (Eb & _).
  destruct (Value_get_spec _ _ _ Hb Hn) as (y & addr & Ev & Hy & Eget & _).
  destruct (after_get _ _ _ _ Hb Hn Ev Hy) as (L & _).
  exists y. split; [exact Ev|]. split; [exact Hy|].
  unfold Value_Get, isInitialized. rewrite Eb. cbn [rv_IsValid reflect_ValueOf rv_loc negb].
  unfold bind. rewrite Eget. unfold rv_Interface, bind.
  rewrite (rv_read_cursor _ _ _ _ _ L). reflexivity.
Qed.

Lemma degenerate_In (text : string) :
  degenerate text = true <-> In text degenerate_literals.
Proof.
  unfold degenerate. rewrite existsb_exists. split.
  - intros (x & Hx & E). apply String.eqb_eq in E. now subst.
  - intros H. exists text. split; [exact H | apply String.eqb_refl].
Qed.

(** C8: for a record node on a bound structure, [String()] marshals the
    value at the place of the node (allocated if it was a nil pointer);
    when the marshaled text is one of [{}], [[]], the empty JSON string,
    [0] and [false] it returns the empty string, and any other marshaled
    text it returns unchanged. *)
Theorem C8_record_String (T : type) (s : value) (v : Value) :
  bound T s -> node_of T v ->
  type_Kind (elemIfPtrType (Value_typ v)) = KStruct ->
  exists (y : value) (str : string),
    view T s (fieldsIndexes v) = Some y
    /\ Value_String (Some v) s
       = Ok (str, put T s (fieldsIndexes v) (alloc (Value_typ v) y))
    /\ forall text : string,
         json_Marshal (Value_typ v) (alloc (Value_typ v) y) = (text, ErrNil) ->
         (In text degenerate_literals -> str = "")
         /\ (~ In text degenerate_literals -> str = text).
Proof.
  intros Hb Hn Hk. pose proof Hn as [Hnew _].
  unfold newValue in Hnew. rewrite (node_position _ _ Hn), Hk in Hnew.
  assert (Hf : stringFn v = Some fn_structValueString)
    by (injection Hnew as <-; reflexivity).
  rewrite (Value_String_node _ _ _ Hn Hf). cbn [call_stringFn].
  destruct (Value_get_spec _ _ _ Hb Hn) as (y & addr & Ev & Hy & Eget & _).
  destruct (after_get _ _ _ _ Hb Hn Ev Hy) as (L & _).
  exists y.
  exists (let (b, err) := json_Marshal (Value_typ v) (alloc (Value_typ v) y) in
          if negb (is_nil_error err) then ""
          else if degenerate b then "" else b).
  split; [exact Ev|]. split.
  - unfold structValueString, bind. rewrite Eget. unfold rv_Interface, bind.
    rewrite (rv_read_cursor _ _ _ _ _ L). unfold ret. cbn [fst snd].
    destruct (json_Marshal _ _) as [b err].
    destruct (negb (is_nil_error err)); [reflexivity|].
    unfold degenerate, degenerate_literals. cbn [existsb].
    rewrite orb_false_r, !orb_assoc. destruct (_ || _); reflexivity.
  - intros text E. rewrite E. cbn [is_nil_error negb].
    split; intros H.
    + apply degenerate_In in H. now rewrite H.
    + destruct (degenerate text) eqn:D; [|reflexivity].
      apply degenerate_In in D. contradiction.
Qed.

Lemma has_type_target (t : type) (y : value) :
  has_type t y = true -> has_type (elemIfPtrType t) (target t y) = true.
Proof.
  intros H. unfold target. destruct t as [| ? e | | | |]; try exact H.
  destruct (alloc_nonnil _ _ H) as (w & -> & Hw). exact Hw.
Qed.

(** C10: for a map node on a bound structure, [String()] returns the
    empty string when the map behind the place is nil or has no entry
    (a nil pointer to a map counts as a nil map); a text that is not
    empty is returned only for a map with at least one entry, and it is
    then the marshaled JSON of the map. *)
Theorem C10_map_String (T : type) (s : value) (v : Value) :
  bound T s -> node_of T v ->
  type_Kind (elemIfPtrType (Value_typ v)) = KMap ->
  exists (y : value) (m : option (list (value * value))) (str : string),
    view T s (fieldsIndexes v) = Some y
    /\ target (Value_typ v) y = VMap m
    /\ Value_String (Some v) s
       = Ok (str, put T s (fieldsIndexes v) (alloc (Value_typ v) y))
    /\ (length (default [] m) = 0%nat -> str = "")
    /\ (str <> "" ->
        (0 < length (default [] m))%nat
        /\ json_Marshal (elemIfPtrType (Value_typ v)) (VMap m) = (str, ErrNil))
    /\ (forall text : string,
          (0 < length (default [] m))%nat ->
          json_Marshal (elemIfPtrType (Value_typ v)) (VMap m) = (text, ErrNil) ->
          str = text).
Proof.
  intros Hb Hn Hk. pose proof Hn as [Hnew _].
  unfold newValue in Hnew. rewrite (node_position _ _ Hn), Hk in Hnew.
  assert (Hf : stringFn v = Some fn_mapValueString)
    by (injection Hnew as <-; reflexivity).
  rewrite (Value_String_node _ _ _ Hn Hf). cbn [call_stringFn].
  destruct (node_read _ _ _ Hb Hn) as (y & addr & Ev & Hy & Erun & L).
  pose proof (has_type_target _ _ Hy) as Ht.
  destruct (elemIfPtrType (Value_typ v)) as [? b | | | | mnm k e |] eqn:Ete;
    try discriminate; [destruct b; discriminate|].
  destruct (target (Value_typ v) y) as [| | | | | | | | m | | |] eqn:Etg;
    try discriminate.
  exists y, m.
  exists (if Nat.eqb (length (default [] m)) 0 then ""
          else let (b, err) := json_Marshal (TyMap mnm k e) (VMap m) in
               if negb (is_nil_error err) then "" else b).
  split; [exact Ev|]. split; [exact Etg|]. split.
  - unfold mapValueString. rewrite Erun.
    destruct m as [[| kv m] |]; mrun ltac:(rewrite L); try reflexivity.
    destruct (json_Marshal _ _) as [b [| | |]]; reflexivity.
  - split; [|split].
    + intros ->. reflexivity.
    + intros Hne. destruct (length (default [] m)) eqn:El; [now destruct Hne|].
      cbn in Hne |- *. split; [lia|].
      destruct (json_Marshal _ _) as [b [| | |]]; cbn in Hne |- *; congruence.
    + intros text Hlen E. rewrite E.
      destruct (length (default [] m)); [lia | reflexivity].
Qed.

End Calls.

(** ** Installing and appending through a handle *)

Lemma node_install_k (T : type) (s n : value) (v : Value) (src : reflect_Value)
    (B : Type) (k : unit -> M B) :
  bound T s -> node_of T v ->
  (forall nm e, elemIfPtrType (Value_typ v) <> TyPointer nm e) ->
  (exists a, src = mkRV (elemIfPtrType (Value_typ v)) (Temp n) a false
             \/ src = mkRV (TPointer (elemIfPtrType (Value_typ v)))
                           (Temp (VPtr (Some n))) a false) ->
  (let* x := Value_get v in let* u := reflectValueSet x src in k u) s
  = k tt (put T s (fieldsIndexes v) (behind (Value_typ v) n)).
Proof.
  intros Hb Hn Hte Hsrc.
  pose proof (node_install _ _ _ _ _ Hb Hn Hte Hsrc) as E.
  unfold bind in E |- *. destruct (Value_get v s) as [[x s1] |]; [|discriminate].
  now rewrite E.
Qed.


Lemma set_parsed_gen (T : type) (s n : value) (v : Value) (ty : type) :
  bound T s -> node_of T v ->
  (forall nm e, elemIfPtrType (Value_typ v) <> TyPointer nm e) ->
  (forall nm e, ty <> TyPointer nm e) ->
  set_parsed v ty (n, ErrNil) s
  = if installable (Value_typ v) (negb (at_root v)) ty
    then Ok (ErrNil, put T s (fieldsIndexes v) (behind (Value_typ v) n))
    else Panic "reflect.Set: value is not assignable to type".
Proof.
  intros Hb Hn Hte Hty. unfold set_parsed. cbn [is_nil_error negb].
  assert (E := node_install_gen T s n v ty (reflect_ValueOf_temp ty n) Hb Hn Hte Hty
                (ex_intro _ false (or_introl eq_refl))).
  unfold bind in E |- *.
  destruct (Value_get v s) as [[x s1] |]; destruct (installable _ _ _);
    try discriminate; rewrite ?E; try reflexivity.
  now injection E as ->.
Qed.

Lemma set_parsed_err (v : Value) (t : type) (n s : value) (err : error) :
  err <> ErrNil -> set_parsed v t (n, err) s = Ok (err, s).
Proof. intros H. unfold set_parsed. destruct err; [contradiction | | |]; reflexivity. Qed.

Lemma append_parsed_err (v : Value) (t : type) (n s : value) (err : error) :
  err <> ErrNil -> append_parsed v t (n, err) s = Ok (err, s).
Proof. intros H. unfold append_parsed. destruct err; [contradiction | | |]; reflexivity. Qed.

(** The conversion of the element in [reflectValueAppend], then
    [reflect.Append] and [addressable]. *)
Lemma reflectValueAppend_spec (lnm : tname) (el ty : type) (p : list step)
    (addr : bool) (s n : value) (o : option (list value)) (src : reflect_Value) :
  (forall nm e, elemIfPtrType el <> TyPointer nm e) ->
  (forall nm e, ty <> TyPointer nm e) ->
  load s p = Some (VSlice o) ->
  (exists a, src = mkRV ty (Temp n) a false
             \/ src = mkRV (TPointer ty) (Temp (VPtr (Some n))) a false) ->
  reflectValueAppend (cursor (TySlice lnm el) p addr) src s
  = if appendable el ty
    then Ok (mkRV (TySlice lnm el)
                  (Temp (VSlice (Some (default [] o ++ [behind el n])))) true false,
             s)
    else Panic "reflect.Set: value is not assignable to type".
Proof.
  intros Hel Hty L (a & Hsrc).
  assert (Kel : Kind_eqb (type_Kind (elemIfPtrType el)) KPointer = false)
    by (apply not_pointer_kind, Hel).
  assert (Kty : Kind_eqb (type_Kind ty) KPointer = false)
    by (apply not_pointer_kind, Hty).
  unfold reflectValueAppend, elemIfPtr, reflect_Append.
  destruct el as [? b | ? e | ? e | ? k e | ? k e | ? fs];
    cbn [elemIfPtrType behind type_Kind appendable] in *;
    destruct a; destruct Hsrc as [-> | ->];
    mrun ltac:(rewrite ?Kel, ?Kty, ?Kind_eqb_refl, ?L);
    destruct (directlyAssignable _ _);
    mrun ltac:(rewrite ?L); reflexivity.
Qed.

Lemma append_value_spec (T : type) (s n : value) (v : Value) (lnm : tname)
    (el ty : type) (src : reflect_Value) :
  bound T s -> node_of T v ->
  elemIfPtrType (Value_typ v) = TySlice lnm el ->
  (forall nm e, elemIfPtrType el <> TyPointer nm e) ->
  (forall nm e, ty <> TyPointer nm e) ->
  (exists a, src = mkRV ty (Temp n) a false
             \/ src = mkRV (TPointer ty) (Temp (VPtr (Some n))) a false) ->
  exists (y : value) (o : option (list value)),
    view T s (fieldsIndexes v) = Some y
    /\ target (Value_typ v) y = VSlice o
    /\ has_type (TySlice lnm el) (VSlice o) = true
    /\ append_value v src s
       = if appendable el ty
         then Ok (ErrNil,
                  put T s (fieldsIndexes v)
                      (behind (Value_typ v)
                         (VSlice (Some (default [] o ++ [behind el n])))))
         else Panic "reflect.Set: value is not assignable to type".
Proof.
  intros Hb Hn Ete Hel Hty Hsrc.
  destruct (Value_get_spec _ _ _ Hb Hn) as (y & addr & Ev & Hy & Eget & Haddr & Eaddr).
  destruct (after_get _ _ _ _ Hb Hn Ev Hy) as (L & Hnn & _).
  destruct (elemIfPtr_cursor _ _ addr _ _ L Hnn) as (Ee & Lt).
  pose proof (has_type_target _ _ Hy) as Ht. rewrite Ete in Ht, Ee.
  fold (target (Value_typ v) y) in Lt.
  destruct (target (Value_typ v) y) as [| | | | | | | o | | | |] eqn:Etg;
    try discriminate.
  exists y, o. split; [exact Ev|]. split; [exact Etg|]. split; [exact Ht|].
  assert (Hset : addr = true \/ exists nm e, Value_typ v = TyPointer nm e).
  { destruct Haddr as [-> | [_ E]]; [auto|]. right.
    destruct (bound_pointer _ _ Hb) as (pnm0 & T0 & w & -> & _). eauto. }
  assert (Hte : forall nm e, elemIfPtrType (Value_typ v) <> TyPointer nm e)
    by (rewrite Ete; discriminate).
  destruct (reflectValueSet_spec (Value_typ v) _ addr _ _
              (VSlice (Some (default [] o ++ [behind el n])))
              (mkRV (TySlice lnm el)
                    (Temp (VSlice (Some (default [] o ++ [behind el n])))) true false)
              Hte L Hnn Hset) as (s' & Eset & Est).
  { exists true. left. now rewrite Ete. }
  unfold append_value, bind. rewrite Eget, Ee.
  rewrite (reflectValueAppend_spec lnm el ty _ _ _ n o src Hel Hty Lt Hsrc).
  destruct (appendable el ty); [|reflexivity].
  rewrite Eset. unfold ret. f_equal. f_equal.
  destruct Hn as [_ Hp]. destruct Hb as [Hts _].
  rewrite (store_put _ _ _ _ Hp _ _ _ Hts) in Est. congruence.
Qed.

(** ** The outcome of Set, kind by kind *)

Section SetOutcome.
Context {lib : GoLib}.

Lemma error_dec (err : error) : err = ErrNil \/ err <> ErrNil.
Proof. destruct err; [left; reflexivity | right | right | right]; discriminate. Qed.

Lemma set_parsed_outcome (T : type) (s : value) (v : Value) (ty : type)
    (r : value * error) :
  bound T s -> node_of T v ->
  (forall nm e, elemIfPtrType (Value_typ v) <> TyPointer nm e) ->
  (forall nm e, ty <> TyPointer nm e) ->
  has_type (elemIfPtrType (Value_typ v)) (fst r) = true ->
  Set_outcome T s v (set_parsed v ty r s).
Proof.
  intros Hb Hn Hte Hty Hr. destruct r as [n err].
  destruct (error_dec err) as [-> | He].
  - rewrite (set_parsed_gen T); auto.
    destruct (installable _ _ _); [right | left; reflexivity].
    do 2 eexists. split; [reflexivity|].
    right. split; [reflexivity|]. eauto.
  - rewrite set_parsed_err by exact He. right.
    do 2 eexists. split; [reflexivity|]. auto.
Qed.

Lemma has_type_slice_snoc {lnm : tname} (el : type) (o : option (list value))
    (x : value) :
  has_type (TySlice lnm el) (VSlice o) = true -> has_type el x = true ->
  has_type (TySlice lnm el) (VSlice (Some (default [] o ++ [x]))) = true.
Proof.
  intros Ho Hx. cbn. rewrite forallb_app. cbn. rewrite Hx.
  destruct o as [l |]; cbn in *; rewrite ?Ho; reflexivity.
Qed.

Lemma append_value_outcome (T : type) (s n : value) (v : Value) (lnm : tname)
    (el ty : type) (src : reflect_Value) :
  bound T s -> node_of T v ->
  elemIfPtrType (Value_typ v) = TySlice lnm el ->
  (forall nm e, elemIfPtrType el <> TyPointer nm e) ->
  (forall nm e, ty <> TyPointer nm e) ->
  has_type (elemIfPtrType el) n = true ->
  (exists a, src = mkRV ty (Temp n) a false
             \/ src = mkRV (TPointer ty) (Temp (VPtr (Some n))) a false) ->
  Set_outcome T s v (append_value v src s).
Proof.
  intros Hb Hn Ete Hel Hty Hn' Hsrc.
  destruct (append_value_spec _ _ _ _ _ _ _ _ Hb Hn Ete Hel Hty Hsrc)
    as (y & o & Ev & Etg & Ho & E).
  rewrite E. destruct (appendable el ty); [right | left; reflexivity].
  do 2 eexists. split; [reflexivity|]. right. split; [reflexivity|].
  eexists. split; [|reflexivity]. rewrite Ete.
  apply has_type_slice_snoc; [exact Ho | now apply has_type_behind].
Qed.

Lemma append_parsed_outcome (T : type) (s : value) (v : Value) (lnm : tname)
    (el ty : type) (r : value * error) :
  bound T s -> node_of T v ->
  elemIfPtrType (Value_typ v) = TySlice lnm el ->
  (forall nm e, elemIfPtrType el <> TyPointer nm e) ->
  (forall nm e, ty <> TyPointer nm e) ->
  has_type (elemIfPtrType el) (fst r) = true ->
  Set_outcome T s v (append_parsed v ty r s).
Proof.
  intros Hb Hn Ete Hel Hty Hr. destruct r as [n err].
  destruct (error_dec err) as [-> | He].
  - unfold append_parsed. cbn [is_nil_error negb].
    eapply append_value_outcome; eauto.
  - rewrite append_parsed_err by exact He. right.
    do 2 eexists. split; [reflexivity|]. auto.
Qed.

Lemma parse_scalar_typed (b : BasicKind) (to : string) (r : value * error) :
  parse_scalar b to = Some r -> has_type (TBasic b) (fst r) = true.
Proof. destruct b; cbn; intros [= <-]; reflexivity. Qed.

Lemma value_of_bytes_typed (l : list Z) :
  has_type (TSlice (TBasic BUint8)) (value_of_bytes l) = true.
Proof. cbn. induction l; cbn; auto. Qed.

Lemma parse_element_typed (te : type) (to : string) (r : value * error) :
  parse_element te to = Some r -> has_type te (fst r) = true.
Proof.
  destruct te as [? b | | ? [? [] | | | | |] | | |]; try discriminate.
  - apply parse_scalar_typed.
  - intros [= <-]. apply value_of_bytes_typed.
Qed.

Lemma fresh_temp_typed (te : type) : has_type te (fresh_temp te) = true.
Proof. destruct te; try apply has_type_zero; reflexivity. Qed.

Lemma decoded_typed (to : string) (te : type) :
  has_type te (fst (decoded to te)) = true.
Proof. apply json_Unmarshal_typed, fresh_temp_typed. Qed.

(** The JSON codecs decode into a fresh temporary before they touch the
    bound structure. *)
Lemma mapValueSet_spec (T : type) (s : value) (v : Value) (to : string) :
  bound T s -> node_of T v ->
  type_Kind (elemIfPtrType (Value_typ v)) = KMap ->
  mapValueSet v to s
  = if is_nil_error (snd (decoded to (elemIfPtrType (Value_typ v))))
    then Ok (ErrNil,
             put T s (fieldsIndexes v)
                 (behind (Value_typ v) (fst (decoded to (elemIfPtrType (Value_typ v))))))
    else Ok (snd (decoded to (elemIfPtrType (Value_typ v))), s).
Proof.
  intros Hb Hn Hk. unfold mapValueSet, decoded.
  destruct (elemIfPtrType (Value_typ v)) as [? b | | | | mnm k e |] eqn:Ete;
    try discriminate; [destruct b; discriminate|].
  do 2 (erewrite bind_Ok by reflexivity).
  unfold unmarshal_temp.
  cbn [rv_type rv_loc rv_addr rv_ro reflect_MakeMap fresh_temp].
  destruct (json_Unmarshal to (TyMap mnm k e) (VMap (Some []))) as [w err] eqn:Ed.
  unfold bind at 1. cbn [ret fst snd]. destruct (error_dec err) as [-> | He].
  - cbn [is_nil_error negb].
    erewrite (node_install_k T s w); auto.
    + rewrite Ete. discriminate.
    + exists false. right. now rewrite Ete.
  - destruct err; [contradiction | | |]; reflexivity.
Qed.

Lemma structValueSet_spec (T : type) (s : value) (v : Value) (to : string) :
  bound T s -> node_of T v ->
  type_Kind (elemIfPtrType (Value_typ v)) = KStruct ->
  structValueSet v to s
  = if is_nil_error (snd (decoded to (elemIfPtrType (Value_typ v))))
    then Ok (ErrNil,
             put T s (fieldsIndexes v)
                 (behind (Value_typ v) (fst (decoded to (elemIfPtrType (Value_typ v))))))
    else Ok (snd (decoded to (elemIfPtrType (Value_typ v))), s).
Proof.
  intros Hb Hn Hk. unfold structValueSet, decoded.
  destruct (elemIfPtrType (Value_typ v)) as [? b | | | | | snm fs] eqn:Ete;
    try discriminate; [destruct b; discriminate|].
  unfold unmarshal_temp.
  cbn [rv_type rv_loc rv_addr rv_ro reflect_New fresh_temp].
  destruct (json_Unmarshal to (TyStruct snm fs) (zero (TyStruct snm fs)))
    as [w err] eqn:Ed.
  unfold bind at 1. cbn [ret fst snd]. destruct (error_dec err) as [-> | He].
  - cbn [is_nil_error negb].
    erewrite (node_install_k T s w); auto.
    + rewrite Ete. discriminate.
    + exists false. right. now rewrite Ete.
  - destruct err; [contradiction | | |]; reflexivity.
Qed.
End SetOutcome.

(** ** Replace semantics of map and record nodes *)

Lemma target_behind (t : type) (w : value) : target t (behind t w) = w.
Proof. destruct t; reflexivity. Qed.

Lemma field_path_nil_inv (T t : type) (fs : list StructField) :
  field_path T [] fs t -> t = T.
Proof. now inversion 1. Qed.

Section Replace.
Context {lib : GoLib}.

Lemma json_Set_spec (T : type) (s : value) (v : Value) (to : string) :
  bound T s -> node_of T v ->
  (type_Kind (elemIfPtrType (Value_typ v)) = KMap
   \/ type_Kind (elemIfPtrType (Value_typ v)) = KStruct) ->
  Value_Set (Some v) to s
  = if is_nil_error (snd (decoded to (elemIfPtrType (Value_typ v))))
    then Ok (ErrNil,
             put T s (fieldsIndexes v)
                 (behind (Value_typ v) (fst (decoded to (elemIfPtrType (Value_typ v))))))
    else Ok (snd (decoded to (elemIfPtrType (Value_typ v))), s).
Proof.
  intros Hb Hn Hk. pose proof Hn as [Hnew _].
  unfold newValue in Hnew. rewrite (node_position _ _ Hn) in Hnew.
  destruct Hk as [Hk | Hk]; rewrite Hk in Hnew.
  - assert (Hf : setFn v = Some fn_mapValueSet) by (injection Hnew as <-; reflexivity).
    rewrite (Value_Set_node _ _ _ _ Hn Hf). now apply mapValueSet_spec.
  - assert (Hf : setFn v = Some fn_structValueSet) by (injection Hnew as <-; reflexivity).
    rewrite (Value_Set_node _ _ _ _ Hn Hf). now apply structValueSet_spec.
Qed.

(** C3: [Set] on a map or record node decodes the text into a fresh
    temporary first.  When decoding fails, [Set] returns the error of the
    decoder and the bound structure is exactly as before.  When decoding
    succeeds, [Set] returns nil and the value behind the place of the node
    is exactly what the text decodes to.  [Set] with [D1] and then with
    [D2] leaves the bound structure that [Set] with [D2] alone leaves. *)
Theorem C3_map_record_Set_replaces (T : type) (s : value) (v : Value) :
  bound T s -> node_of T v ->
  (type_Kind (elemIfPtrType (Value_typ v)) = KMap
   \/ type_Kind (elemIfPtrType (Value_typ v)) = KStruct) ->
  (forall D : string,
      snd (decoded D (elemIfPtrType (Value_typ v))) <> ErrNil ->
      Value_Set (Some v) D s = Ok (snd (decoded D (elemIfPtrType (Value_typ v))), s))
  /\ (forall D : string,
        snd (decoded D (elemIfPtrType (Value_typ v))) = ErrNil ->
        exists s' y',
          Value_Set (Some v) D s = Ok (ErrNil, s')
          /\ bound T s'
          /\ view T s' (fieldsIndexes v) = Some y'
          /\ target (Value_typ v) y' = fst (decoded D (elemIfPtrType (Value_typ v))))
  /\ (forall D1 D2 : string,
        snd (decoded D1 (elemIfPtrType (Value_typ v))) = ErrNil ->
        snd (decoded D2 (elemIfPtrType (Value_typ v))) = ErrNil ->
        exists s1 s2,
          Value_Set (Some v) D1 s = Ok (ErrNil, s1)
          /\ Value_Set (Some v) D2 s1 = Ok (ErrNil, s2)
          /\ Value_Set (Some v) D2 s = Ok (ErrNil, s2)).
Proof.
  intros Hb Hn Hk.
  assert (Hte : forall nm e, elemIfPtrType (Value_typ v) <> TyPointer nm e).
  { intros nm e E. rewrite E in Hk. destruct Hk; discriminate. }
  assert (Hok : forall D,
             snd (decoded D (elemIfPtrType (Value_typ v))) = ErrNil ->
             Value_Set (Some v) D s
             = Ok (ErrNil, put T s (fieldsIndexes v)
                               (behind (Value_typ v)
                                  (fst (decoded D (elemIfPtrType (Value_typ v))))))
             /\ bound T (put T s (fieldsIndexes v)
                           (behind (Value_typ v)
                              (fst (decoded D (elemIfPtrType (Value_typ v))))))).
  { intros D E. rewrite (json_Set_spec _ _ _ _ Hb Hn Hk), E. split; [reflexivity|].
    destruct Hn as [_ Hp]. eapply bound_put; eauto.
    - apply has_type_behind, decoded_typed.
    - intros Eix. rewrite Eix in Hp. apply field_path_nil_inv in Hp.
      destruct (bound_pointer _ _ Hb) as (pnm0 & T0 & w & ET & _).
      rewrite Hp, ET. cbn. eauto. }
  split; [|split].
  - intros D E. rewrite (json_Set_spec _ _ _ _ Hb Hn Hk).
    destruct (snd (decoded D _)); [contradiction | | |]; reflexivity.
  - intros D E. destruct (Hok D E) as [E1 Hb1].
    do 2 eexists. split; [exact E1|]. split; [exact Hb1|].
    destruct Hn as [_ Hp]. destruct Hb as [Ht _].
    split; [eapply view_put; eauto | apply target_behind].
  - intros D1 D2 E1 E2. destruct (Hok D1 E1) as [R1 Hb1]. destruct (Hok D2 E2) as [R2 _].
    do 2 eexists. split; [exact R1|]. split; [|exact R2].
    rewrite (json_Set_spec _ _ _ _ Hb1 Hn Hk), E2. cbn [is_nil_error].
    destruct Hn as [_ Hp]. destruct Hb as [Ht _].
    now rewrite (put_put _ _ _ _ Hp _ _ _ Ht).
Qed.
End Replace.

(** ** Append semantics of list nodes *)

Section Append.
Context {lib : GoLib}.

Lemma parse_element_not_pointer (te : type) (to : string) (r : value * error) :
  parse_element te to = Some r -> forall nm e, te <> TyPointer nm e.
Proof. destruct te; try discriminate; intros _ e; discriminate. Qed.

Lemma parsed_type_not_pointer (te : type) (to : string) (r : value * error) :
  parse_element te to = Some r -> forall nm e, parsed_type te <> TyPointer nm e.
Proof.
  destruct te as [? b | | ? [? [] | | | | |] | | |]; try discriminate;
    intros _ nm e; discriminate.
Qed.

(** The [setFn] of a list node of scalars parses one element of the kind
    of the elements and appends it. *)
Lemma Set_list_dispatch (T : type) (v : Value) (lnm : tname) (el : type)
    (to : string) (r : value * error) :
  node_of T v ->
  elemIfPtrType (Value_typ v) = TySlice lnm el -> type_Kind el <> KUint8 ->
  parse_element (elemIfPtrType el) to = Some r ->
  Value_Set (Some v) to = append_parsed v (parsed_type (elemIfPtrType el)) r.
Proof.
  intros Hn Ete Hel Hr. pose proof Hn as [Hnew _].
  unfold newValue in Hnew. rewrite (node_position _ _ Hn), Ete in Hnew.
  cbn [type_Kind] in Hnew. unfold newSliceValue in Hnew. cbn [type_Elem] in Hnew.
  destruct el as [? b | ? [? b | | ? [? [] | | | | |] | | |] | ? [? [] | | | | |] | | |];
    try discriminate;
    cbn [elemIfPtrType parse_element parsed_type type_Kind Kind_of_basic]
      in Hr, Hnew, Hel |- *;
    try (destruct b; try discriminate; try (now destruct Hel);
         cbn in Hnew; injection Hr as <-;
         erewrite (Value_Set_node _ _ _ _ Hn)
           by (injection Hnew as <-; reflexivity);
         reflexivity);
    try (cbn in Hnew; injection Hr as <-;
         erewrite (Value_Set_node _ _ _ _ Hn)
           by (injection Hnew as <-; reflexivity);
         reflexivity).
Qed.

End Append.

(** ** strconv: parsing what was formatted *)











(** ** Scalar nodes: render and parse *)



Section Scalars.
Context {lib : GoLib}.


Lemma Set_scalar_dispatch {nm : tname} (T : type) (v : Value) (b : BasicKind)
    (to : string) (r : value * error) :
  node_of T v -> elemIfPtrType (Value_typ v) = TyBasic nm b ->
  parse_scalar b to = Some r ->
  Value_Set (Some v) to = set_parsed v (TBasic b) r.
Proof.
  intros Hn Ete Hr. pose proof Hn as [Hnew _].
  unfold newValue in Hnew. rewrite (node_position _ _ Hn), Ete in Hnew.
  destruct b; try discriminate; cbn in Hnew, Hr; injection Hr as <-;
    erewrite (Value_Set_node _ _ _ _ Hn) by (injection Hnew as <-; reflexivity);
    reflexivity.
Qed.

Lemma String_scalar_spec {nm : tname} (T : type) (s : value) (v : Value)
    (b : BasicKind) :
  bound T s -> node_of T v ->
  elemIfPtrType (Value_typ v) = TyBasic nm b -> is_scalar b = true ->
  exists y : value,
    view T s (fieldsIndexes v) = Some y
    /\ has_type (TBasic b) (target (Value_typ v) y) = true
    /\ Value_String (Some v) s
       = Ok (if renders_empty (target (Value_typ v) y) then ""
             else render_scalar b (target (Value_typ v) y),
             put T s (fieldsIndexes v) (alloc (Value_typ v) y)).
Proof.
  intros Hb Hn Ete Hs. pose proof Hn as [Hnew _].
  unfold newValue in Hnew. rewrite (node_position _ _ Hn), Ete in Hnew.
  destruct (node_read _ _ _ Hb Hn) as (y & addr & Ev & Hy & Erun & L).
  pose proof (has_type_target _ _ Hy) as Ht. rewrite Ete in Ht, Erun.
  exists y. split; [exact Ev|]. split; [exact Ht|].
  destruct b; try discriminate; cbn in Hnew;
    erewrite (Value_String_node _ _ _ Hn) by (injection Hnew as <-; reflexivity);
    cbn [call_stringFn];
    unfold boolValueString, intValueString, uintValueString, float32ValueString,
      float64ValueString, floatValueString, complex64ValueString,
      complex128ValueString, complexValueString, stringValueString;
    rewrite Erun;
    unfold rv_Bool, rv_Int, rv_Uint, rv_Float, rv_Complex, rv_String, bind;
    rewrite (rv_read_cursor _ _ _ _ _ L);
    destruct (target (Value_typ v) y) eqn:Etg; try discriminate;
    cbn [renders_empty render_scalar]; unfold ret; cbv [fst snd];
    try match goal with
        | |- (if ?c then _ else _) _ = _ => destruct c; reflexivity
        end.
  match goal with
  | |- _ = Ok (if String.eqb ?x _ then _ else _, _) =>
      destruct (String.eqb_spec x ""); [subst|]; reflexivity
  end.
Qed.
End Scalars.

Section RoundTrip.
Context {lib : GoLib}.


Lemma is_exact_scalar (b : BasicKind) : is_exact b = true -> is_scalar b = true.
Proof. destruct b; auto. Qed.


End RoundTrip.

(** ** The outcome of Set on every node *)

Section AllKinds.
Context {lib : GoLib}.

Lemma Set_outcome_json (T : type) (s : value) (v : Value) (to : string) :
  bound T s -> node_of T v ->
  (type_Kind (elemIfPtrType (Value_typ v)) = KMap
   \/ type_Kind (elemIfPtrType (Value_typ v)) = KStruct) ->
  Set_outcome T s v (Value_Set (Some v) to s).
Proof.
  intros Hb Hn Hk. rewrite (json_Set_spec _ _ _ _ Hb Hn Hk).
  destruct (error_dec (snd (decoded to (elemIfPtrType (Value_typ v))))) as [E | E].
  - rewrite E. right. do 2 eexists. split; [reflexivity|]. right.
    split; [reflexivity|].
    eexists. split; [apply decoded_typed | reflexivity].
  - right. destruct (snd (decoded to _)) eqn:Ed; [contradiction | | |];
      (do 2 eexists; split; [reflexivity | left; split; [discriminate | reflexivity]]).
Qed.

Lemma slice_element_type_eq {lnm : tname} (v : Value) (el : type) (s : value) :
  elemIfPtrType (Value_typ v) = TySlice lnm el ->
  slice_element_type v s = Ok (elemIfPtrType el, s).
Proof. intros E. unfold slice_element_type. rewrite E. reflexivity. Qed.

(** The lists whose elements are decoded from JSON: lists of lists, of
    maps and of records. *)
Lemma Set_outcome_json_list {lnm : tname} (T : type) (s : value) (v : Value)
    (el : type) (to : string) :
  bound T s -> node_of T v ->
  elemIfPtrType (Value_typ v) = TySlice lnm el ->
  (match elemIfPtrType el with
   | TySlice _ e2 => type_Kind e2 <> KUint8
   | TyMap _ _ _ | TyStruct _ _ => True
   | _ => False
   end) ->
  Set_outcome T s v (Value_Set (Some v) to s).
Proof.
  intros Hb Hn Ete Hel. pose proof Hn as [Hnew _].
  unfold newValue in Hnew. rewrite (node_position _ _ Hn), Ete in Hnew.
  cbn [type_Kind] in Hnew. unfold newSliceValue in Hnew. cbn [type_Elem] in Hnew.
  assert (Hel' : forall nm e, elemIfPtrType el <> TyPointer nm e).
  { intros nm e E. now rewrite E in Hel. }
  assert (Hrun : forall fresh : reflect_Value,
             fresh = mkRV (TPointer (elemIfPtrType el))
                          (Temp (VPtr (Some (fresh_temp (elemIfPtrType el))))) false false ->
             Set_outcome T s v
               ((let* r := unmarshal_temp to fresh in
                 if negb (is_nil_error (snd r)) then ret (snd r)
                 else append_value v (fst r)) s)).
  { intros fresh ->. unfold unmarshal_temp. cbn [rv_type rv_loc rv_addr rv_ro].
    pose proof (decoded_typed to (elemIfPtrType el)) as Hd. unfold decoded in Hd.
    destruct (json_Unmarshal to (elemIfPtrType el) (fresh_temp (elemIfPtrType el)))
      as [w err].
    unfold bind at 1. cbn [ret fst snd] in Hd |- *.
    destruct (error_dec err) as [-> | He].
    - cbn [is_nil_error negb]. eapply append_value_outcome; eauto.
    - right. destruct err; [contradiction | | |];
        (do 2 eexists; split; [reflexivity | left; split; [discriminate | reflexivity]]). }
  destruct (elemIfPtrType el) as [| | ? e2 | | ? k e | ? fs] eqn:Eel; try contradiction.
  - (* a list of lists *)
    assert (K : Kind_eqb (type_Kind e2) KUint8 = false).
    { destruct (Kind_eqb (type_Kind e2) KUint8) eqn:K; [|reflexivity].
      apply Kind_eqb_eq in K. contradiction. }
    cbn [type_Kind type_Elem] in Hnew. rewrite K in Hnew.
    erewrite (Value_Set_node _ _ _ _ Hn) by (injection Hnew as <-; reflexivity).
    cbn [call_setFn]. unfold sliceSliceValueSet.
    rewrite (bind_Ok _ _ _ _ _ (slice_element_type_eq v el s Ete)). rewrite Eel.
    do 2 (erewrite bind_Ok by reflexivity). apply Hrun. reflexivity.
  - (* a list of maps *)
    cbn [type_Kind] in Hnew.
    erewrite (Value_Set_node _ _ _ _ Hn) by (injection Hnew as <-; reflexivity).
    cbn [call_setFn]. unfold mapSliceValueSet.
    rewrite (bind_Ok _ _ _ _ _ (slice_element_type_eq v el s Ete)). rewrite Eel.
    do 2 (erewrite bind_Ok by reflexivity). apply Hrun. reflexivity.
  - (* a list of records *)
    cbn [type_Kind] in Hnew.
    erewrite (Value_Set_node _ _ _ _ Hn) by (injection Hnew as <-; reflexivity).
    cbn [call_setFn]. unfold structSliceValueSet.
    rewrite (bind_Ok _ _ _ _ _ (slice_element_type_eq v el s Ete)). rewrite Eel.
    apply Hrun. reflexivity.
Qed.
End AllKinds.

Section EveryNode.
Context {lib : GoLib}.

Lemma Set_outcome_scalar {nm : tname} (T : type) (s : value) (v : Value)
    (b : BasicKind) (to : string) (r : value * error) :
  bound T s -> node_of T v ->
  elemIfPtrType (Value_typ v) = TyBasic nm b -> parse_scalar b to = Some r ->
  Set_outcome T s v (Value_Set (Some v) to s).
Proof.
  intros Hb Hn Ete Hp. rewrite (Set_scalar_dispatch _ _ _ _ _ Hn Ete Hp).
  apply set_parsed_outcome; auto; try discriminate.
  - rewrite Ete. discriminate.
  - rewrite Ete. eapply parse_scalar_typed, Hp.
Qed.

Lemma Set_outcome_bytes {lnm bnm : tname} (T : type) (s : value) (v : Value)
    (to : string) :
  bound T s -> node_of T v ->
  elemIfPtrType (Value_typ v) = TySlice lnm (TyBasic bnm BUint8) ->
  Set_outcome T s v (Value_Set (Some v) to s).
Proof.
  intros Hb Hn Ete. pose proof Hn as [Hnew _].
  unfold newValue in Hnew. rewrite (node_position _ _ Hn), Ete in Hnew.
  cbn in Hnew.
  erewrite (Value_Set_node _ _ _ _ Hn) by (injection Hnew as <-; reflexivity).
  cbn [call_setFn]. unfold bytesValueSet.
  apply set_parsed_outcome; auto; try discriminate.
  - rewrite Ete. discriminate.
  - rewrite Ete. apply value_of_bytes_typed.
Qed.

Lemma Set_outcome_list {lnm : tname} (T : type) (s : value) (v : Value)
    (el : type) (to : string) (r : value * error) :
  bound T s -> node_of T v ->
  elemIfPtrType (Value_typ v) = TySlice lnm el -> type_Kind el <> KUint8 ->
  parse_element (elemIfPtrType el) to = Some r ->
  Set_outcome T s v (Value_Set (Some v) to s).
Proof.
  intros Hb Hn Ete Hel Hp. rewrite (Set_list_dispatch _ _ _ _ _ _ Hn Ete Hel Hp).
  eapply append_parsed_outcome; eauto.
  - eapply parse_element_not_pointer, Hp.
  - eapply parsed_type_not_pointer, Hp.
  - eapply parse_element_typed, Hp.
Qed.

(** [Set] through any handle on a bound structure returns: with an error
    and the structure as it was, or with nil and a decoded value
    installed at the place of the handle. *)
Lemma Value_Set_outcome (T : type) (s : value) (v : Value) (to : string) :
  bound T s -> node_of T v -> Set_outcome T s v (Value_Set (Some v) to s).
Proof.
  intros Hb Hn. pose proof Hn as [Hnew _].
  unfold newValue in Hnew. rewrite (node_position _ _ Hn) in Hnew.
  destruct (elemIfPtrType (Value_typ v)) as [? b | ? e | ? el | ? n e | ? k e | ? fs] eqn:Ete;
    try (cbn in Hnew; discriminate);
    try (apply Set_outcome_json; auto; rewrite Ete; cbn; auto; fail).
  - destruct (parse_scalar b to) as [r |] eqn:Hp;
      [eapply Set_outcome_scalar; eauto|].
    destruct b; cbn in Hp, Hnew; discriminate.
  - cbn [type_Kind] in Hnew. unfold newSliceValue in Hnew. cbn [type_Elem] in Hnew.
    destruct el as [? b | ? [? b | | ? [? b | | | | |] | | |] | ? [? b | | | | |] | | |];
      try (cbn in Hnew; discriminate);
      try (destruct b; try (cbn in Hnew; discriminate));
      first
        [ eapply Set_outcome_bytes; eassumption
        | eapply Set_outcome_list;
          [eassumption | eassumption | eassumption | discriminate | reflexivity]
        | eapply Set_outcome_json_list;
          [eassumption | eassumption | eassumption | cbn; first [exact I | discriminate]] ].
Qed.
End EveryNode.

(** ** The text of String, kind by kind *)

Section RenderAll.
Context {lib : GoLib}.

Lemma bytes_of_value_typed {lnm bnm : tname} (x : value) :
  has_type (TySlice lnm (TyBasic bnm BUint8)) x = true ->
  exists l, bytes_of_value x = Some l /\ length l = length (elements x).
Proof.
  destruct x as [| | | | | | | o | | | |]; try discriminate.
  destruct o as [l |]; cbn; [|intros _; exists []; split; reflexivity].
  induction l as [| e l IH]; cbn; intros H.
  - exists []. split; reflexivity.
  - apply andb_true_iff in H as [He Hl]. destruct (IH Hl) as (l' & E & Len).
    destruct e; try discriminate. cbn in E |- *. rewrite E. exists (n :: l').
    split; [reflexivity | cbn; now rewrite Len].
Qed.

(** The loop of the complex list renderers on well-typed elements. *)
Lemma complex_items_spec (bitSize : Z) (et : type) (l : list value) (s : value) :
  (exists nm, elemIfPtrType et = TyBasic nm BComplex64
              \/ elemIfPtrType et = TyBasic nm BComplex128) ->
  forallb (has_type et) l = true ->
  complex_items bitSize et l s = Ok (complex_texts bitSize et l, s).
Proof.
  intros (cnm & Het). induction l as [| xv l IH]; intros H; [reflexivity|].
  cbn [forallb] in H. apply andb_true_iff in H as [Hx Hl].
  cbn [complex_items complex_texts List.map]. unfold bind at 1.
  assert (E : exists re im,
             target et xv = VComplex re im
             /\ (let* e := elemIfPtr (mkRV et (Temp xv) false false) in rv_Complex e) s
                = Ok ((re, im), s)).
  { destruct et as [bnm b | pnm e | | | |]; cbn [elemIfPtrType] in Het;
      try (destruct Het; discriminate).
    - assert (Hb : b = BComplex64 \/ b = BComplex128)
        by (destruct Het as [[= _ ->] | [= _ ->]]; auto).
      destruct xv; try (destruct Hb as [-> | ->]; discriminate).
      exists re, im. split; [reflexivity|].
      unfold elemIfPtr. destruct Hb as [-> | ->]; reflexivity.
    - assert (He : e = TyBasic cnm BComplex64 \/ e = TyBasic cnm BComplex128)
        by (destruct Het as [-> | ->]; auto).
      apply has_type_pointer_inv in Hx as [-> | (w & -> & Hw)].
      + exists 0, 0. split; [destruct He as [-> | ->]; reflexivity|].
        destruct He as [-> | ->]; reflexivity.
      + destruct w; try (destruct He as [-> | ->]; discriminate).
        exists re, im. split; [reflexivity|]. reflexivity. }
  destruct E as (re & im & Etg & Erun). rewrite Etg.
  unfold bind in Erun.
  destruct (elemIfPtr (mkRV et (Temp xv) false false) s) as [[e s1] |]; [|discriminate].
  unfold bind. rewrite Erun, (IH Hl). reflexivity.
Qed.

(** The renderers that marshal the list or the map behind the place. *)
Lemma marshal_list_spec (T : type) (s y : value) (v : Value) (addr : bool)
    (lnm : tname) (el : type) (o : option (list value)) :
  elemIfPtrType (Value_typ v) = TySlice lnm el ->
  target (Value_typ v) y = VSlice o ->
  (forall (B : Type) (k : reflect_Value -> M B),
      (let* x := Value_get v in let* e := elemIfPtr x in k e) s
      = k (cursor (elemIfPtrType (Value_typ v))
                  (store_path T (fieldsIndexes v) ++ deref_steps (Value_typ v))
                  addr)
          (put T s (fieldsIndexes v) (alloc (Value_typ v) y))) ->
  load (put T s (fieldsIndexes v) (alloc (Value_typ v) y))
       (store_path T (fieldsIndexes v) ++ deref_steps (Value_typ v))
  = Some (target (Value_typ v) y) ->
  sliceValueString v s
  = Ok (if Nat.eqb (length (default [] o)) 0 then ""
        else json_text (TySlice lnm el) (VSlice o),
        put T s (fieldsIndexes v) (alloc (Value_typ v) y)).
Proof.
  intros Ete Etg Erun L. unfold sliceValueString. rewrite Erun.
  rewrite Ete, Etg in *.
  destruct o as [[| x l] |]; mrun ltac:(rewrite L); try reflexivity.
  unfold json_text; destruct (json_Marshal _ _) as [b' [| | |]]; reflexivity.
Qed.

Lemma complex_list_spec (bitSize : Z) (T : type) (s y : value) (v : Value)
    (addr : bool) (lnm : tname) (el : type) (o : option (list value)) :
  elemIfPtrType (Value_typ v) = TySlice lnm el ->
  (exists nm, elemIfPtrType el = TyBasic nm BComplex64
              \/ elemIfPtrType el = TyBasic nm BComplex128) ->
  target (Value_typ v) y = VSlice o ->
  has_type (TySlice lnm el) (VSlice o) = true ->
  (forall (B : Type) (k : reflect_Value -> M B),
      (let* x := Value_get v in let* e := elemIfPtr x in k e) s
      = k (cursor (elemIfPtrType (Value_typ v))
                  (store_path T (fieldsIndexes v) ++ deref_steps (Value_typ v))
                  addr)
          (put T s (fieldsIndexes v) (alloc (Value_typ v) y))) ->
  load (put T s (fieldsIndexes v) (alloc (Value_typ v) y))
       (store_path T (fieldsIndexes v) ++ deref_steps (Value_typ v))
  = Some (target (Value_typ v) y) ->
  complexSliceValueString bitSize v s
  = Ok (if Nat.eqb (length (default [] o)) 0 then ""
        else String.append "["
               (String.append (Join (complex_texts bitSize el (default [] o)) ",") "]"),
        put T s (fieldsIndexes v) (alloc (Value_typ v) y)).
Proof.
  intros Ete Hel Etg Ht Erun L. unfold complexSliceValueString. rewrite Erun.
  rewrite Ete, Etg in *.
  unfold rv_Len, bind. rewrite (rv_read_cursor _ _ _ _ _ L).
  unfold ret. destruct (length (default [] o)) eqn:El.
  { destruct o as [[| x l] |]; cbn in El |- *; try discriminate; reflexivity. }
  replace (match o with Some l => _ | None => _ end)
    with (fun s0 : value => @Ok (nat * value) (length (default [] o), s0))
    by (destruct o; reflexivity).
  rewrite El. cbn [Nat.eqb].
  unfold type_Elem_M. cbn [cursor rv_Type rv_type type_Elem ret].
  fold (cursor (TySlice lnm el)
          (store_path T (fieldsIndexes v) ++ deref_steps (Value_typ v)) addr).
  rewrite (rv_read_cursor _ _ _ _ _ L).
  rewrite complex_items_spec; [reflexivity | exact Hel |].
  destruct o; [exact Ht | reflexivity].
Qed.

(** [String()] through a handle, for every kind: the text is a function
    of the value behind the place, and the bound structure changes by the
    allocation of [val.get()] only.  On a byte buffer whose type is not
    [[]byte] the type assertion of [bytesValueString] panics. *)
Lemma Value_String_spec (T : type) (s : value) (v : Value) :
  bound T s -> node_of T v ->
  exists y : value,
    view T s (fieldsIndexes v) = Some y
    /\ has_type (Value_typ v) y = true
    /\ Value_String (Some v) s
       = if string_faults (Value_typ v)
         then Panic "interface conversion: interface {} is not []uint8"
         else Ok (render_target (Value_typ v) (target (Value_typ v) y),
                  put T s (fieldsIndexes v) (alloc (Value_typ v) y)).
Proof.
  intros Hb Hn. pose proof Hn as [Hnew _].
  unfold newValue in Hnew. rewrite (node_position _ _ Hn) in Hnew.
  destruct (node_read _ _ _ Hb Hn) as (y & addr & Ev & Hy & Erun & L).
  pose proof (has_type_target _ _ Hy) as Ht.
  exists y. split; [exact Ev|]. split; [exact Hy|].
  unfold render_target, string_faults.
  pose proof (fun lnm el o E1 E2 => marshal_list_spec T s y v addr lnm el o E1 E2 Erun L)
    as Ejson'.
  pose proof (fun bitSize lnm el o E1 E2 E3 E4 =>
                complex_list_spec bitSize T s y v addr lnm el o E1 E2 E3 E4 Erun L)
    as Ecplx'.
  destruct (elemIfPtrType (Value_typ v))
    as [bnm b | pnm e | lnm el | anm n e | mnm k e | snm tfs] eqn:Ete.
  - (* scalars *)
    assert (Hs : is_scalar b = true) by (destruct b; try discriminate; reflexivity).
    destruct (String_scalar_spec _ _ _ _ Hb Hn Ete Hs) as (y' & Ev' & _ & E).
    rewrite Ev in Ev'. injection Ev' as <-. exact E.
  - discriminate.
  - (* lists *)
    destruct (target (Value_typ v) y) as [| | | | | | | o | | | |] eqn:Etg;
      try discriminate.
    cbn [elements].
    cbn [type_Kind] in Hnew. unfold newSliceValue in Hnew. cbn [type_Elem] in Hnew.
    pose proof (Ejson' lnm el o eq_refl eq_refl) as Ejson.
    assert (Ecplx : forall bitSize,
               (exists nm, elemIfPtrType el = TyBasic nm BComplex64
                           \/ elemIfPtrType el = TyBasic nm BComplex128) ->
               complexSliceValueString bitSize v s
               = Ok (if Nat.eqb (length (default [] o)) 0 then ""
                     else String.append "["
                            (String.append
                               (Join (complex_texts bitSize el (default [] o)) ",") "]"),
                     put T s (fieldsIndexes v) (alloc (Value_typ v) y))).
    { intros bitSize Hel. exact (Ecplx' bitSize lnm el o eq_refl Hel eq_refl Ht). }
    clear Ejson' Ecplx'.
    destruct el as [enm b | pnm e | lnm2 el2 | anm n e | mnm k e | snm tfs].
    + (* elements of a basic kind *)
      destruct b; try discriminate; cbn in Hnew;
        erewrite (Value_String_node _ _ _ Hn) by (injection Hnew as <-; reflexivity);
        cbn [call_stringFn elemIfPtrType];
        unfold complex64SliceValueString, complex128SliceValueString;
        try (rewrite Ejson; reflexivity);
        try (rewrite Ecplx by (eexists; cbn; eauto); reflexivity).
      (* bytes *)
      unfold bytesValueString. rewrite Erun.
      destruct (bytes_of_value_typed _ Ht) as (l & El & Len).
      unfold rv_Interface, bind. rewrite (rv_read_cursor _ _ _ _ _ L).
      unfold ret. cbn [fst snd cursor rv_type].
      destruct (type_eqb _ _); cbn [negb]; [|reflexivity].
      rewrite El, Len. cbn [elements].
      destruct (length (default [] o)); reflexivity.
    + (* elements behind pointers *)
      cbn [elemIfPtrType] in Hnew, Ecplx |- *.
      destruct e as [enm b | pnm2 e | lnm2 el2 | anm n e | mnm k e | snm tfs];
        try discriminate.
      * destruct b; try discriminate; cbn in Hnew;
          erewrite (Value_String_node _ _ _ Hn) by (injection Hnew as <-; reflexivity);
          cbn [call_stringFn];
          unfold complex64SliceValueString, complex128SliceValueString;
          try (rewrite Ejson; reflexivity);
          try (rewrite Ecplx by (eexists; eauto); reflexivity).
      * cbn in Hnew.
        assert (Hf : stringFn v = Some fn_sliceValueString)
          by (destruct (Kind_eqb _ _); injection Hnew as <-; reflexivity).
        rewrite (Value_String_node _ _ _ Hn Hf). cbn [call_stringFn].
        rewrite Ejson. reflexivity.
      * cbn in Hnew.
        erewrite (Value_String_node _ _ _ Hn) by (injection Hnew as <-; reflexivity).
        cbn [call_stringFn]. rewrite Ejson. reflexivity.
      * cbn in Hnew.
        erewrite (Value_String_node _ _ _ Hn) by (injection Hnew as <-; reflexivity).
        cbn [call_stringFn]. rewrite Ejson. reflexivity.
    + (* lists of lists *)
      cbn in Hnew.
      assert (Hf : stringFn v = Some fn_sliceValueString)
        by (destruct (Kind_eqb _ _); injection Hnew as <-; reflexivity).
      rewrite (Value_String_node _ _ _ Hn Hf). cbn [call_stringFn elemIfPtrType].
      rewrite Ejson. reflexivity.
    + discriminate.
    + cbn in Hnew.
      erewrite (Value_String_node _ _ _ Hn) by (injection Hnew as <-; reflexivity).
      cbn [call_stringFn elemIfPtrType]. rewrite Ejson. reflexivity.
    + cbn in Hnew.
      erewrite (Value_String_node _ _ _ Hn) by (injection Hnew as <-; reflexivity).
      cbn [call_stringFn elemIfPtrType]. rewrite Ejson. reflexivity.
  - discriminate.
  - (* maps *)
    cbn in Hnew.
    erewrite (Value_String_node _ _ _ Hn) by (injection Hnew as <-; reflexivity).
    cbn [call_stringFn]. unfold mapValueString. rewrite Erun.
    destruct (target (Value_typ v) y) as [| | | | | | | | m | | |] eqn:Etg;
      try discriminate.
    destruct m as [[| kv m] |]; mrun ltac:(rewrite L); try reflexivity.
    unfold json_text; destruct (json_Marshal _ _) as [b' [| | |]]; reflexivity.
  - (* records *)
    cbn in Hnew.
    erewrite (Value_String_node _ _ _ Hn) by (injection Hnew as <-; reflexivity).
    cbn [call_stringFn].
    destruct (Value_get_spec _ _ _ Hb Hn) as (y' & addr' & Ev' & Hy' & Eget & _).
    rewrite Ev in Ev'. injection Ev' as <-.
    destruct (after_get _ _ _ _ Hb Hn Ev Hy) as (L' & _).
    unfold structValueString, bind. rewrite Eget. unfold rv_Interface, bind.
    rewrite (rv_read_cursor _ _ _ _ _ L'). unfold ret. cbn [fst snd].
    assert (Eb : behind (Value_typ v) (target (Value_typ v) y) = alloc (Value_typ v) y).
    { unfold target. destruct (Value_typ v) as [| ? e | | | |]; try reflexivity.
      destruct (alloc_nonnil _ _ Hy) as (w & -> & _). reflexivity. }
    rewrite Eb. unfold json_text.
    destruct (json_Marshal _ _) as [b' err].
    destruct err; cbn [is_nil_error negb]; try reflexivity.
    unfold degenerate, degenerate_literals. cbn [existsb].
    rewrite orb_false_r, !orb_assoc. destruct (_ || _); reflexivity.
Qed.

End RenderAll.

(** ** Lazy allocation through nil pointers *)

Lemma field_path_cons_inv (t t' : type) (i : nat) (ix : list nat)
    (gs : list StructField) :
  field_path t (i :: ix) gs t' ->
  exists snm tfs f fs,
    gs = f :: fs /\ elemIfPtrType t = TyStruct snm tfs /\ tfs !! i = Some f
    /\ IsExported f = true /\ field_path (Type_ f) ix fs t'.
Proof. inversion 1; subst. eauto 10. Qed.

Lemma field_path_app_inv (T t' : type) (ixP rest : list nat)
    (fs : list StructField) :
  field_path T (ixP ++ rest) fs t' ->
  exists (fsP fsR : list StructField) (tP : type),
    fs = fsP ++ fsR /\ field_path T ixP fsP tP /\ field_path tP rest fsR t'.
Proof.
  revert T fs. induction ixP as [| j ixP IH]; intros T fs Hp; cbn in Hp.
  - exists [], fs, T. repeat split; auto. constructor.
  - apply field_path_cons_inv in Hp as (snm & tfs & f & fs' & -> & Et & Li & X & Hrest).
    destruct (IH _ _ Hrest) as (fsP & fsR & tP & -> & HP & HR).
    exists (f :: fsP), fsR, tP. repeat split; auto.
    econstructor; eauto.
Qed.

(** Writing below the place at the end of a path is writing that place. *)
Lemma put_app (T tP : type) (ixP : list nat) (fsP : list StructField) :
  field_path T ixP fsP tP ->
  forall (s yP n : value) (rest : list nat),
    has_type T s = true -> view T s ixP = Some yP ->
    put T s (ixP ++ rest) n = put T s ixP (put tP yP rest n).
Proof.
  induction 1 as [t | t snm tfs j f ix fs t' Et Lj X _ IH];
    intros s yP n rest Hs Ev.
  - cbn in Ev. injection Ev as <-. reflexivity.
  - destruct (record_behind _ _ _ _ _ Et Lj Hs) as (us & u & Eu & _ & Lu & Hu & Hfj).
    rewrite (view_cons _ _ _ _ _ _ _ Eu Lu Hfj) in Ev.
    change ((j :: ix) ++ rest) with (j :: (ix ++ rest)).
    rewrite !(put_cons _ _ _ _ _ _ _ _ Eu Lu Hfj).
    now rewrite (IH u yP n rest Hu Ev).
Qed.

(** Writing at one path leaves the value at a path that branches off. *)
Lemma view_put_other (t t' : type) (ix : list nat) (fs : list StructField) :
  field_path t ix fs t' ->
  forall (x n : value) (jx : list nat) (gs : list StructField) (tj : type),
    has_type t x = true -> field_path t jx gs tj ->
    ~ ix `prefix_of` jx -> ~ jx `prefix_of` ix ->
    view t (put t x ix n) jx = view t x jx.
Proof.
  induction 1 as [t | t snm tfs i f ix fs t' Et Li X _ IH];
    intros x n jx gs tj Hx Hj N1 N2.
  - destruct N1. apply prefix_nil.
  - destruct jx as [| j jx]; [destruct N2; apply prefix_nil|].
    apply field_path_cons_inv in Hj as (snm' & tfs' & g & gs' & -> & Et' & Lj & _ & Hj).
    rewrite Et in Et'. injection Et' as <- <-.
    destruct (record_behind _ _ _ _ _ Et Li Hx) as (vs & w & Ea & Ht & Lw & Hw & Hft).
    destruct (record_behind _ _ _ _ _ Et Lj Hx) as (vs' & wj & Ea' & _ & Lwj & Hwj & Hftj).
    rewrite Ea in Ea'.
    assert (vs' = vs) as -> by (destruct t; cbn in Ea'; congruence).
    rewrite (put_cons _ _ _ _ _ _ _ _ Ea Lw Hft).
    rewrite (view_cons _ _ _ _ _ _ _ Ea Lwj Hftj).
    destruct (Nat.eq_dec i j) as [<- | Hij].
    + rewrite Lw in Lwj. injection Lwj as <-.
      rewrite Li in Lj. injection Lj as <-.
      erewrite view_cons;
        [| apply alloc_behind; right; eauto
         | apply list_lookup_insert_eq; eapply lookup_lt_Some; eauto
         | exact Hft].
      eapply IH; eauto.
      * intros P. apply N1. now apply prefix_cons.
      * intros P. apply N2. now apply prefix_cons.
    + erewrite view_cons;
        [| apply alloc_behind; right; eauto
         | rewrite list_lookup_insert_ne by exact Hij; exact Lwj
         | exact Hftj].
      reflexivity.
Qed.

Lemma zero_struct {snm : tname} (tfs : list StructField) :
  zero (TyStruct snm tfs) = VStruct (List.map (fun f => zero (Type_ f)) tfs).
Proof. reflexivity. Qed.

Section Lazy.
Context {lib : GoLib}.

(** C6, as the code has it: on a bound structure no call through a
    handle faults on a nil pointer.  [Get] never panics and leaves the
    place of the handle allocated, a nil pointer there being replaced by
    a pointer to a zero value.  [String] does the same allocation and
    returns the text of the value behind the place; it panics on one
    kind of handle only, a byte buffer whose type is not [[]byte], in the
    type assertion of the renderer.  [Set] with a text that is rejected
    gives the error back and leaves the bound structure as it was (a nil
    pointer stays nil); with a text that is accepted it leaves the
    decoded value at the place, or panics in the assignability test of
    [reflect.Set] when the type of the place is a defined type.  After an
    accepted [Set] through a handle below a record whose pointer was nil,
    at any depth, that pointer points to a record in which every field
    but the one on the path is the zero value of its type, and below the
    field on the path the place of the handle holds what was set and
    every place off the path reads as in the zero value. *)
Theorem C6_lazy_allocation (T : type) (s : value) (v : Value) :
  bound T s -> node_of T v ->
  (exists y : value,
      view T s (fieldsIndexes v) = Some y
      /\ Value_Get (Some v) s
         = Ok (Some (Value_typ v, alloc (Value_typ v) y),
               put T s (fieldsIndexes v) (alloc (Value_typ v) y))
      /\ load (put T s (fieldsIndexes v) (alloc (Value_typ v) y))
              (store_path T (fieldsIndexes v))
         = Some (alloc (Value_typ v) y)
      /\ (forall nm e, Value_typ v = TyPointer nm e ->
          (y = VPtr None -> alloc (Value_typ v) y = VPtr (Some (zero e)))
          /\ exists w, alloc (Value_typ v) y = VPtr (Some w))
      /\ Value_String (Some v) s
         = if string_faults (Value_typ v)
           then Panic "interface conversion: interface {} is not []uint8"
           else Ok (render_target (Value_typ v) (target (Value_typ v) y),
                    put T s (fieldsIndexes v) (alloc (Value_typ v) y)))
  /\ (forall to : string,
        Value_Set (Some v) to s = Panic "reflect.Set: value is not assignable to type"
        \/ exists (err : error) (s' : value),
             Value_Set (Some v) to s = Ok (err, s')
             /\ ((err <> ErrNil /\ s' = s)
                 \/ (err = ErrNil
                     /\ exists n : value,
                          load s' (store_path T (fieldsIndexes v))
                          = Some (behind (Value_typ v) n))))
  /\ (forall (ixP : list nat) (i : nat) (rest : list nat) (to : string) (s' : value),
        fieldsIndexes v = ixP ++ i :: rest ->
        view T s ixP = Some (VPtr None) ->
        Value_Set (Some v) to s = Ok (ErrNil, s') ->
        exists (fsP : list StructField) (pnm snm : tname)
               (tfs : list StructField) (f : StructField) (n : value),
          field_path T ixP fsP (TyPointer pnm (TyStruct snm tfs))
          /\ tfs !! i = Some f
          /\ view T s' (fieldsIndexes v) = Some n
          /\ load s' (store_path T ixP)
             = Some (VPtr (Some (VStruct
                   (<[i := put (Type_ f) (zero (Type_ f)) rest n]>
                      (List.map (fun g => zero (Type_ g)) tfs)))))
          /\ view (Type_ f) (put (Type_ f) (zero (Type_ f)) rest n) rest = Some n
          /\ (forall (jx : list nat) (gs : list StructField) (tj : type),
                field_path (Type_ f) jx gs tj ->
                ~ rest `prefix_of` jx -> ~ jx `prefix_of` rest ->
                view (Type_ f) (put (Type_ f) (zero (Type_ f)) rest n) jx
                = view (Type_ f) (zero (Type_ f)) jx)).
Proof.
  intros Hb Hn. pose proof Hn as [_ Hp]. pose proof Hb as [Ht _].
  split; [|split].
  - destruct (Value_Get_node _ _ _ Hb Hn) as (y & Ev & Hy & Eget).
    destruct (after_get _ _ _ _ Hb Hn Ev Hy) as (L & Hnn & _).
    exists y. split; [exact Ev|]. split; [exact Eget|]. split; [exact L|].
    split.
    + intros nm e E. split; [|now apply (Hnn nm e)].
      intros ->. rewrite E. reflexivity.
    + destruct (Value_String_spec _ _ _ Hb Hn) as (y' & Ev' & _ & E).
      rewrite Ev in Ev'. injection Ev' as <-. exact E.
  - intros to. destruct (Value_Set_outcome _ _ _ to Hb Hn) as [E | (err & s' & E & Hout)];
      [left; exact E | right].
    exists err, s'. split; [exact E|].
    destruct Hout as [Herr | (-> & n & _ & ->)]; [left; exact Herr|].
    right. split; [reflexivity|]. exists n. eapply load_put; eauto.
  - intros ixP i rest to s' Eix EvP Eset.
    destruct (Value_Set_outcome _ _ _ to Hb Hn) as [E | (err & s1 & E & Hout)];
      [rewrite Eset in E; discriminate|].
    rewrite Eset in E. injection E as <- <-.
    destruct Hout as [[Herr _] | (_ & n & _ & ->)]; [contradiction|].
    rewrite Eix in Hp.
    destruct (field_path_app_inv _ _ _ _ _ Hp) as (fsP & fsR & tP & Efs & HP & HR).
    apply field_path_cons_inv in HR as (snm & tfs & f & fsR' & -> & EP & Li & X & HR).
    destruct (view_typed _ _ _ _ HP _ Ht) as (yP & EvP' & HyP).
    rewrite EvP in EvP'. injection EvP' as <-.
    assert (EtP : exists pnm, tP = TyPointer pnm (TyStruct snm tfs)).
    { destruct tP as [? b | pnm e | | | |]; try discriminate; cbn in EP; subst; eauto. }
    destruct EtP as (pnm & ->).
    destruct (record_behind _ _ _ _ _ EP Li HyP) as (vs & w & Ea & _ & Lw & _ & Hft).
    cbn [alloc behind] in Ea. injection Ea as <-.
    exists fsP, pnm, snm, tfs, f, (behind (Value_typ v) n). split; [exact HP|].
    split; [exact Li|].
    rewrite <- Eix in Hp. split; [eapply view_put; eauto|].
    assert (Hz : has_type (Type_ f) (zero (Type_ f)) = true) by apply has_type_zero.
    assert (Ew : w = zero (Type_ f)).
    { rewrite list_lookup_fmap, Li in Lw. cbn in Lw. congruence. }
    subst w.
    split; [|split].
    + rewrite Eix.
      rewrite (put_app _ _ _ _ HP s (VPtr None) (behind (Value_typ v) n) (i :: rest) Ht EvP).
      rewrite (put_cons (TyPointer pnm (TyStruct snm tfs)) (VPtr None) i rest
                 (behind (Value_typ v) n)
                 (List.map (fun g => zero (Type_ g)) tfs) (zero (Type_ f)) (Type_ f)
                 eq_refl Lw Hft).
      cbn [behind]. eapply load_put; eauto.
    + eapply view_put; eauto.
    + intros jx gs tj Hj N1 N2. eapply view_put_other; eauto.
Qed.
End Lazy.

(** ** What a call through one handle does to the places of the others *)

Lemma alloc_alloc (t : type) (x : value) : alloc t (alloc t x) = alloc t x.
Proof. destruct t; try reflexivity. destruct x as [| | | | | | [w |] | | | | |]; reflexivity. Qed.

Lemma target_alloc (t : type) (x : value) : target t (alloc t x) = target t x.
Proof. unfold target. now rewrite alloc_alloc. Qed.



Section Handles.
Context {lib : GoLib}.



(** The state after [val.get()] through a handle. *)
Lemma allocated_state (T : type) (s y : value) (v : Value) :
  bound T s -> node_of T v -> view T s (fieldsIndexes v) = Some y ->
  has_type (Value_typ v) y = true ->
  let s1 := put T s (fieldsIndexes v) (alloc (Value_typ v) y) in
  bound T s1
  /\ view T s1 (fieldsIndexes v) = Some (alloc (Value_typ v) y)
  /\ put T s1 (fieldsIndexes v) (alloc (Value_typ v) (alloc (Value_typ v) y)) = s1.
Proof.
  intros Hb Hn Ev Hy s1. pose proof Hn as [_ Hp]. pose proof Hb as [HT _].
  destruct (after_get _ _ _ _ Hb Hn Ev Hy) as (_ & _ & Hb1).
  split; [exact Hb1|]. split.
  - eapply view_put; eauto.
  - rewrite alloc_alloc. unfold s1. eapply put_put; eauto.
Qed.

(** [String] renders the value behind the place of the handle, and a
    second call renders the same text and changes nothing: the only
    effect of the first call is the allocation of [val.get()]. *)
Theorem String_renders_the_target (T : type) (s : value) (v : Value) :
  bound T s -> node_of T v -> string_faults (Value_typ v) = false ->
  exists (y s1 : value),
    view T s (fieldsIndexes v) = Some y
    /\ Value_String (Some v) s
       = Ok (render_target (Value_typ v) (target (Value_typ v) y), s1)
    /\ s1 = put T s (fieldsIndexes v) (alloc (Value_typ v) y)
    /\ bound T s1
    /\ Value_String (Some v) s1
       = Ok (render_target (Value_typ v) (target (Value_typ v) y), s1).
Proof.
  intros Hb Hn Hf.
  destruct (Value_String_spec _ _ _ Hb Hn) as (y & Ev & Hy & E).
  destruct (allocated_state _ _ _ _ Hb Hn Ev Hy) as (Hb1 & Ev1 & Es1).
  rewrite Hf in E.
  exists y, (put T s (fieldsIndexes v) (alloc (Value_typ v) y)).
  split; [exact Ev|]. split; [exact E|]. split; [reflexivity|]. split; [exact Hb1|].
  destruct (Value_String_spec _ _ _ Hb1 Hn) as (y1 & Ev1' & _ & E1).
  rewrite Ev1 in Ev1'. injection Ev1' as <-.
  rewrite E1, Hf, target_alloc, Es1. reflexivity.
Qed.





End Handles.

(** ** Custom codecs *)

Section Codecs2.
Context {lib : GoLib}.

(** [val.get()] and [elemIfPtr] through a handle: the cursor on the value
    behind the place can be addressed. *)
Lemma node_read_addr (T : type) (s : value) (v : Value) :
  bound T s -> node_of T v ->
  exists y : value,
    view T s (fieldsIndexes v) = Some y
    /\ has_type (Value_typ v) y = true
    /\ (forall (B : Type) (k : reflect_Value -> M B),
          (let* x := Value_get v in let* e := elemIfPtr x in k e) s
          = k (cursor (elemIfPtrType (Value_typ v))
                      (store_path T (fieldsIndexes v) ++ deref_steps (Value_typ v))
                      true)
              (put T s (fieldsIndexes v) (alloc (Value_typ v) y)))
    /\ load (put T s (fieldsIndexes v) (alloc (Value_typ v) y))
            (store_path T (fieldsIndexes v) ++ deref_steps (Value_typ v))
       = Some (target (Value_typ v) y).
Proof.
  intros Hb Hn.
  destruct (Value_get_spec _ _ _ Hb Hn) as (y & addr & Ev & Hy & Eget & Haddr & _).
  destruct (after_get _ _ _ _ Hb Hn Ev Hy) as (L & Hnn & _).
  destruct (elemIfPtr_cursor _ _ addr _ _ L Hnn) as (Ee & Lt).
  exists y. split; [exact Ev|]. split; [exact Hy|]. split; [|exact Lt].
  intros B k. unfold bind. rewrite Eget, Ee.
  replace (match Value_typ v with TyPointer _ _ => true | _ => addr end) with true;
    [reflexivity|].
  destruct Haddr as [-> | [_ E]]; [destruct (Value_typ v); reflexivity|].
  destruct (bound_pointer _ _ Hb) as (pnm & T0 & w & -> & _). now rewrite E.
Qed.

Lemma store_target (T : type) (s y new : value) (v : Value) :
  bound T s -> node_of T v -> view T s (fieldsIndexes v) = Some y ->
  has_type (Value_typ v) y = true ->
  store (put T s (fieldsIndexes v) (alloc (Value_typ v) y))
        (store_path T (fieldsIndexes v) ++ deref_steps (Value_typ v)) new
  = Some (put T s (fieldsIndexes v) (behind (Value_typ v) new)).
Proof.
  intros Hb Hn Ev Hy. pose proof Hn as [_ Hp]. pose proof Hb as [HT _].
  rewrite store_app, (load_put _ _ _ _ Hp _ _ HT).
  assert (E : store (alloc (Value_typ v) y) (deref_steps (Value_typ v)) new
              = Some (behind (Value_typ v) new)).
  { destruct (Value_typ v) as [| ? e | | | |] eqn:Et; try reflexivity.
    destruct (alloc_nonnil _ _ Hy) as (w & -> & _). reflexivity. }
  rewrite E. eapply store_put; eauto.
Qed.

(** [SetEncoder] replaces the renderer and nothing else: [String] then
    returns what the encoder makes of the value [Get] returns, or the
    empty text when the encoder fails; the other methods are those of
    the handle of before, and [SetEncoder(nil)] gives that handle back. *)
Theorem custom_encoder_replaces_renderer (T : type) (s : value) (v : Value)
    (enc : type -> value -> string * error) :
  bound T s -> node_of T v ->
  exists (v' : Value) (y : value),
    Value_SetEncoder (Some v) (Some enc) = Some v'
    /\ view T s (fieldsIndexes v) = Some y
    /\ Value_String (Some v') s
       = Ok (let (b, err) := enc (Value_typ v) (alloc (Value_typ v) y) in
             if negb (is_nil_error err) then "" else b,
             put T s (fieldsIndexes v) (alloc (Value_typ v) y))
    /\ Value_Get (Some v') = Value_Get (Some v)
    /\ (forall to : string, Value_Set (Some v') to = Value_Set (Some v) to)
    /\ Value_Type (Some v') = Value_Type (Some v)
    /\ Value_Path (Some v') = Value_Path (Some v)
    /\ Value_IsBoolFlag (Some v') = Value_IsBoolFlag (Some v)
    /\ Value_SetEncoder (Some v') None = Some v.
Proof.
  intros Hb Hn. destruct (node_of_base _ _ Hn) as (Eb & Eenc & Edec).
  destruct (Value_get_spec _ _ _ Hb Hn) as (y & addr & Ev & Hy & Eget & _).
  destruct (after_get _ _ _ _ Hb Hn Ev Hy) as (L & _).
  assert (Hinit : isInitialized (Some v) = true)
    by (unfold isInitialized; rewrite Eb; reflexivity).
  unfold Value_SetEncoder. rewrite Hinit. cbn [negb].
  set (v' := mkValue (base v) (fieldsIndexes v) (fields v) (typeName v)
                     (stringFn v) (Some enc) (setFn v) (decodeFn v) (isBool v)).
  assert (Eg : Value_get v' = Value_get v) by reflexivity.
  exists v', y. split; [reflexivity|]. split; [exact Ev|].
  split; [|split; [|split; [|split; [|split; [|split]]]]].
  - unfold Value_String, isInitialized. cbn [base encodeFn v']. rewrite Eb.
    cbn [rv_IsValid reflect_ValueOf rv_loc negb].
    rewrite Eg. unfold bind. rewrite Eget. unfold rv_Interface, bind.
    rewrite (rv_read_cursor _ _ _ _ _ L). unfold ret. cbn [fst snd].
    destruct (enc _ _) as [b err]. destruct (negb (is_nil_error err)); reflexivity.
  - reflexivity.
  - intros to. unfold Value_Set, isInitialized. cbn [base decodeFn setFn v'].
    destruct (decodeFn v); [reflexivity|].
    destruct (setFn v) as [f |]; [destruct f; reflexivity | reflexivity].
  - reflexivity.
  - reflexivity.
  - reflexivity.
  - subst v'. unfold isInitialized. cbn [base]. rewrite Eb.
    cbn [rv_IsValid reflect_ValueOf rv_loc negb
         base fieldsIndexes fields typeName stringFn setFn decodeFn isBool].
    rewrite <- Eenc, <- Eb. destruct v; reflexivity.
Qed.

(** [SetDecoder] replaces the parser: [Set] then hands the text and a
    pointer to the value behind the place to the decoder and returns its
    error; what the decoder leaves behind the pointer is in the bound
    structure whether it fails or not, and no assignability test is made.
    [String] is that of the handle of before, and [SetDecoder(nil)] gives
    that handle back. *)
Theorem custom_decoder_writes_in_place (T : type) (s : value) (v : Value)
    (dec : string -> type -> value -> value * error) (to : string) :
  bound T s -> node_of T v ->
  exists (v' : Value) (y : value),
    Value_SetDecoder (Some v) (Some dec) = Some v'
    /\ view T s (fieldsIndexes v) = Some y
    /\ Value_Set (Some v') to s
       = Ok (snd (dec to (elemIfPtrType (Value_typ v)) (target (Value_typ v) y)),
             put T s (fieldsIndexes v)
                 (behind (Value_typ v)
                    (fst (dec to (elemIfPtrType (Value_typ v))
                              (target (Value_typ v) y)))))
    /\ Value_String (Some v') = Value_String (Some v)
    /\ Value_SetDecoder (Some v') None = Some v.
Proof.
  intros Hb Hn. destruct (node_of_base _ _ Hn) as (Eb & Eenc & Edec).
  destruct (node_read_addr _ _ _ Hb Hn) as (y & Ev & Hy & Erun & L).
  assert (Hinit : isInitialized (Some v) = true)
    by (unfold isInitialized; rewrite Eb; reflexivity).
  unfold Value_SetDecoder. rewrite Hinit. cbn [negb].
  set (v' := mkValue (base v) (fieldsIndexes v) (fields v) (typeName v)
                     (stringFn v) (encodeFn v) (setFn v) (Some dec) (isBool v)).
  assert (Eg : Value_get v' = Value_get v) by reflexivity.
  exists v', y. split; [reflexivity|]. split; [exact Ev|].
  split; [|split].
  - unfold Value_Set, isInitialized. cbn [base decodeFn v']. rewrite Eb.
    cbn [rv_IsValid reflect_ValueOf rv_loc negb].
    rewrite Eg, Erun. cbn [rv_CanAddr rv_addr cursor negb].
    unfold bind. fold (cursor (elemIfPtrType (Value_typ v))
          (store_path T (fieldsIndexes v) ++ deref_steps (Value_typ v)) true).
    rewrite (rv_read_cursor _ _ _ _ _ L).
    destruct (dec _ _ _) as [new err]. cbn [cursor rv_loc fst snd].
    now rewrite (store_target _ _ _ _ _ Hb Hn Ev Hy).
  - unfold Value_String, isInitialized. cbn [base encodeFn stringFn v'].
    destruct (encodeFn v); [reflexivity|].
    destruct (stringFn v) as [f |]; [destruct f; reflexivity | reflexivity].
  - subst v'. unfold isInitialized. cbn [base]. rewrite Eb.
    cbn [rv_IsValid reflect_ValueOf rv_loc negb
         base fieldsIndexes fields typeName stringFn setFn encodeFn isBool].
    rewrite <- Edec, <- Eb. destruct v; reflexivity.
Qed.


End Codecs2.

(** ** Filters only remove *)

Lemma sublist_own {A : Type} (c : bool) (x : A) (l : list A) :
  sublist (if c then [x] else []) ([x] ++ l).
Proof.
  destruct c.
  - apply sublist_inserts_r. reflexivity.
  - apply sublist_nil_l.
Qed.

Lemma loop_fields_sublist {A : Type} (f g : nat -> StructField -> list A)
    (rest : list StructField) :
  (forall i x, In x rest -> sublist (f i x) (g i x)) ->
  forall i, sublist (loop_fields f rest i) (loop_fields g rest i).
Proof.
  induction rest as [| x rest IH]; intros H i; cbn [loop_fields]; [constructor|].
  apply sublist_app; [apply H; now left | apply IH; intros; apply H; now right].
Qed.

Lemma recursive_at_sublist (t : type) :
  forall (b : reflect_Value) (ix : list nat) (fs : list StructField)
         (filters : list FilterFunc),
    sublist (recursive_at t b ix fs filters) (recursive_at t b ix fs []).
Proof.
  induction t as [t IH] using position_ind. intros b ix fs filters.
  rewrite !recursive_at_eq. cbn zeta.
  destruct (newValue b ix fs) as [v |] eqn:Ev; [|reflexivity].
  change (Filter (Some v) []) with 0%N. cbn [N.land N.eqb negb].
  destruct (elemIfPtrType t) as [| | | | | snm tfs] eqn:Et.
  1-5: destruct (negb _);
       rewrite <- (app_nil_r [Some v]) at 2; apply sublist_own.
  destruct (negb _).
  - apply sublist_own.
  - apply sublist_app; [rewrite <- (app_nil_r [Some v]) at 2; apply sublist_own|].
    apply loop_fields_sublist. intros i f Hf.
    destruct (negb (IsExported f)); [reflexivity|].
    eapply IH; eauto.
Qed.

Lemma StronglySorted_NoDup {A : Type} (R : A -> A -> Prop) (l : list A) :
  (forall x, ~ R x x) -> StronglySorted R l -> NoDup l.
Proof.
  intros Hirr. induction 1 as [| x l _ IH Hx]; constructor; [|exact IH].
  intros Hin. rewrite Forall_forall in Hx. apply (Hirr x), Hx, Hin.
Qed.

(** Filters only remove: on every root the result with a filter chain is
    a sublist, in the same order, of the result with no filter, and no
    position has two handles in it. *)
Theorem Recursive_filters_only_remove (b : any) (filters : list FilterFunc) :
  sublist (Recursive b filters) (Recursive b [])
  /\ NoDup (List.map Value_fieldsIndexes (Recursive b filters)).
Proof.
  destruct b as [[T s] |]; [|split; [reflexivity | constructor]].
  unfold Recursive. destruct (unusable_root T s); [split; [reflexivity | constructor]|].
  unfold recursive. split; [apply recursive_at_sublist|].
  destruct (recursive_at_sorted (position_type (reflect_ValueOf T) [])
              (reflect_ValueOf T) [] [] filters) as (sufs & E & Hs).
  rewrite E. cbn [app]. rewrite map_id.
  eapply StronglySorted_NoDup; [apply path_lt_irrefl | exact Hs].
Qed.


(** ** The theorems at the sample structure *)

Ltac sample_bound := split; [reflexivity | eexists; reflexivity].

Ltac sample_path :=
  repeat first
    [ apply field_path_nil
    | eapply field_path_cons; [ reflexivity | reflexivity | reflexivity | ] ].

Ltac sample_node := split; [reflexivity | sample_path].

(** C8 at the empty record [R]: its marshaling is the literal of the empty
    object, and the rendering is empty. *)
Lemma C8_record_String_witness :
  exists (str : string) (s' : value),
    Value_String (Some node_R) sampleStore = Ok (str, s') /\ str = "".
Proof.
  destruct (C8_record_String sampleRoot sampleStore node_R)
    as (y & str & Ev & E & Htext).
  - sample_bound.
  - sample_node.
  - reflexivity.
  - exists str; eexists; split; [exact E|].
    vm_compute in Ev. injection Ev as <-.
    destruct (Htext "{}" eq_refl) as [Hd _].
    apply Hd. left. reflexivity.
Defined.

(** C10 at the nil map [M]: the rendering is empty. *)
Lemma C10_map_String_witness :
  exists (str : string) (s' : value),
    Value_String (Some node_M) sampleStore = Ok (str, s') /\ str = "".
Proof.
  destruct (C10_map_String sampleRoot sampleStore node_M)
    as (y & m & str & Ev & Etg & E & Hz & _).
  - sample_bound.
  - sample_node.
  - reflexivity.
  - exists str; eexists; split; [exact E|].
    vm_compute in Ev. injection Ev as <-.
    vm_compute in Etg. injection Etg as <-.
    apply Hz. reflexivity.
Defined.

(** C3 at the map [M]: a text that is not JSON is reported and changes
    nothing, the empty object is installed. *)
Lemma C3_map_record_Set_witness :
  Value_Set (Some node_M) "x" sampleStore
  = Ok (ErrOther "invalid character", sampleStore)
  /\ exists s' : value,
       Value_Set (Some node_M) "{}" sampleStore = Ok (ErrNil, s')
       /\ bound sampleRoot s'.
Proof.
  destruct (C3_map_record_Set_replaces sampleRoot sampleStore node_M)
    as (Hbad & Hgood & _).
  - sample_bound.
  - sample_node.
  - left. reflexivity.
  - split.
    + apply (Hbad "x"). discriminate.
    + destruct (Hgood "{}" eq_refl) as (s' & y' & E & B & _).
      exists s'. split; [exact E | exact B].
Defined.





(** C6 at the number [N.X.Y], two records below the nil pointer [N]:
    setting it allocates the record behind [N] and the record behind
    [X]; [W] and [Z] are the zero values of their types. *)
Lemma C6_lazy_allocation_witness :
  exists (s' n : value),
    Value_Set (Some node_NXY) "7" sampleConfigStore = Ok (ErrNil, s')
    /\ view sampleConfigRoot s' [2; 1; 0]%nat = Some n
    /\ load s' (store_path sampleConfigRoot [2%nat])
       = Some (VPtr (Some (VStruct
            [VBool false; VPtr (Some (VStruct [n; VString ""]))]))).
Proof.
  destruct (C6_lazy_allocation sampleConfigRoot sampleConfigStore node_NXY)
    as (_ & _ & Hset).
  - sample_bound.
  - sample_node.
  - destruct (Hset [2%nat] 1%nat [0%nat] "7" sampleConfigSet eq_refl eq_refl eq_refl)
      as (fsP & pnm & snm & tfs & f & n & HP & Li & Evn & El & _).
    exists sampleConfigSet, n.
    split; [reflexivity|]. split; [exact Evn|].
    vm_compute in Evn. injection Evn as <-. reflexivity.
Defined.

(** The first [Set] through a handle over a nil pointer that fails:
    [Q] is a nil pointer to a number, and so is the [P] above [P.A]; the
    text is rejected by the parser before the place is reached, and both
    pointers are nil afterwards. *)
Lemma C6_failing_Set_leaves_nil :
  In (Some node_Q) (Recursive (Some (sampleRoot, sampleStore)) [])
  /\ load sampleStore (store_path sampleRoot [4%nat]) = Some (VPtr None)
  /\ Value_Set (Some node_Q) "x" sampleStore = Ok (ErrSyntax, sampleStore)
  /\ In (Some node_PA) (Recursive (Some (sampleRoot, sampleStore)) [])
  /\ load sampleStore (store_path sampleRoot [1%nat]) = Some (VPtr None)
  /\ Value_Set (Some node_PA) "x" sampleStore = Ok (ErrSyntax, sampleStore).
Proof.
  split; [vm_compute; tauto|]. split; [reflexivity|]. split; [reflexivity|].
  split; [vm_compute; tauto|]. split; reflexivity.
Qed.

(** C7 at the second structure, with no filter: the handle of [N.X.Y],
    below two pointers, is in the result. *)
Lemma C7_Recursive_witness :
  In (Some node_NXY) (Recursive (Some (sampleConfigRoot, sampleConfigStore)) []).
Proof.
  destruct (C7_Recursive_preorder sampleConfigRoot sampleConfigStore [])
    as (_ & _ & Hmem & _).
  destruct (Hmem eq_refl node_NXY) as [_ Hall].
  apply Hall. sample_node.
Defined.

(** ** The further theorems at the sample structures *)

(** The empty list [P.L] renders as the empty text, twice. *)
Lemma String_renders_the_target_witness :
  exists s1 : value,
    Value_String (Some node_PL) sampleStore = Ok ("", s1)
    /\ Value_String (Some node_PL) s1 = Ok ("", s1).
Proof.
  destruct (String_renders_the_target sampleRoot sampleStore node_PL)
    as (y & s1 & Ev & E & Es & Hb1 & E2).
  - sample_bound.
  - sample_node.
  - reflexivity.
  - vm_compute in Ev. injection Ev as <-.
    exists s1. split; [exact E | exact E2].
Defined.




(** An encoder on the handle of the map [M]. *)
Lemma custom_encoder_witness :
  exists (v' : Value) (s1 : value),
    Value_SetEncoder (Some node_M) (Some (fun _ _ => ("custom", ErrNil))) = Some v'
    /\ Value_String (Some v') sampleStore = Ok ("custom", s1)
    /\ Value_SetEncoder (Some v') None = Some node_M.
Proof.
  destruct (custom_encoder_replaces_renderer sampleRoot sampleStore node_M
              (fun _ _ => ("custom", ErrNil)))
    as (v' & y & E & Ev & ES & _ & _ & _ & _ & _ & Eback).
  - sample_bound.
  - sample_node.
  - exists v'. eexists. split; [exact E|]. split; [exact ES | exact Eback].
Defined.

(** A decoder on the handle of [P.A] that leaves 3 behind the pointer. *)
Lemma custom_decoder_witness :
  exists (v' : Value) (s1 : value),
    Value_SetDecoder (Some node_PA) (Some (fun _ _ _ => (VInt 3, ErrNil))) = Some v'
    /\ Value_Set (Some v') "three" sampleStore = Ok (ErrNil, s1)
    /\ view sampleRoot s1 [1; 0]%nat = Some (VInt 3).
Proof.
  destruct (custom_decoder_writes_in_place sampleRoot sampleStore node_PA
              (fun _ _ _ => (VInt 3, ErrNil)) "three")
    as (v' & y & E & Ev & ES & _).
  - sample_bound.
  - sample_node.
  - exists v'. eexists. split; [exact E|]. split; [exact ES | reflexivity].
Defined.

